(** * sql2soql: a shallow embedding of the SQL-to-SOQL translator

    The translator of [sql2soql.py] is one Python function built from
    regular-expression scans ([re.search], [re.findall], [re.sub]), string
    slicing and in-place list edits.  This development embeds

    - Python [str] values as lists of code points below 256 ([str]);
    - the fragment of Python's [re] the patterns of the source use, as a
      backtracking matcher in continuation-passing style ([Re]);
    - the schema dictionary as a finite map whose values are list objects
      that [list_fields] may alias ([Sql2soql]);

    and then states and proves the properties of the translator. *)

From Stdlib Require Import Ascii String ZArith Lia DecimalString.
From stdpp Require Import gmap strings list fin_maps.

Set Default Proof Using "Type".
Local Open Scope nat_scope.

(** ** Python strings *)

(** A [str] is the sequence of its code points. *)
Abbreviation str := (list ascii).

(** [py "abc"] is the Python literal ['abc']. *)
Abbreviation py := list_ascii_of_string.

Module Py.

Definition code (c : ascii) : nat := nat_of_ascii c.

Definition between (lo hi : nat) (c : ascii) : bool :=
  (lo <=? code c) && (code c <=? hi).

(** [str.isspace] on one code point, which is also [\s] of [re]. *)
Definition isspace (c : ascii) : bool :=
  between 9 13 c || between 28 32 c || (code c =? 133) || (code c =? 160).

(** [\d]: the decimal digits. *)
Definition isdigit (c : ascii) : bool := between 48 57 c.

Definition isupper_ascii (c : ascii) : bool := between 65 90 c.

(** [\w]: [str.isalnum] or the underscore. *)
Definition isword (c : ascii) : bool :=
  between 48 57 c || between 65 90 c || between 97 122 c || (code c =? 95)
  || (code c =? 170) || between 178 179 c || (code c =? 181)
  || between 185 186 c || between 188 190 c
  || between 192 214 c || between 216 246 c || between 248 255 c.

(** [str.lower] on one code point. *)
Definition lower_char (c : ascii) : ascii :=
  if isupper_ascii c || between 192 214 c || between 216 222 c
  then ascii_of_nat (code c + 32) else c.

Definition lower (t : str) : str := map lower_char t.

Definition eqc (a b : ascii) : bool := bool_decide (a = b).

Definition eqs (a b : str) : bool := bool_decide (a = b).

(** [x in l] for a list of strings. *)
Definition mem (x : str) (l : list str) : bool := bool_decide (x ∈ l).

(** [c in t] for a character and a string. *)
Definition has_char (c : ascii) (t : str) : bool := bool_decide (c ∈ t).

(** [t[a:b]], [t[a:]] and [t[:b]] for indexes within the usual range. *)
Definition slice (t : str) (a b : nat) : str := take (b - a) (drop a t).

Fixpoint lstrip (t : str) : str :=
  match t with
  | c :: t' => if isspace c then lstrip t' else t
  | [] => []
  end.

Definition rstrip (t : str) : str := rev (lstrip (rev t)).

(** [t.strip()] *)
Definition strip (t : str) : str := rstrip (lstrip t).

(** [t.endswith(suffix)] *)
Definition endswith (t suffix : str) : bool :=
  bool_decide (drop (length t - length suffix) t = suffix)
  && (length suffix <=? length t).

(** [t.startswith(prefix)] *)
Definition startswith (t prefix : str) : bool :=
  bool_decide (take (length prefix) t = prefix).

(** [sep.join(l)] *)
Fixpoint join (sep : str) (l : list str) : str :=
  match l with
  | [] => []
  | [x] => x
  | x :: l' => x ++ sep ++ join sep l'
  end.

(** [l.remove(x)]: delete the first occurrence of [x]. *)
Fixpoint remove (x : str) (l : list str) : list str :=
  match l with
  | [] => []
  | y :: l' => if eqs x y then l' else y :: remove x l'
  end.

(** [t.replace(old, new)] for a non-empty [old]: the occurrences are taken
    from left to right and do not overlap.  [skip] counts the characters of
    an occurrence that are still to be passed over. *)
Fixpoint replace_from (old new : str) (skip : nat) (t : str) : str :=
  match t with
  | [] => []
  | c :: t' =>
      match skip with
      | S k => replace_from old new k t'
      | O => if startswith t old
             then new ++ replace_from old new (length old - 1) t'
             else c :: replace_from old new 0 t'
      end
  end.

Definition replace (old new t : str) : str := replace_from old new 0 t.

(** [str(n)] for an integer. *)
Definition str_of_int (n : Z) : str := py (NilZero.string_of_int (Z.to_int n)).

End Py.

(** ** The fragment of Python's [re] used by the translator *)

Module Re.

(** Patterns.  A repetition is always over one character class in the
    source's patterns, and [x{0,1}] and [x?] are [Alt x Eps]. *)
Inductive re : Type :=
  | Eps                                   (* the empty pattern *)
  | Chr (p : ascii -> bool)               (* one character of a class *)
  | Cat (r1 r2 : re)                      (* r1 r2 *)
  | Alt (r1 r2 : re)                      (* r1|r2, r1 tried first *)
  | Star (greedy : bool) (p : ascii -> bool)   (* p* and p*? *)
  | Grp (n : nat) (r : re)                (* capturing group number n *)
  | Eos.                                  (* $ *)

(** The span [(start, end)] of each group that took part in the match. *)
Abbreviation captures := (list (nat * (nat * nat))).

Fixpoint cap_lookup (n : nat) (caps : captures) : option (nat * nat) :=
  match caps with
  | [] => None
  | (m, sp) :: caps' => if n =? m then Some sp else cap_lookup n caps'
  end.

(** [$] matches at the end of the string and before a newline that ends
    the string. *)
Definition at_eos (t : str) : bool :=
  match t with
  | [] => true
  | [c] => Py.code c =? 10
  | _ => false
  end.

(** The backtracking matcher.  [t] is the text still to be read, [pos] the
    number of characters read since the start of the attempt, and [k] the
    continuation that matches the rest of the pattern; [None] makes the
    matcher backtrack to its latest choice. *)
Fixpoint rmatch {R : Type} (r : re) (t : str) (pos : nat) (caps : captures)
    (k : str -> nat -> captures -> option R) {struct r} : option R :=
  match r with
  | Eps => k t pos caps
  | Chr p =>
      match t with
      | c :: t' => if p c then k t' (S pos) caps else None
      | [] => None
      end
  | Cat r1 r2 =>
      rmatch r1 t pos caps (fun t' pos' caps' => rmatch r2 t' pos' caps' k)
  | Alt r1 r2 =>
      match rmatch r1 t pos caps k with
      | Some x => Some x
      | None => rmatch r2 t pos caps k
      end
  | Star true p =>
      (fix more (t : str) (pos : nat) {struct t} : option R :=
         match t with
         | c :: t' =>
             if p c then
               match more t' (S pos) with
               | Some x => Some x
               | None => k t pos caps
               end
             else k t pos caps
         | [] => k t pos caps
         end) t pos
  | Star false p =>
      (fix more (t : str) (pos : nat) {struct t} : option R :=
         match k t pos caps with
         | Some x => Some x
         | None =>
             match t with
             | c :: t' => if p c then more t' (S pos) else None
             | [] => None
             end
         end) t pos
  | Grp n r1 =>
      rmatch r1 t pos caps
        (fun t' pos' caps' => k t' pos' ((n, (pos, pos')) :: caps'))
  | Eos => if at_eos t then k t pos caps else None
  end.

(** A match object: [m_start] and [m_end] are [start(0)] and [end(0)]. *)
Record mobj : Type := Match {
  m_start : nat;
  m_end : nat;
  m_caps : captures
}.

(** One attempt at the start of [t], which is at offset [off] of the
    string searched. *)
Definition match_at (r : re) (t : str) (off : nat) : option mobj :=
  rmatch r t off [] (fun _ e caps => Some (Match off e caps)).

(** [re.search]: the attempt at the leftmost offset that succeeds. *)
Fixpoint search_from (r : re) (t : str) (off : nat) : option mobj :=
  match match_at r t off with
  | Some m => Some m
  | None =>
      match t with
      | [] => None
      | _ :: t' => search_from r t' (S off)
      end
  end.

Definition search (r : re) (t : str) : option mobj := search_from r t 0.

(** [m.end(n)] and [m.group(n)] of a group that took part in the match. *)
Definition m_gend (m : mobj) (n : nat) : option nat :=
  snd <$> cap_lookup n (m_caps m).

Definition m_group (t : str) (m : mobj) (n : nat) : option str :=
  (fun sp => Py.slice t (fst sp) (snd sp)) <$> cap_lookup n (m_caps m).

(** [re.findall], as the list of match objects: the scan goes on from the
    end of each match.  [skip] counts the characters of the last match that
    are still to be passed over; [off] is the offset of [t]. *)
Fixpoint finditer_from (r : re) (skip : nat) (t : str) (off : nat) : list mobj :=
  match skip with
  | S k =>
      match t with
      | [] => []
      | _ :: t' => finditer_from r k t' (S off)
      end
  | O =>
      match match_at r t off, t with
      | Some m, _ :: t' => m :: finditer_from r (m_end m - off - 1) t' (S off)
      | Some m, [] => [m]
      | None, _ :: t' => finditer_from r 0 t' (S off)
      | None, [] => []
      end
  end.

Definition finditer (r : re) (t : str) : list mobj := finditer_from r 0 t 0.

(** [re.sub(r, repl, t)] for a pattern that matches no empty string and a
    replacement without escapes. *)
Fixpoint sub_from (r : re) (repl : str) (skip : nat) (t : str) (off : nat) : str :=
  match t with
  | [] => []
  | c :: t' =>
      match skip with
      | S k => sub_from r repl k t' (S off)
      | O =>
          match match_at r t off with
          | Some m =>
              if off <? m_end m
              then repl ++ sub_from r repl (m_end m - off - 1) t' (S off)
              else c :: sub_from r repl 0 t' (S off)
          | None => c :: sub_from r repl 0 t' (S off)
          end
      end
  end.

Definition sub (r : re) (repl t : str) : str := sub_from r repl 0 t 0.

(** *** Writing patterns *)

(** A literal character, under [re.IGNORECASE] when [ic] is set. *)
Definition chr (ic : bool) (c : ascii) : re :=
  if ic then Chr (fun x => Py.eqc (Py.lower_char x) (Py.lower_char c))
  else Chr (fun x => Py.eqc x c).

(** A literal word. *)
Fixpoint word (ic : bool) (w : str) : re :=
  match w with
  | [] => Eps
  | c :: w' => Cat (chr ic c) (word ic w')
  end.

(** [r1 r2 ... rn] *)
Fixpoint seq (rs : list re) : re :=
  match rs with
  | [] => Eps
  | r :: rs' => Cat r (seq rs')
  end.

(** [r1|r2|...|rn] *)
Fixpoint alt (rs : list re) : re :=
  match rs with
  | [] => Eps
  | [r] => r
  | r :: rs' => Alt r (alt rs')
  end.

(** [p+], [p*], [.*?], [r?] and [p{1,2}] *)
Definition plus (p : ascii -> bool) : re := Cat (Chr p) (Star true p).
Definition star (p : ascii -> bool) : re := Star true p.
Definition lazy_star (p : ascii -> bool) : re := Star false p.
Definition opt (r : re) : re := Alt r Eps.
Definition one_or_two (p : ascii -> bool) : re := Cat (Chr p) (opt (Chr p)).

(** [.]: any character but a newline. *)
Definition dot (c : ascii) : bool := negb (Py.code c =? 10).

Definition ws : ascii -> bool := Py.isspace.
Definition digit : ascii -> bool := Py.isdigit.

(** *** What a pattern matches

    [matches r pos u rest caps caps'] says that [r] can match the text [u]
    when [rest] follows it, starting [pos] characters into the attempt, and
    that the groups recorded go from [caps] to [caps'].  The relation has no
    notion of priority: it holds of every way to match, and the matcher
    picks one of them. *)
Inductive matches : re -> nat -> str -> str -> captures -> captures -> Prop :=
  | M_eps pos rest caps :
      matches Eps pos [] rest caps caps
  | M_chr p c pos rest caps :
      p c = true ->
      matches (Chr p) pos [c] rest caps caps
  | M_cat r1 r2 pos u1 u2 rest caps caps1 caps2 :
      matches r1 pos u1 (u2 ++ rest) caps caps1 ->
      matches r2 (pos + length u1) u2 rest caps1 caps2 ->
      matches (Cat r1 r2) pos (u1 ++ u2) rest caps caps2
  | M_alt_l r1 r2 pos u rest caps caps' :
      matches r1 pos u rest caps caps' ->
      matches (Alt r1 r2) pos u rest caps caps'
  | M_alt_r r1 r2 pos u rest caps caps' :
      matches r2 pos u rest caps caps' ->
      matches (Alt r1 r2) pos u rest caps caps'
  | M_star g p pos u rest caps :
      Forall (fun c => p c = true) u ->
      matches (Star g p) pos u rest caps caps
  | M_grp n r pos u rest caps caps' :
      matches r pos u rest caps caps' ->
      matches (Grp n r) pos u rest caps ((n, (pos, pos + length u)) :: caps')
  | M_eos pos rest caps :
      at_eos rest = true ->
      matches Eos pos [] rest caps caps.

End Re.

(** ** The translator *)

Module Sql2soql.
Import Re.

(** *** The patterns of the source, in the order of their use *)

(** [select\s+], ignoring case *)
Definition re_select : re := seq [word true (py "select"); plus ws].

(** [(.*?)from\s+], ignoring case *)
Definition re_fields : re :=
  seq [Grp 1 (lazy_star dot); word true (py "from"); plus ws].

(** The class [[\w\d_\.]] *)
Definition field_char (c : ascii) : bool :=
  Py.isword c || Py.isdigit c || Py.eqc c "_" || Py.eqc c ".".

(** [(?i)\s*(\*|[\w\d_\.]+(\(.*?\)){0,1})\s*] *)
Definition re_field : re :=
  seq [star ws;
       Grp 1 (Alt (chr true "*")
                  (Cat (plus field_char)
                       (opt (Grp 2 (seq [chr true "("; lazy_star dot; chr true ")"])))));
       star ws].

(** [(count\(|avg\(|count_distinct\(|min\(|max\(|sum\()], ignoring case *)
Definition re_aggregate : re :=
  Grp 1 (alt [word true (py "count("); word true (py "avg(");
              word true (py "count_distinct("); word true (py "min(");
              word true (py "max("); word true (py "sum(")]).

(** [(FROM\s+)(\w+)\s*], ignoring case *)
Definition re_from : re :=
  seq [Grp 1 (Cat (word true (py "FROM")) (plus ws)); Grp 2 (plus Py.isword); star ws].

(** [WHERE\s+] and [(.*?)(GROUP|ORDER|LIMIT|$)], ignoring case *)
Definition re_where : re := seq [word true (py "WHERE"); plus ws].
Definition re_where_end : re :=
  seq [Grp 1 (lazy_star dot);
       Grp 2 (alt [word true (py "GROUP"); word true (py "ORDER");
                   word true (py "LIMIT"); Eos])].

(** [GROUP\s+BY\s+] and [(.*?)(ORDER|LIMIT|$)], ignoring case *)
Definition re_groupby : re :=
  seq [word true (py "GROUP"); plus ws; word true (py "BY"); plus ws].
Definition re_groupby_end : re :=
  seq [Grp 1 (lazy_star dot);
       Grp 2 (alt [word true (py "ORDER"); word true (py "LIMIT"); Eos])].

(** [ORDER\s+BY\s+] and [(.*?)(LIMIT|$)], ignoring case *)
Definition re_orderby : re :=
  seq [word true (py "ORDER"); plus ws; word true (py "BY"); plus ws].
Definition re_orderby_end : re :=
  seq [Grp 1 (lazy_star dot); Grp 2 (alt [word true (py "LIMIT"); Eos])].

(** [(LIMIT\s+)(\d+)\s*], ignoring case *)
Definition re_limit : re :=
  seq [Grp 1 (Cat (word true (py "LIMIT")) (plus ws)); Grp 2 (plus digit); star ws].

(** [<=\s*THIS_MONTH_END] and [>=\s*THIS_MONTH_START] *)
Definition re_month_end : re :=
  seq [word false (py "<="); star ws; word false (py "THIS_MONTH_END")].
Definition re_month_start : re :=
  seq [word false (py ">="); star ws; word false (py "THIS_MONTH_START")].

(** [<=\s*LAST_DAY\(TODAY(\(\))?\)] and [>=\s*FIRST_DAY\(TODAY(\(\))?\)] *)
Definition re_last_day : re :=
  seq [word false (py "<="); star ws; word false (py "LAST_DAY(TODAY");
       opt (Grp 1 (word false (py "()"))); chr false ")"].
Definition re_first_day : re :=
  seq [word false (py ">="); star ws; word false (py "FIRST_DAY(TODAY");
       opt (Grp 1 (word false (py "()"))); chr false ")"].

(** [pat_date1]: ['\d\d\d\d-\d{1,2}-\d{1,2}'] *)
Definition quote : ascii := "'".
Definition pat_date1 : re :=
  seq [chr false quote; Chr digit; Chr digit; Chr digit; Chr digit;
       chr false "-"; one_or_two digit; chr false "-"; one_or_two digit;
       chr false quote].

(** *** Exceptions *)

(** The one exception the function can raise on a string: a method of
    [None] is called when a scan that must match does not. *)
Inductive exn : Type := AttributeError.

Inductive result (A : Type) : Type :=
  | Ok (a : A)
  | Raise (e : exn).
Arguments Ok {A} a.
Arguments Raise {A} e.

Definition bind {A B : Type} (x : result A) (f : A -> result B) : result B :=
  match x with
  | Ok a => f a
  | Raise e => Raise e
  end.

Notation "x <- e1 ;; e2" := (bind e1 (fun x => e2))
  (at level 100, e1 at next level, right associativity).

(** Using a match object that may be [None]. *)
Definition expect {A : Type} (m : option A) : result A :=
  match m with
  | Some a => Ok a
  | None => Raise AttributeError
  end.

(** *** Part 1: the clauses of the statement *)

(** The values part 1 leaves to part 2. *)
Record clauses : Type := Clauses {
  c_fields : str;
  c_list_fields : list str;
  c_aggregate : bool;
  c_table : str;
  c_where : option str;
  c_groupby : option str;
  c_orderby : option str;
  c_limit : option str;      (* the digits of an explicit LIMIT *)
  c_rest : str               (* what is left of [sql] *)
}.

(** An optional clause: [kw] finds its keyword, [stop] its end.  Returns
    the clause, if present, and what is left of [sql]. *)
Definition clause (kw stop : re) (sql : str) : result (option str * str) :=
  match search kw sql with
  | Some m =>
      let sql := drop (m_end m) sql in
      m' <- expect (search stop sql) ;;
      e1 <- expect (m_gend m' 1) ;;
      Ok (Some (Py.strip (take e1 sql)), drop e1 sql)
  | None => Ok (None, sql)
  end.

Definition parse (sql : str) : result clauses :=
  (* SELECT *)
  m <- expect (search re_select sql) ;;
  let sql := drop (m_end m) sql in
  (* the field list *)
  m <- expect (search re_fields sql) ;;
  e1 <- expect (m_gend m 1) ;;
  let fields := Py.strip (take e1 sql) in
  let sql := drop e1 sql in
  let list_fields :=
    omap (fun m => m_group fields m 1) (finditer re_field fields) in
  let aggregate := bool_decide (is_Some (search re_aggregate fields)) in
  (* FROM *)
  m <- expect (search re_from sql) ;;
  table <- expect (m_group sql m 2) ;;
  let sql := drop (m_end m) sql in
  (* WHERE, GROUP BY, ORDER BY *)
  w <- clause re_where re_where_end sql ;;
  g <- clause re_groupby re_groupby_end (snd w) ;;
  o <- clause re_orderby re_orderby_end (snd g) ;;
  let where_ := fst w in
  let groupby := fst g in
  let orderby := fst o in
  let sql := snd o in
  (* LIMIT *)
  let limit :=
    match search re_limit sql with
    | Some m => m_group sql m 2
    | None => None
    end in
  Ok (Clauses fields list_fields aggregate table where_ groupby orderby limit sql).

(** The limit of the result: an explicit one, or the hard limit. *)
Definition resolve_limit (explicit : option str) (aggregate : bool)
    (hard_limit : Z) : option str :=
  match explicit with
  | Some n => Some n
  | None =>
      if negb aggregate && (0 <? hard_limit)%Z
      then Some (Py.str_of_int hard_limit) else None
  end.

(** *** Part 2: the heuristics *)

(** The list objects the heuristics work on.  [list_fields] names either
    the list built by part 1 or, after [SELECT *] on a known table, the very
    list object stored in [table2columns] under that table. *)
Inductive ref : Type :=
  | Own
  | Column (table : str).

Record state : Type := State {
  fields : str;                       (* the variable [fields] *)
  list_fields : ref;                  (* the variable [list_fields] *)
  own : list str;                     (* the list built by part 1 *)
  table2columns : gmap str (list str) (* the caller's dictionary *)
}.

(** [table2columns[table]], used where the key is known to be present. *)
Definition columns (table : str) (st : state) : list str :=
  default [] (table2columns st !! table).

Definition load (r : ref) (st : state) : list str :=
  match r with
  | Own => own st
  | Column table => columns table st
  end.

Definition store (r : ref) (l : list str) (st : state) : state :=
  match r with
  | Own => State (fields st) (list_fields st) l (table2columns st)
  | Column table =>
      State (fields st) (list_fields st) (own st) (<[table := l]> (table2columns st))
  end.

Definition set_fields (f : str) (st : state) : state :=
  State f (list_fields st) (own st) (table2columns st).

Definition set_list_fields (r : ref) (st : state) : state :=
  State (fields st) r (own st) (table2columns st).

(** [list_fields.append(x)] and [list_fields.remove(x)] *)
Definition lf_append (x : str) (st : state) : state :=
  store (list_fields st) (load (list_fields st) st ++ [x]) st.

Definition lf_remove (x : str) (st : state) : state :=
  store (list_fields st) (Py.remove x (load (list_fields st) st)) st.

(** [for x in <list object r>: body]: the iterator holds an index into the
    list object and reads it anew at every step, so that the body's edits of
    the list are seen.  [fuel] bounds the number of steps. *)
Fixpoint for_in (fuel : nat) (r : state -> ref) (body : str -> state -> state)
    (i : nat) (st : state) : state :=
  match fuel with
  | O => st
  | S fuel' =>
      match load (r st) st !! i with
      | Some x => for_in fuel' r body (S i) (body x st)
      | None => st
      end
  end.

(** SELECT * is not supported *)
Definition expand_star (table : str) (st : state) : state :=
  if Py.eqs (fields st) (py "*") then
    if bool_decide (is_Some (table2columns st !! table)) then
      set_list_fields (Column table)
        (set_fields (Py.join (py ", ") (columns table st)) st)
    else
      lf_append (py "Id") (set_fields (py "FIELDS(ALL)") st)
  else st.

(** SELECT count( * ) -> SELECT count() *)
Definition count_star (st : state) : state :=
  if Py.eqs (Py.lower (fields st)) (py "count(*)")
  then set_fields (py "count()") st else st.

(** Make sure 'Id' is in the list of fields *)
Definition force_id (aggregate add_id : bool) (st : state) : state :=
  if negb (Py.mem (py "Id") (load (list_fields st) st)) && negb aggregate && add_id
  then lf_append (py "Id") (set_fields (fields st ++ py ", Id") st)
  else st.

(** Add in any field that ends in Id *)
Definition add_key (f : str) (st : state) : state :=
  if Py.endswith f (py "Id") || Py.endswith f (py "Id__c") then
    if negb (Py.mem f (load (list_fields st) st))
    then lf_append f (set_fields (fields st ++ py ", " ++ f) st)
    else st
  else st.

Definition add_keys (aggregate add_id : bool) (table : str) (st : state) : state :=
  if negb aggregate && add_id && bool_decide (is_Some (table2columns st !! table))
  then for_in (length (columns table st)) (fun _ => Column table) add_key 0 st
  else st.

(** Remove any columns we don't know about *)
Definition prune_one (table : str) (c : str) (st : state) : state :=
  if negb (Py.has_char "(" c) then
    if negb (Py.mem c (columns table st)) then lf_remove c st else st
  else st.

Definition prune (table : str) (st : state) : state :=
  if bool_decide (is_Some (table2columns st !! table)) then
    let st := for_in (length (load (list_fields st) st)) list_fields
                (prune_one table) 0 st in
    set_fields (Py.join (py ", ") (load (list_fields st) st)) st
  else st.

(** Date pseudo-constants *)
Definition fix_constants (w : str) : str :=
  let w := Py.replace (py "TODAY()") (py "TODAY") w in
  let w := sub re_month_end (py "< NEXT_MONTH") w in
  let w := sub re_month_start (py "> LAST_MONTH") w in
  let w := sub re_last_day (py "< NEXT_MONTH") w in
  sub re_first_day (py "> LAST_MONTH") w.

(** One turn of the date loop: both quotes of the match are dropped. *)
Definition unquote_at (first last : nat) (w : str) : str :=
  let w := take (last - 1) w ++ drop last w in
  take first w ++ drop (first + 1) w.

(** Date literals: the loop runs while [pat_date1] is found. *)
Fixpoint unquote_dates (fuel : nat) (w : str) : str :=
  match fuel with
  | O => w
  | S fuel' =>
      match search pat_date1 w with
      | Some m => unquote_dates fuel' (unquote_at (m_start m) (m_end m) w)
      | None => w
      end
  end.

Definition fix_dates (w : str) : str := unquote_dates (length w) w.

Definition fix_where (w : str) : str := fix_dates (fix_constants w).

(** All of part 2 on the field list. *)
Definition fixup (aggregate add_id : bool) (table : str) (st : state) : state :=
  prune table
    (add_keys aggregate add_id table
       (force_id aggregate add_id
          (count_star (expand_star table st)))).

(** *** Part 3: the statement *)

Definition emit (kw : str) (v : option str) : str :=
  match v with
  | Some x => kw ++ x ++ py " "
  | None => []
  end.

Definition emit_limit (limit : option str) : str :=
  match limit with
  | Some n => py "LIMIT " ++ n
  | None => []
  end.

Definition assemble (fields table : str) (where_ groupby orderby limit : option str)
    : str :=
  let result := py "SELECT " ++ fields ++ py " " in
  let result := result ++ py "FROM " ++ table ++ py " " in
  let result := result ++ emit (py "WHERE ") where_ in
  let result := result ++ emit (py "GROUP BY ") groupby in
  let result := result ++ emit (py "ORDER BY ") orderby in
  result ++ emit_limit limit.

(** *** The function *)

(** What a call leaves behind: the tuple returned and the dictionary of the
    caller as the call left it. *)
Record outcome : Type := Outcome {
  statement : str;
  table_name : str;
  final_list : list str;                 (* [list_fields] at the end *)
  final_dict : gmap str (list str)
}.

Definition sql2soql (sql : str) (t2c : gmap str (list str)) (add_id : bool)
    (hard_limit : Z) : result outcome :=
  c <- parse sql ;;
  let limit := resolve_limit (c_limit c) (c_aggregate c) hard_limit in
  let st := fixup (c_aggregate c) add_id (c_table c)
              (State (c_fields c) Own (c_list_fields c) t2c) in
  let where_ := fix_where <$> c_where c in
  Ok (Outcome
        (assemble (fields st) (c_table c) where_ (c_groupby c) (c_orderby c) limit)
        (c_table c)
        (load (list_fields st) st)
        (table2columns st)).

End Sql2soql.

(** ** The notions the statements are about *)

Module Spec.
Import Re Sql2soql.

(** A keyword boundary: the keyword in any case, followed by white space. *)
Definition keyword_boundary (kw t : str) : Prop :=
  exists pre w c post,
    t = pre ++ w ++ c :: post /\ Py.lower w = Py.lower kw /\ Py.isspace c = true.

(** An explicit [LIMIT n] in a text: the keyword in any case, white space,
    and the digits [n]. *)
Definition explicit_limit (t n : str) : Prop :=
  exists pre w c ws post,
    t = pre ++ w ++ (c :: ws) ++ n ++ post
    /\ Py.lower w = py "limit"
    /\ Forall (fun c => Py.isspace c = true) (c :: ws)
    /\ n <> [] /\ Forall (fun c => Py.isdigit c = true) n.

(** The columns a wildcard on a known table ends with: those of the
    schema, and [Id] when it is forced and the schema has none. *)
Definition star_columns (add_id : bool) (cols : list str) : list str :=
  if add_id && negb (Py.mem (py "Id") cols) then cols ++ [py "Id"] else cols.

Definition star_dict (add_id : bool) (table : str) (cols : list str)
    (t2c : gmap str (list str)) : gmap str (list str) :=
  if add_id && negb (Py.mem (py "Id") cols)
  then <[table := cols ++ [py "Id"]]> t2c else t2c.

(** A key column: its name ends in [Id] or [Id__c]. *)
Definition is_key (f : str) : bool :=
  Py.endswith f (py "Id") || Py.endswith f (py "Id__c").

(** The body of an ISO date literal: [YYYY-MM-DD], with a month and a day
    of one or two digits. *)
Definition digits (t : str) : Prop := Forall (fun c => Py.isdigit c = true) t.

Definition date_body (d : str) : Prop :=
  exists y mo da,
    d = y ++ "-"%char :: mo ++ "-"%char :: da
    /\ digits y /\ length y = 4
    /\ digits mo /\ (length mo = 1 \/ length mo = 2)
    /\ digits da /\ (length da = 1 \/ length da = 2).

(** A single-quoted ISO date literal somewhere in a text. *)
Definition quoted_date (t : str) : Prop :=
  exists pre d post, t = pre ++ quote :: d ++ quote :: post /\ date_body d.

(** [b] is [a] with some of its quote characters deleted, and nothing
    else changed. *)
Inductive unquoted : str -> str -> Prop :=
  | unquoted_nil : unquoted [] []
  | unquoted_keep c a b : unquoted a b -> unquoted (c :: a) (c :: b)
  | unquoted_drop a b : unquoted a b -> unquoted (quote :: a) b.

(** The text without its quote characters. *)
Definition without_quotes (t : str) : str := filter (fun c => c <> quote) t.

(** The nearest character that is not a quote, before a place and after
    it, is not a digit. *)
Definition no_digit_before (pre : str) : Prop :=
  forall x, last (without_quotes pre) = Some x -> Py.isdigit x = false.

Definition no_digit_after (post : str) : Prop :=
  forall x, head (without_quotes post) = Some x -> Py.isdigit x = false.

(** What becomes of a literal ['d'] between [pre] and [post] while quotes
    are deleted around it: it keeps both quotes or has lost both. *)
Definition literal_kept (pre d post w : str) : Prop :=
  exists p s, unquoted pre p /\ unquoted post s /\ w = p ++ quote :: d ++ quote :: s.

Definition literal_bare (pre d post w : str) : Prop :=
  exists p s, unquoted pre p /\ unquoted post s /\ w = p ++ d ++ s.

(** A text a date constant is rewritten from: it has no quote, and starts
    with neither a digit nor a hyphen. *)
Definition constant_text (m : str) : Prop :=
  (quote ∉ m)
  /\ exists c m', m = c :: m' /\ Py.isdigit c = false /\ c <> "-"%char.

(** [b] is [a] with some constant texts replaced by [repl], and nothing
    else changed. *)
Inductive rewritten (repl : str) : str -> str -> Prop :=
  | rewritten_nil : rewritten repl [] []
  | rewritten_copy c a b :
      rewritten repl a b -> rewritten repl (c :: a) (c :: b)
  | rewritten_repl m a b :
      constant_text m -> rewritten repl a b ->
      rewritten repl (m ++ a) (repl ++ b).

(** [b] is [a] after the five rewritings of the date constants. *)
Definition constants_fixed (a b : str) : Prop :=
  exists a1 a2 a3 a4,
    rewritten (py "TODAY") a a1
    /\ rewritten (py "< NEXT_MONTH") a1 a2
    /\ rewritten (py "> LAST_MONTH") a2 a3
    /\ rewritten (py "< NEXT_MONTH") a3 a4
    /\ rewritten (py "> LAST_MONTH") a4 b.

(** The text has no white space at its end. *)
Definition tidy_end (t : str) : Prop :=
  forall x, last t = Some x -> Py.isspace x = false.

(** The statement without a LIMIT clause. *)
Definition no_limit_statement (fields table : str) (where_ groupby orderby : option str)
    : str :=
  assemble fields table where_ groupby orderby None.

End Spec.

(** ** Inputs used in the statements below *)

Module Scenario.
Import Sql2soql.

(** The projection of a result that did not raise. *)
Definition on_ok {A B : Type} (f : A -> B) (r : result A) : option B :=
  match r with
  | Ok a => Some (f a)
  | Raise _ => None
  end.

(** The schema of the source's own test: [{'Account': ['Id', 'a1', 'a2',
    'a3', 'OwnerId']}]. *)
Definition tables : gmap str (list str) :=
  {[ py "Account" := [py "Id"; py "a1"; py "a2"; py "a3"; py "OwnerId"] ]}.

(** The second statement of the source's test. *)
Definition max_query : str :=
  py "SELECT Max(a1) cmax FROM Account WHERE Name='Fred' Group BY firstname order by cmax DESC".

(** A schema without an [Id] column. *)
Definition no_id_schema : gmap str (list str) :=
  {[ py "T" := [py "a"; py "b"] ]}.

(** The third statement of the source's test and its schema. *)
Definition contact_columns : list str :=
  [py "Id"; py "c1"; py "c2"; py "c3"; py "OwnerId"; py "AccountId"].

Definition contacts : gmap str (list str) :=
  {[ py "Contact" := contact_columns ]}.

Definition limit_query : str :=
  py "SELECT * FROM Contact WHERE FirstName='Fred' and LastName='Smith' ORDER BY email DESC limit 20".

(** The first statement of the source's test. *)
Definition fields_query : str :=
  py "SELECT a1, a2 FROM Account WHERE Name='Fred' GROUP BY lastname ORDER BY firstname".

(** A statement with the letters of a keyword inside a string literal. *)
Definition string_limit_query : str :=
  py "SELECT a1 FROM Account WHERE Name = 'credit limit 5000' LIMIT 10".


(** A statement that ends after its WHERE keyword. *)
Definition open_where_query : str := py "SELECT a1 FROM Account WHERE ".

End Scenario.

(** ** The shapes of texts and patterns *)

Module Shape.
Import Re Sql2soql Spec.

(** White space and word characters. *)
Definition spaces (t : str) : Prop := Forall (fun c => Py.isspace c = true) t.

Definition word_chars (t : str) : Prop := Forall (fun c => Py.isword c = true) t.

(** A table name after FROM in a text: the keyword in any case, white
    space, and the name, made of word characters. *)
Definition table_after_from (t name : str) : Prop :=
  exists pre w c ws post,
    t = pre ++ w ++ (c :: ws) ++ name ++ post
    /\ Py.lower w = py "from"
    /\ spaces (c :: ws)
    /\ name <> [] /\ word_chars name.

(** The text has no white space at either end. *)
Definition trimmed (t : str) : Prop :=
  (forall x, head t = Some x -> Py.isspace x = false) /\ tidy_end t.

(** [t] stands in [s], between white space that was stripped. *)
Definition stripped_from (s t : str) : Prop :=
  exists pre a b post, s = pre ++ a ++ t ++ b ++ post /\ spaces a /\ spaces b.

(** The names that make a query aggregate, with their parenthesis. *)
Definition aggregate_names : list str :=
  [py "count("; py "avg("; py "count_distinct("; py "min("; py "max(";
   py "sum("].

Definition aggregate_call (t : str) : Prop :=
  exists pre u post, t = pre ++ u ++ post /\ Py.lower u ∈ aggregate_names.

(** The text of the last clause of a statement without LIMIT. *)
Definition last_text (table : str) (where_ groupby orderby : option str) : str :=
  match orderby, groupby, where_ with
  | Some x, _, _ => x
  | None, Some x, _ => x
  | None, None, Some x => x
  | None, None, None => table
  end.

(** The shape of the patterns that end a clause: [(.*?)(K1|...|Kn|$)]. *)
Definition clause_end (kws : list str) : re :=
  seq [Grp 1 (lazy_star dot); Grp 2 (alt (map (word true) kws ++ [Eos]))].

(** The shape of the patterns for FROM and LIMIT: [(KW\s+)(p+)\s*]. *)
Definition keyword_arg (kw : str) (p : ascii -> bool) : re :=
  seq [Grp 1 (Cat (word true kw) (plus ws)); Grp 2 (plus p); star ws].

(** The statement ends with one white-space character and no more. *)
Definition one_trailing_space (s : str) : Prop :=
  exists body x, s = body ++ [x; " "%char] /\ Py.isspace x = false.

(** An entry of the field list: [*], or a name of word characters and
    dots, which one text in parentheses may follow; that text runs to the
    first closing parenthesis and holds no newline. *)
Definition field_entry (x : str) : Prop :=
  x = py "*"
  \/ exists w p,
       x = w ++ p /\ w <> [] /\ Forall (fun c => field_char c = true) w
       /\ (p = []
           \/ exists mid,
                p = "("%char :: mid ++ [")"%char]
                /\ (")"%char ∉ mid) /\ ("010"%char ∉ mid)).

(** An entry that pruning removes: it has no parenthesis and the schema
    does not list it. *)
Definition unknown (cols : list str) (x : str) : bool :=
  negb (Py.has_char "(" x) && negb (Py.mem x cols).

(** No two entries in a row are unknown. *)
Fixpoint spaced (cols : list str) (l : list str) : Prop :=
  match l with
  | x :: (y :: _) as l' =>
      (unknown cols x = true -> unknown cols y = false) /\ spaced cols l'
  | _ => True
  end.

(** The columns the key rules add to a field list: [Id] and the key
    columns of the schema, in its order, that the list does not have. *)
Definition key_columns (cols : list str) : list str :=
  py "Id" :: filter (fun f => is_key f = true /\ f <> py "Id") cols.

Definition added_columns (aggregate add_id : bool) (l cols : list str)
    : list str :=
  if negb aggregate && add_id
  then filter (fun f => f ∉ l) (key_columns cols) else [].

(** One turn of the loop over the key columns, on the field list. *)
Definition add_key_to (l : list str) (f : str) : list str :=
  if is_key f && negb (Py.mem f l) then l ++ [f] else l.

(** [s in t] for two strings. *)
Fixpoint in_str (s t : str) : bool :=
  Py.startswith t s
  || match t with
     | [] => false
     | _ :: t' => in_str s t'
     end.



(** A rewriting is local when it works on each side of a run of
    characters it avoids. *)
Definition local_on (p : ascii -> bool) (f : str -> str) : Prop :=
  forall a x l b,
    Forall (fun c => p c = true) (x :: l) ->
    f (a ++ (x :: l) ++ b) = f a ++ (x :: l) ++ f b.

(** The comparisons with date constants that the date rules rewrite: the
    operator, the constant, and what both become. *)
Definition date_comparisons : list (str * str * str) :=
  [(py "<=", py "THIS_MONTH_END", py "< NEXT_MONTH");
   (py ">=", py "THIS_MONTH_START", py "> LAST_MONTH");
   (py "<=", py "LAST_DAY(TODAY)", py "< NEXT_MONTH");
   (py "<=", py "LAST_DAY(TODAY())", py "< NEXT_MONTH");
   (py ">=", py "FIRST_DAY(TODAY)", py "> LAST_MONTH");
   (py ">=", py "FIRST_DAY(TODAY())", py "> LAST_MONTH")].

(** The first character of a comparison that is rewritten. *)
Definition compare_start (c : ascii) : bool := Py.eqc c "<" || Py.eqc c ">".

(** A character of a text that holds no comparison, no call and no string
    literal. *)
Definition plain_char (c : ascii) : bool :=
  negb (compare_start c || Py.eqc c "(" || Py.eqc c quote).

(** Every match of the pattern starts with such a character. *)
Definition starts_compare (r : re) : Prop :=
  forall pos u rest caps caps',
    matches r pos u rest caps caps' ->
    exists c u', u = c :: u' /\ compare_start c = true.

(** What a match of each pattern is, as operator, spaces and the rest. *)
Definition compare_shape (r : re) (op : str) (fulls : list str) : Prop :=
  forall pos u rest caps caps',
    matches r pos u rest caps caps' ->
    exists sp full, u = op ++ sp ++ full /\ spaces sp /\ full ∈ fulls.

(** The two operators, a text that holds no start of a comparison, and a
    text that starts with a character that is not white space. *)
Definition operator (op : str) : Prop := op = py "<=" \/ op = py ">=".

Definition not_start (t : str) : Prop :=
  Forall (fun c => compare_start c = false) t.

Definition starts_plain (name : str) : Prop :=
  exists c b', name = c :: b' /\ Py.isspace c = false.

End Shape.

(** ** The caller: [salesforce.py] *)

(** The part of [SalesforceFunctions] around the translator: the trimming
    of prompts, and [do_query], which translates a query, sends it with
    retries and makes rows of the records received.  Logging is left out. *)

Module Salesforce.
Import Sql2soql.

(** *** [prompt_trim] *)

Definition newline : ascii := "010"%char.

(** [t.split(sep)] for a separator of one character. *)
Fixpoint split (sep : ascii) (t : str) : list str :=
  match t with
  | [] => [[]]
  | c :: t' =>
      if Py.eqc c sep then [] :: split sep t'
      else match split sep t' with
           | l :: ls => (c :: l) :: ls
           | [] => [[c]]
           end
  end.

Definition prompt_trim (prompt : str) : str :=
  let lines := split newline prompt in
  Py.join [newline] (map Py.strip lines).

(** *** The records of a reply *)

(** A value of a record: an [OrderedDict], or a value of another type. *)
#[local] Unset Elimination Schemes.
Inductive value (A : Type) : Type :=
  | Atom (a : A)
  | ODict (items : list (str * value A)).
#[local] Set Elimination Schemes.
Arguments Atom {A} a.
Arguments ODict {A} items.

(** A dictionary with string keys, as its items in insertion order. *)
Definition dict (V : Type) : Type := list (str * V).

(** [d[k] = v]: a key that is present keeps its place. *)
Fixpoint dict_set {V : Type} (k : str) (v : V) (d : dict V) : dict V :=
  match d with
  | [] => [(k, v)]
  | (k', v') :: d' =>
      if Py.eqs k k' then (k, v) :: d' else (k', v') :: dict_set k v d'
  end.

(** [d.get(k)] *)
Fixpoint dict_get {V : Type} (k : str) (d : dict V) : option V :=
  match d with
  | [] => None
  | (k', v') :: d' => if Py.eqs k k' then Some v' else dict_get k d'
  end.

Definition attributes : str := py "attributes".

Section Flatten.
Context {A : Type}.

(** The body of the loop over the keys of a nested dictionary. *)
Definition add_nested (k : str) (row : dict (value A)) (item : str * value A)
    : dict (value A) :=
  if negb (Py.eqs (fst item) attributes)
  then dict_set (k ++ py "." ++ fst item) (snd item) row
  else row.

(** The body of the loop over the keys of a record. *)
Definition add_field (row : dict (value A)) (item : str * value A)
    : dict (value A) :=
  if negb (Py.eqs (fst item) attributes) then
    match snd item with
    | ODict v => fold_left (add_nested (fst item)) v row
    | Atom _ => dict_set (fst item) (snd item) row
    end
  else row.

(** The row made of a record. *)
Definition flatten_record (r : dict (value A)) : dict (value A) :=
  fold_left add_field r [].

(** *** [do_query] *)

(** What [sf.query] does: it returns the records of a reply, or raises
    one of the two exceptions that are retried, or another one. *)
Inductive reply : Type :=
  | Records (records : list (dict (value A)))
  | Dropped          (* SalesforceExpiredSession, ConnectionResetError *)
  | Failed.          (* any other exception *)

(** The service: the reply to the [n]-th query sent, which may depend on
    its text, and whether the [n]-th reconnection succeeds. *)
Record service : Type := Service {
  replies : nat -> str -> reply;
  reconnects : nat -> bool
}.

Inductive failure : Type :=
  | TranslationFailed (e : exn)
  | QueryFailed
  | ReconnectFailed.

(** What a call leaves behind: the rows returned or the exception raised,
    the schema dictionary, and the numbers of queries sent and of
    reconnections tried. *)
Record run : Type := Run {
  returned : failure + list (dict (value A));
  schema : gmap str (list str);
  queries : nat;
  reconnections : nat
}.

(** The loop [while retries > 0], after [q] queries and [r] reconnections:
    the records received, if any, or the exception that ends the call. *)
Fixpoint query_loop (s : service) (soql : str) (retries q r : nat)
    : (failure + option (list (dict (value A)))) * nat * nat :=
  match retries with
  | O => (inr None, q, r)
  | S retries' =>
      match replies s q soql with
      | Records recs => (inr (Some recs), S q, r)
      | Dropped =>
          if reconnects s r then query_loop s soql retries' (S q) (S r)
          else (inl ReconnectFailed, S q, S r)
      | Failed => (inl QueryFailed, S q, r)
      end
  end.

(** [do_query].  [connected] says whether [self.sf] is set; when it is
    not, the connection is set before the loop. *)
Definition do_query (s : service) (connected : bool)
    (table2columns : gmap str (list str)) (row_limit : Z) (query : str) : run :=
  match sql2soql query table2columns true row_limit with
  | Raise e => Run (inl (TranslationFailed e)) table2columns 0 0
  | Ok o =>
      if negb connected && negb (reconnects s 0)
      then Run (inl ReconnectFailed) (final_dict o) 0 1
      else
        let '(recs, q, r) :=
          query_loop s (statement o) 3 0 (if connected then 0 else 1) in
        let result :=
          match recs with
          | inl e => inl e
          | inr (Some recs) => inr (map flatten_record recs)
          | inr None => inr []
          end in
        Run result (final_dict o) q r
  end.

(** The assignments to the row that a record gives rise to, in order. *)
Definition nested_entries (k : str) (v : dict (value A)) : dict (value A) :=
  omap (fun item =>
          if negb (Py.eqs (fst item) attributes)
          then Some (k ++ py "." ++ fst item, snd item) else None) v.

Definition field_entries (item : str * value A) : dict (value A) :=
  if negb (Py.eqs (fst item) attributes) then
    match snd item with
    | ODict v => nested_entries (fst item) v
    | Atom _ => [item]
    end
  else [].

Definition entries (r : dict (value A)) : dict (value A) :=
  concat (map field_entries r).

(** The part of a key before its first dot. *)
Fixpoint before_dot (k : str) : str :=
  match k with
  | [] => []
  | c :: k' => if Py.eqc c "." then [] else c :: before_dot k'
  end.

(** One assignment to a row. *)
Definition assign (row : dict (value A)) (e : str * value A) : dict (value A) :=
  dict_set (fst e) (snd e) row.

(** A record as the library gives it: its keys differ from each other and
    have no dot, and the keys of each nested dictionary differ from each
    other. *)
Definition well_formed (r : dict (value A)) : Prop :=
  NoDup (map fst r)
  /\ Forall (fun item => "."%char ∉ fst item) r
  /\ forall k v, (k, ODict v) ∈ r -> NoDup (map fst v).

(** The [j]-th query is answered by a dropped connection, and the
    connection is then set again, after [r0] reconnections before the
    loop. *)
Definition dropped (s : service) (soql : str) (r0 j : nat) : Prop :=
  replies s j soql = Dropped /\ reconnects s (r0 + j) = true.

End Flatten.

(** The schema set by [__init__]. *)
Definition table2columns : gmap str (list str) :=
  list_to_map
    [(py "Account",
      [py "AnnualRevenue"; py "Description"; py "Id"; py "Industry";
       py "Name"; py "NumberOfEmployees"; py "Ownership"; py "ParentId";
       py "Phone"; py "PrimaryContactId__c"; py "PrimaryContactId__r.Name";
       py "Sic"; py "SicDesc"; py "Site"; py "TickerSymbol"; py "Type";
       py "YearStarted"]);
     (py "Contact",
      [py "AccountId"; py "CreatedDate"; py "Department"; py "Description";
       py "FirstName"; py "LastName"; py "Id"; py "MobilePhone"; py "Name";
       py "Phone"; py "Salutation"; py "Title"; py "Email"]);
     (py "Opportunity",
      [py "AccountId"; py "Amount"; py "CloseDate"; py "Description";
       py "ExpectedRevenue"; py "ForecastCategoryName"; py "Id";
       py "IsClosed"; py "IsDeleted"; py "IsWon"; py "Name"; py "NextStep";
       py "OwnerId"; py "Owner.Name"; py "Probability"; py "StageName";
       py "TotalOpportunityQuantity"; py "Type"]);
     (py "OpportunityContactRole",
      [py "ContactId"; py "Id"; py "IsPrimary"; py "OpportunityId"; py "Role"]);
     (py "User",
      [py "CompanyName"; py "ContactId"; py "Email"; py "EmailEncodingKey";
       py "FirstName"; py "Id"; py "LastName"; py "MobilePhone"; py "Name";
       py "Phone"; py "Title"])].

Definition row_limit : Z := 5.

End Salesforce.

(** ** The log: [plog.py] *)

(** [Plog.print], which [do_query] calls through [Plog.info] and
    [Plog.error]: the lines it prints.  The wrapping of a line and the time
    of the call are taken as given. *)

Module Plog.
Import Salesforce.

Definition LEVELS : list str :=
  [py "None"; py "Error"; py "Warning"; py "Info"; py "Debug"].

(** [LEVELS[level]]: an index from the end when [level] is negative, and
    [None] for the [IndexError] out of range. *)
Definition level_name (level : Z) : option str :=
  if (0 <=? level)%Z then LEVELS !! Z.to_nat level
  else if (- Z.of_nat (length LEVELS) <=? level)%Z
       then LEVELS !! Z.to_nat (Z.of_nat (length LEVELS) + level)
       else None.

(** [expand(s, w)] *)
Definition expand (s : str) (w : nat) : str :=
  s ++ repeat " "%char (w - length s).

(** [max([len(s) for s in cls.LEVELS])] *)
Definition wid : nat := foldr Nat.max 0 (map length LEVELS).

Section Print.
(** [textwrap.wrap] and the text of the time of the call. *)
Variable wrap : str -> list str.
Variable now : str.

(** The loops of a long text: [first] and the lines printed so far. *)
Definition print_chunk (st : str * list str) (s : str) : str * list str :=
  (repeat " "%char (length (fst st)), snd st ++ [fst st ++ s]).

Definition print_line (st : str * list str) (line : str) : str * list str :=
  fold_left print_chunk (wrap line) st.

(** [Plog.print]: the lines printed, or [None] for an [IndexError]. *)
Definition print (debug_level : Z) (print_time : bool) (level : Z)
    (text : str) : option (list str) :=
  if (debug_level <? level)%Z then Some []
  else if length text =? 0 then Some [[]]
  else
    let dt := if print_time then py " (" ++ now ++ py ")" else [] in
    match level_name level with
    | None => None
    | Some name =>
        if length text <? 70
        then Some [expand name wid ++ dt ++ py ": " ++ text]
        else
          let first := expand name wid ++ dt ++ py ": " in
          let lines := split newline text in
          Some (snd (fold_left print_line lines (first, [])))
    end.

(** The pieces of a text, line by line. *)
Definition chunks (text : str) : list str :=
  concat (map wrap (split newline text)).

(** The lines printed for the pieces: the first under [first], the others
    under as many spaces. *)
Definition aligned (first : str) (pieces : list str) : list str :=
  match pieces with
  | [] => []
  | s :: rest =>
      (first ++ s) :: map (fun s => repeat " "%char (length first) ++ s) rest
  end.

End Print.

End Plog.

(** ** More inputs used in the statements below *)

Module Cases.
Import Sql2soql Scenario Salesforce.

(** The fourth statement of the source's test. *)
Definition date_query : str :=
  py "SELECT a1, a2, a3 FROM Account WHERE ModDate > '2023-01-01' GROUP BY industry ORDER BY revenue".

(** A count of the rows of a table. *)
Definition count_query : str := py "SELECT COUNT(*) FROM Account".

(** A query on a table that the schema of the test does not have. *)
Definition task_query : str := py "SELECT Subject s, Status FROM Task".

(** A query with a column that the schema of the test does not list. *)
Definition bogus_query : str := py "SELECT a1, bogus, a2 FROM Account".

(** A query on a table of the schema of [__init__]. *)
Definition name_query : str := py "SELECT Name FROM Account".

(** A record of a reply, with its nested owner. *)
Definition account_record : dict (value str) :=
  [(py "attributes", ODict [(py "type", Atom (py "Account"))]);
   (py "Name", Atom (py "Edge Communications"));
   (py "Owner",
    ODict [(py "attributes", ODict [(py "type", Atom (py "User"))]);
           (py "Name", Atom (py "Fred"))])].

(** A service whose connection drops once. *)
Definition drops_once : @service str :=
  Service (fun n _ => if n =? 0 then Dropped else Records [account_record])
    (fun _ => true).

(** A note of two lines, of more than seventy characters. *)
Definition long_note : str :=
  py "Query returned no records for the account that was asked about"
  ++ Salesforce.newline :: py "so the answer is empty".

(** A comparison with the last day of the month. *)
Definition last_day_query : str :=
  py "SELECT a1 FROM Account WHERE CloseDate <= LAST_DAY(TODAY())".

End Cases.

(** * Properties *)

(** ** The matcher *)

Module ReFacts.
Import Re.

Section Matcher.
Context {R : Type}.
Implicit Types (k : str -> nat -> captures -> option R).

(** Whatever the matcher finds is a match: the continuation was entered
    after a text the pattern matches. *)
Lemma rmatch_sound r : forall t pos caps k (x : R),
  rmatch r t pos caps k = Some x ->
  exists u rest caps',
    t = u ++ rest /\ matches r pos u rest caps caps'
    /\ k rest (pos + length u) caps' = Some x.
Proof.
  induction r as [ | p | r1 IH1 r2 IH2 | r1 IH1 r2 IH2 | g p | n r IH | ];
    intros t pos caps k x H; simpl in H.
  - exists [], t, caps. rewrite Nat.add_0_r. repeat split; [constructor | done].
  - destruct t as [ | c t']; [done | ].
    destruct (p c) eqn:Hp; [ | done].
    exists [c], t', caps. rewrite Nat.add_1_r.
    repeat split; [by constructor | done].
  - apply IH1 in H as (u1 & rest1 & caps1 & -> & M1 & H).
    apply IH2 in H as (u2 & rest & caps2 & -> & M2 & H).
    exists (u1 ++ u2), rest, caps2.
    rewrite length_app, Nat.add_assoc, <- app_assoc.
    repeat split; [by econstructor | done].
  - destruct (rmatch r1 t pos caps k) as [y | ] eqn:H1.
    + injection H as ->. apply IH1 in H1 as (u & rest & caps' & ? & ? & ?).
      exists u, rest, caps'. repeat split; [done | by apply M_alt_l | done].
    + apply IH2 in H as (u & rest & caps' & ? & ? & ?).
      exists u, rest, caps'. repeat split; [done | by apply M_alt_r | done].
  - assert (Hstar : exists u rest, t = u ++ rest
               /\ Forall (fun c => p c = true) u
               /\ k rest (pos + length u) caps = Some x).
    { destruct g.
      - revert pos H. induction t as [ | c t' IHt]; intros pos H.
        + exists [], []. rewrite Nat.add_0_r. by repeat split.
        + destruct (p c) eqn:Hp.
          * match type of H with
            | match ?e with _ => _ end = _ => destruct e as [y | ] eqn:Hmore
            end.
            -- injection H as ->. apply IHt in Hmore as (u & rest & -> & Hu & Hk).
               exists (c :: u), rest. simpl.
               rewrite <- Nat.add_succ_comm. by repeat split; [constructor | ].
            -- exists [], (c :: t'). rewrite Nat.add_0_r. by repeat split.
          * exists [], (c :: t'). rewrite Nat.add_0_r. by repeat split.
      - revert pos H. induction t as [ | c t' IHt]; intros pos H.
        + destruct (k [] pos caps) as [y | ] eqn:Hk; [ | done].
          injection H as ->. exists [], []. rewrite Nat.add_0_r. by repeat split.
        + destruct (k (c :: t') pos caps) as [y | ] eqn:Hk.
          * injection H as ->. exists [], (c :: t'). rewrite Nat.add_0_r.
            by repeat split.
          * destruct (p c) eqn:Hp; [ | done].
            apply IHt in H as (u & rest & -> & Hu & Hk').
            exists (c :: u), rest. simpl.
            rewrite <- Nat.add_succ_comm. by repeat split; [constructor | ]. }
    destruct Hstar as (u & rest & -> & Hu & Hk).
    exists u, rest, caps. repeat split; [by constructor | done].
  - apply IH in H as (u & rest & caps' & -> & M & H).
    exists u, rest, ((n, (pos, pos + length u)) :: caps').
    repeat split; [by constructor | done].
  - destruct (at_eos t) eqn:He; [ | done].
    exists [], t, caps. rewrite Nat.add_0_r. repeat split; [by constructor | done].
Qed.

(** Whatever can match is found, by some way to match: the matcher gives
    up only when no way to match lets the continuation succeed. *)
Lemma rmatch_complete r pos u rest caps caps' :
  matches r pos u rest caps caps' ->
  forall k caps0,
    (forall c, is_Some (k rest (pos + length u) c)) ->
    is_Some (rmatch r (u ++ rest) pos caps0 k).
Proof.
  induction 1 as [ pos rest caps | p c pos rest caps Hp
                 | r1 r2 pos u1 u2 rest caps caps1 caps2 _ IH1 _ IH2
                 | r1 r2 pos u rest caps caps' _ IH
                 | r1 r2 pos u rest caps caps' _ IH
                 | g p pos u rest caps Hu
                 | n r pos u rest caps caps' _ IH
                 | pos rest caps He ];
    intros k caps0 Hk; simpl.
  - rewrite Nat.add_0_r in Hk. apply Hk.
  - rewrite Hp. rewrite Nat.add_1_r in Hk. apply Hk.
  - rewrite <- app_assoc. apply IH1. intros c. apply IH2. intros c'.
    rewrite <- Nat.add_assoc, <- length_app. apply Hk.
  - destruct (rmatch r1 (u ++ rest) pos caps0 k) eqn:H1; [done | ].
    specialize (IH k caps0 Hk). rewrite H1 in IH. by destruct IH.
  - destruct (rmatch r1 (u ++ rest) pos caps0 k) eqn:H1; [done | ].
    by apply IH.
  - destruct g.
    + revert pos Hk. induction Hu as [ | c u Hp Hu IHu]; intros pos Hk.
      * simpl in *. rewrite Nat.add_0_r in Hk.
        destruct rest as [ | c rest']; [apply Hk | ].
        destruct (p c); [ | apply Hk].
        match goal with
        | |- is_Some (match ?e with _ => _ end) => destruct e
        end; [done | apply Hk].
      * simpl. rewrite Hp.
        specialize (IHu (S pos)). simpl in Hk.
        rewrite <- Nat.add_succ_comm in Hk. specialize (IHu Hk).
        destruct IHu as [y Hy]. simpl in Hy. by rewrite Hy.
    + revert pos Hk. induction Hu as [ | c u Hp Hu IHu]; intros pos Hk.
      * simpl in *. rewrite Nat.add_0_r in Hk.
        destruct (Hk caps0) as [y Hy].
        destruct rest; by rewrite Hy.
      * simpl. destruct (k (c :: u ++ rest) pos caps0); [done | ].
        rewrite Hp. apply IHu. simpl in Hk.
        by rewrite <- Nat.add_succ_comm in Hk.
  - apply IH. intros c. apply Hk.
  - rewrite He. rewrite Nat.add_0_r in Hk. apply Hk.
Qed.

End Matcher.

(** *** Inversion of [matches] *)

Lemma matches_eps_inv pos u rest caps caps' :
  matches Eps pos u rest caps caps' -> u = [] /\ caps' = caps.
Proof. by inversion 1. Qed.

Lemma matches_chr_inv p pos u rest caps caps' :
  matches (Chr p) pos u rest caps caps' ->
  exists c, u = [c] /\ p c = true /\ caps' = caps.
Proof. inversion 1; subst. eauto. Qed.

Lemma matches_cat_inv r1 r2 pos u rest caps caps' :
  matches (Cat r1 r2) pos u rest caps caps' ->
  exists u1 u2 caps1,
    u = u1 ++ u2 /\ matches r1 pos u1 (u2 ++ rest) caps caps1
    /\ matches r2 (pos + length u1) u2 rest caps1 caps'.
Proof. inversion 1; subst. eauto 10. Qed.

Lemma matches_alt_inv r1 r2 pos u rest caps caps' :
  matches (Alt r1 r2) pos u rest caps caps' ->
  matches r1 pos u rest caps caps' \/ matches r2 pos u rest caps caps'.
Proof. inversion 1; subst; eauto. Qed.

Lemma matches_star_inv g p pos u rest caps caps' :
  matches (Star g p) pos u rest caps caps' ->
  Forall (fun c => p c = true) u /\ caps' = caps.
Proof. by inversion 1. Qed.

Lemma matches_grp_inv n r pos u rest caps caps' :
  matches (Grp n r) pos u rest caps caps' ->
  exists caps1,
    caps' = (n, (pos, pos + length u)) :: caps1
    /\ matches r pos u rest caps caps1.
Proof. inversion 1; subst. eauto. Qed.

Lemma matches_eos_inv pos u rest caps caps' :
  matches Eos pos u rest caps caps' ->
  u = [] /\ at_eos rest = true /\ caps' = caps.
Proof. by inversion 1. Qed.

Lemma matches_plus_inv p pos u rest caps caps' :
  matches (plus p) pos u rest caps caps' ->
  exists c u', u = c :: u' /\ p c = true
    /\ Forall (fun c => p c = true) u' /\ caps' = caps.
Proof.
  intros (u1 & u2 & caps1 & -> & H1 & H2)%matches_cat_inv.
  apply matches_chr_inv in H1 as (c & -> & Hc & ->).
  apply matches_star_inv in H2 as [Hu ->]. by exists c, u2.
Qed.

(** The text matched by a literal word. *)
Definition same_word (ic : bool) (u w : str) : Prop :=
  if ic then Py.lower u = Py.lower w else u = w.

Lemma matches_word_inv ic w : forall pos u rest caps caps',
  matches (word ic w) pos u rest caps caps' ->
  same_word ic u w /\ caps' = caps.
Proof.
  induction w as [ | c w IH]; intros pos u rest caps caps' H; simpl in H.
  - apply matches_eps_inv in H as [-> ->]. by destruct ic.
  - apply matches_cat_inv in H as (u1 & u2 & caps1 & -> & H1 & H2).
    apply IH in H2 as [Hw ->]. unfold chr in H1.
    destruct ic; apply matches_chr_inv in H1 as (x & -> & Hx & ->);
      apply bool_decide_eq_true_1 in Hx; split; try done; unfold same_word in *;
      simpl; congruence.
Qed.

Lemma matches_word ic w pos rest caps u :
  same_word ic u w -> matches (word ic w) pos u rest caps caps.
Proof.
  revert pos u. induction w as [ | c w IH]; intros pos u Hu; simpl.
  - assert (u = []) as ->; [ | constructor].
    destruct ic; simpl in Hu; [by destruct u | done].
  - assert (exists x u', u = x :: u' /\ same_word ic u' w
              /\ matches (chr ic c) pos [x] (u' ++ rest) caps caps)
      as (x & u' & -> & Hu' & Hx).
    { unfold chr. destruct ic; simpl in Hu.
      - destruct u as [ | x u']; [done | ]. injection Hu as Hx Hu'.
        exists x, u'. repeat split; [done | ].
        constructor. by apply bool_decide_eq_true_2.
      - subst u. exists c, w. repeat split.
        constructor. by apply bool_decide_eq_true_2. }
    apply (M_cat _ _ pos [x] u' rest caps caps caps); [done | by apply IH].
Qed.

Lemma matches_plus p pos rest caps c u :
  p c = true -> Forall (fun c => p c = true) u ->
  matches (plus p) pos (c :: u) rest caps caps.
Proof.
  intros Hc Hu. apply (M_cat _ _ pos [c] u rest caps caps caps);
    by constructor.
Qed.

(** One given character, and one or two characters of a class. *)
Lemma matches_lit_inv c pos u rest caps caps' :
  matches (chr false c) pos u rest caps caps' -> u = [c] /\ caps' = caps.
Proof.
  intros (x & -> & Hx & ->)%matches_chr_inv.
  apply bool_decide_eq_true_1 in Hx. by subst.
Qed.

Lemma matches_lit c pos rest caps :
  matches (chr false c) pos [c] rest caps caps.
Proof. constructor. by apply bool_decide_eq_true_2. Qed.

Lemma matches_one_or_two_inv p pos u rest caps caps' :
  matches (one_or_two p) pos u rest caps caps' ->
  Forall (fun c => p c = true) u /\ (length u = 1 \/ length u = 2)
  /\ caps' = caps.
Proof.
  intros (u1 & u2 & caps1 & -> & H1 & H2)%matches_cat_inv.
  apply matches_chr_inv in H1 as (c & -> & Hc & ->).
  apply matches_alt_inv in H2 as [H2 | H2].
  - apply matches_chr_inv in H2 as (c' & -> & Hc' & ->).
    repeat split; [by repeat constructor | by right].
  - apply matches_eps_inv in H2 as [-> ->].
    repeat split; [by repeat constructor | by left].
Qed.

Lemma matches_one_or_two p pos u rest caps :
  Forall (fun c => p c = true) u -> length u = 1 \/ length u = 2 ->
  matches (one_or_two p) pos u rest caps caps.
Proof.
  intros Hu Hl. destruct u as [ | c [ | c' [ | ? ?]]]; simpl in Hl; try lia.
  - apply Forall_cons in Hu as [Hc _].
    apply (M_cat _ _ pos [c] [] rest caps caps caps); [by constructor | ].
    apply M_alt_r. constructor.
  - apply Forall_cons in Hu as [Hc [Hc' _]%Forall_cons].
    apply (M_cat _ _ pos [c] [c'] rest caps caps caps); [by constructor | ].
    apply M_alt_l. by constructor.
Qed.

(** *** Attempts and searches *)

Lemma match_at_sound r t off m :
  match_at r t off = Some m ->
  exists u rest,
    t = u ++ rest /\ matches r off u rest [] (m_caps m)
    /\ m_start m = off /\ m_end m = off + length u.
Proof.
  unfold match_at. intros (u & rest & caps' & -> & M & H)%rmatch_sound.
  injection H as <-. by exists u, rest.
Qed.

Lemma match_at_complete r off u rest caps' :
  matches r off u rest [] caps' -> is_Some (match_at r (u ++ rest) off).
Proof. intros M. by eapply rmatch_complete. Qed.

Lemma search_from_sound r : forall t off m,
  search_from r t off = Some m ->
  exists a t', t = a ++ t' /\ match_at r t' (off + length a) = Some m.
Proof.
  induction t as [ | c t IH]; intros off m H; simpl in H.
  - destruct (match_at r [] off) eqn:Hm; [ | done].
    exists [], []. by rewrite Nat.add_0_r, Hm.
  - destruct (match_at r (c :: t) off) eqn:Hm.
    + exists [], (c :: t). by rewrite Nat.add_0_r, Hm.
    + apply IH in H as (a & t' & -> & H). exists (c :: a), t'.
      simpl. by rewrite <- Nat.add_succ_comm.
Qed.

Lemma search_from_complete r a : forall t' off,
  is_Some (match_at r t' (off + length a)) ->
  is_Some (search_from r (a ++ t') off).
Proof.
  induction a as [ | c a IH]; intros t' off H; simpl in *.
  - rewrite Nat.add_0_r in H. destruct t'; simpl; by destruct H as [? ->].
  - destruct (match_at r (c :: a ++ t') off); [done | ].
    apply IH. by rewrite Nat.add_succ_comm.
Qed.

(** A search that finds something finds a match of the pattern, and a
    string that holds a match is never searched in vain. *)
Lemma search_sound r t m :
  search r t = Some m ->
  exists a u rest,
    t = a ++ u ++ rest /\ matches r (length a) u rest [] (m_caps m)
    /\ m_start m = length a /\ m_end m = length a + length u.
Proof.
  intros (a & t' & -> & H)%search_from_sound.
  apply match_at_sound in H as (u & rest & -> & ? & ? & ?).
  by exists a, u, rest.
Qed.

Lemma search_complete r a u rest caps' :
  matches r (length a) u rest [] caps' -> is_Some (search r (a ++ u ++ rest)).
Proof.
  intros M. apply search_from_complete. by eapply match_at_complete.
Qed.

Lemma search_bounds r t m :
  search r t = Some m -> m_start m <= m_end m <= length t.
Proof.
  intros (a & u & rest & -> & _ & -> & ->)%search_sound.
  rewrite !length_app. lia.
Qed.

End ReFacts.

(** ** Part 1: the scans *)

Module ParseFacts.
Import Re ReFacts Sql2soql Spec.

(** Takes apart every hypothesis that a pattern of the source matches. *)
Ltac inv_matches :=
  repeat match goal with
  | H : matches (seq _) _ _ _ _ _ |- _ => cbn [seq] in H
  | H : matches (alt _) _ _ _ _ _ |- _ => cbn [alt] in H
  | H : matches (Cat _ _) _ _ _ _ _ |- _ =>
      apply matches_cat_inv in H as (? & ? & ? & ? & ? & ?)
  | H : matches Eps _ _ _ _ _ |- _ => apply matches_eps_inv in H as [? ?]
  | H : matches (word _ _) _ _ _ _ _ |- _ =>
      apply matches_word_inv in H as [? ?]
  | H : matches (plus _) _ _ _ _ _ |- _ =>
      apply matches_plus_inv in H as (? & ? & ? & ? & ? & ?)
  | H : matches (star _) _ _ _ _ _ |- _ => apply matches_star_inv in H as [? ?]
  | H : matches (lazy_star _) _ _ _ _ _ |- _ =>
      apply matches_star_inv in H as [? ?]
  | H : matches (Star _ _) _ _ _ _ _ |- _ => apply matches_star_inv in H as [? ?]
  | H : matches (Grp _ _) _ _ _ _ _ |- _ =>
      apply matches_grp_inv in H as (? & ? & ?)
  | H : matches (Chr _) _ _ _ _ _ |- _ =>
      apply matches_chr_inv in H as (? & ? & ? & ?)
  | H : matches Eos _ _ _ _ _ |- _ => apply matches_eos_inv in H as (? & ? & ?)
  end.

(** A scan for a keyword finds a keyword boundary, and finds one whenever
    there is one. *)
Lemma search_keyword_sound kw t m :
  search (seq [word true kw; plus ws]) t = Some m -> keyword_boundary kw t.
Proof.
  intros (a & u & rest & -> & M & _)%search_sound. inv_matches. subst.
  match goal with
  | H : same_word true ?w kw, Hc : ws ?c = true |- _ =>
      exists a, w, c; eexists; repeat split; [ | exact H | exact Hc]
  end.
  by rewrite <- !app_assoc.
Qed.

Lemma search_keyword_complete kw t :
  keyword_boundary kw t -> is_Some (search (seq [word true kw; plus ws]) t).
Proof.
  intros (pre & w & c & post & -> & Hw & Hc).
  replace (pre ++ w ++ c :: post) with (pre ++ (w ++ [c] ++ []) ++ post)
    by (by rewrite <- !app_assoc).
  eapply search_complete. cbn [seq].
  eapply M_cat; [by apply matches_word | ].
  eapply (M_cat _ _ _ [c] []); [ | constructor].
  by apply matches_plus.
Qed.

Lemma search_select_sound t m :
  search re_select t = Some m -> keyword_boundary (py "select") t.
Proof. apply search_keyword_sound. Qed.

Lemma search_fields_sound t m :
  search re_fields t = Some m -> keyword_boundary (py "from") t.
Proof.
  intros (a & u & rest & -> & M & _)%search_sound.
  unfold re_fields in M. inv_matches. subst.
  match goal with
  | H : same_word true ?w _, Hc : ws ?c = true
    |- keyword_boundary _ (a ++ (?g ++ _) ++ _) =>
      exists (a ++ g), w, c; eexists; repeat split; [ | exact H | exact Hc]
  end.
  by rewrite <- !app_assoc.
Qed.

(** A keyword boundary of a suffix is one of the whole text. *)
Lemma keyword_boundary_drop kw n t :
  keyword_boundary kw (drop n t) -> keyword_boundary kw t.
Proof.
  intros (pre & w & c & post & E & Hw & Hc).
  exists (take n t ++ pre), w, c, post. repeat split; [ | done..].
  by rewrite <- (take_drop n t) at 1; rewrite E, <- app_assoc.
Qed.

(** Slices at the ends of a known middle part. *)
Lemma slice_middle (x y z : str) :
  Py.slice (x ++ y ++ z) (length x) (length x + length y) = y.
Proof.
  unfold Py.slice. rewrite drop_app_length.
  replace (length x + length y - length x) with (length y) by lia.
  by rewrite take_app_length.
Qed.

(** The scan for LIMIT finds an explicit limit and gives its digits. *)
Lemma search_limit_sound t m :
  search re_limit t = Some m ->
  exists n, m_group t m 2 = Some n /\ explicit_limit t n.
Proof.
  intros (a & u & rest & -> & M & _)%search_sound.
  destruct m as [st en caps]. unfold m_group. simpl in *.
  unfold re_limit in M. cbn [seq] in M.
  apply matches_cat_inv in M as (u1 & u' & caps1 & -> & M1 & M).
  apply matches_grp_inv in M1 as (caps1' & -> & M1).
  apply matches_cat_inv in M1 as (w & sp & c1 & -> & Mw & Msp).
  apply matches_word_inv in Mw as [Hw ->].
  apply matches_plus_inv in Msp as (c & sp' & -> & Hc & Hsp & ->).
  apply matches_cat_inv in M as (n & u'' & caps2 & -> & M2 & M).
  apply matches_grp_inv in M2 as (caps2' & -> & M2).
  apply matches_plus_inv in M2 as (d & ds & -> & Hd & Hds & ->).
  apply matches_cat_inv in M as (tr & e & caps3 & -> & M3 & M).
  apply matches_star_inv in M3 as [Htr ->].
  apply matches_eps_inv in M as [-> ->].
  exists (d :: ds). simpl. split.
  - f_equal. rewrite <- (length_app a).
    replace (a ++ ((w ++ c :: sp') ++ d :: ds ++ tr ++ []) ++ rest)
      with ((a ++ w ++ c :: sp') ++ (d :: ds) ++ tr ++ rest)
      by (by rewrite <- !app_assoc; simpl; rewrite <- !app_assoc).
    apply (slice_middle (a ++ w ++ c :: sp') (d :: ds)).
  - exists a, w, c, sp', (tr ++ rest). repeat split; try done.
    + by rewrite <- !app_assoc; simpl; rewrite <- !app_assoc.
    + by constructor.
    + by constructor.
Qed.

Lemma search_limit_complete t n :
  explicit_limit t n -> is_Some (search re_limit t).
Proof.
  intros (pre & w & c & sp & post & -> & Hw & Hsp & Hn & Hd).
  destruct n as [ | d ds]; [done | ].
  apply Forall_cons in Hsp as [Hc Hsp]. apply Forall_cons in Hd as [Hd Hds].
  replace (pre ++ w ++ (c :: sp) ++ (d :: ds) ++ post)
    with (pre ++ ((w ++ c :: sp) ++ (d :: ds) ++ [] ++ []) ++ post)
    by (by rewrite <- !app_assoc).
  eapply search_complete. unfold re_limit. cbn [seq].
  eapply M_cat.
  { constructor. eapply M_cat; [by apply matches_word | by apply matches_plus]. }
  eapply M_cat; [constructor; by apply matches_plus | ].
  eapply (M_cat _ _ _ [] []); constructor. constructor.
Qed.

(** What a successful [parse] went through. *)
Lemma parse_inv sql c :
  parse sql = Ok c ->
  exists m1 m2 e1 m3 w g o,
    search re_select sql = Some m1
    /\ search re_fields (drop (m_end m1) sql) = Some m2
    /\ m_gend m2 1 = Some e1
    /\ c_fields c = Py.strip (take e1 (drop (m_end m1) sql))
    /\ c_list_fields c
       = omap (fun m => m_group (c_fields c) m 1) (finditer re_field (c_fields c))
    /\ c_aggregate c = bool_decide (is_Some (search re_aggregate (c_fields c)))
    /\ search re_from (drop e1 (drop (m_end m1) sql)) = Some m3
    /\ m_group (drop e1 (drop (m_end m1) sql)) m3 2 = Some (c_table c)
    /\ clause re_where re_where_end
         (drop (m_end m3) (drop e1 (drop (m_end m1) sql))) = Ok w
    /\ clause re_groupby re_groupby_end (snd w) = Ok g
    /\ clause re_orderby re_orderby_end (snd g) = Ok o
    /\ c_where c = fst w /\ c_groupby c = fst g /\ c_orderby c = fst o
    /\ c_rest c = snd o
    /\ c_limit c = match search re_limit (snd o) with
                   | Some m => m_group (snd o) m 2
                   | None => None
                   end.
Proof.
  unfold parse. intros H.
  destruct (search re_select sql) as [m1 | ] eqn:H1; [ | done].
  cbn [bind expect] in H.
  destruct (search re_fields _) as [m2 | ] eqn:H2; [ | done].
  cbn [bind expect] in H.
  destruct (m_gend m2 1) as [e1 | ] eqn:H3; [ | done]. cbn [bind expect] in H.
  destruct (search re_from _) as [m3 | ] eqn:H4; [ | done].
  cbn [bind expect] in H.
  destruct (m_group _ m3 2) as [table | ] eqn:Ht; [ | done].
  cbn [bind expect] in H.
  destruct (clause re_where _ _) as [w | ] eqn:Hw; [ | done]. cbn [bind] in H.
  destruct (clause re_groupby _ _) as [g | ] eqn:Hg; [ | done]. cbn [bind] in H.
  destruct (clause re_orderby _ _) as [o | ] eqn:Ho; [ | done]. cbn [bind] in H.
  injection H as <-. exists m1, m2, e1, m3, w, g, o. by repeat split.
Qed.

(** What is left after an optional clause is a suffix of what was there. *)
Lemma clause_rest kw stop sql p :
  clause kw stop sql = Ok p -> exists n, snd p = drop n sql.
Proof.
  unfold clause. destruct (search kw sql) as [m | ].
  - destruct (search stop _) as [m' | ]; [ | done]. cbn [bind expect].
    destruct (m_gend m' 1) as [e1 | ]; [ | done]. cbn [bind expect].
    intros [= <-]. exists (m_end m + e1). simpl. by rewrite drop_drop.
  - intros [= <-]. by exists 0.
Qed.

(** The text part 1 leaves for the LIMIT scan is a suffix of the input. *)
Lemma parse_rest sql c :
  parse sql = Ok c -> exists n, c_rest c = drop n sql.
Proof.
  intros (m1 & m2 & e1 & m3 & w & g & o & _ & _ & _ & _ & _ & _ & _ & _
          & Hw & Hg & Ho & _ & _ & _ & -> & _)%parse_inv.
  apply clause_rest in Hw as [nw Hw], Hg as [ng Hg], Ho as [no Ho].
  rewrite Ho, Hg, Hw, !drop_drop. eauto.
Qed.

(** The explicit limit part 1 extracts is in the text it scans, and none is
    extracted only when there is none. *)
Lemma parse_limit sql c :
  parse sql = Ok c ->
  match c_limit c with
  | Some n => explicit_limit (c_rest c) n
  | None => forall n, ~ explicit_limit (c_rest c) n
  end.
Proof.
  intros (m1 & m2 & e1 & m3 & w & g & o & _ & _ & _ & _ & _ & _ & _ & _
          & _ & _ & _ & _ & _ & _ & -> & ->)%parse_inv.
  destruct (search re_limit (snd o)) as [m | ] eqn:Hs.
  - apply search_limit_sound in Hs as (n & -> & Hn). done.
  - intros n [m Hm]%search_limit_complete. congruence.
Qed.

End ParseFacts.

(** ** The date literals of the WHERE clause *)

Module DateFacts.
Import Re ReFacts Sql2soql Spec.

Implicit Types (w d pre post : str).

(** What [pat_date1] matches is a quoted date body, and the other way
    round. *)
Lemma pat_date1_inv pos u rest caps caps' :
  matches pat_date1 pos u rest caps caps' ->
  exists d, u = quote :: d ++ [quote] /\ date_body d.
Proof.
  unfold pat_date1. cbn [seq]. intros M.
  apply matches_cat_inv in M as (q1 & u1 & c1 & -> & Mq1 & M).
  apply matches_cat_inv in M as (y1 & u2 & c2 & -> & My1 & M).
  apply matches_cat_inv in M as (y2 & u3 & c3 & -> & My2 & M).
  apply matches_cat_inv in M as (y3 & u4 & c4 & -> & My3 & M).
  apply matches_cat_inv in M as (y4 & u5 & c5 & -> & My4 & M).
  apply matches_cat_inv in M as (h1 & u6 & c6 & -> & Mh1 & M).
  apply matches_cat_inv in M as (mo & u7 & c7 & -> & Mmo & M).
  apply matches_cat_inv in M as (h2 & u8 & c8 & -> & Mh2 & M).
  apply matches_cat_inv in M as (da & u9 & c9 & -> & Mda & M).
  apply matches_cat_inv in M as (q2 & u10 & c10 & -> & Mq2 & M).
  apply matches_eps_inv in M as [-> _].
  apply matches_lit_inv in Mq1 as [-> _], Mh1 as [-> _], Mh2 as [-> _],
    Mq2 as [-> _].
  apply matches_chr_inv in My1 as (a1 & -> & Ha1 & _).
  apply matches_chr_inv in My2 as (a2 & -> & Ha2 & _).
  apply matches_chr_inv in My3 as (a3 & -> & Ha3 & _).
  apply matches_chr_inv in My4 as (a4 & -> & Ha4 & _).
  apply matches_one_or_two_inv in Mmo as (Hmo & Lmo & _).
  apply matches_one_or_two_inv in Mda as (Hda & Lda & _).
  exists ([a1; a2; a3; a4] ++ "-"%char :: mo ++ "-"%char :: da). split.
  - simpl. by rewrite <- !app_assoc.
  - exists [a1; a2; a3; a4], mo, da. repeat split; try done.
    by repeat constructor.
Qed.

Lemma pat_date1_intro d pos rest caps :
  date_body d -> matches pat_date1 pos (quote :: d ++ [quote]) rest caps caps.
Proof.
  intros (y & mo & da & -> & Hy & Ly & Hmo & Lmo & Hda & Lda).
  destruct y as [ | a1 [ | a2 [ | a3 [ | a4 [ | ? ?]]]]]; simpl in Ly; try lia.
  apply Forall_cons in Hy as [Ha1 Hy]. apply Forall_cons in Hy as [Ha2 Hy].
  apply Forall_cons in Hy as [Ha3 Hy]. apply Forall_cons in Hy as [Ha4 _].
  replace (quote :: ([a1; a2; a3; a4] ++ "-"%char :: mo ++ "-"%char :: da) ++ [quote])
    with ([quote] ++ [a1] ++ [a2] ++ [a3] ++ [a4] ++ ["-"%char] ++ mo
          ++ ["-"%char] ++ da ++ [quote] ++ [])
    by (simpl; by rewrite <- !app_assoc).
  unfold pat_date1. cbn [seq].
  eapply M_cat; [apply matches_lit | ].
  eapply M_cat; [by constructor | ]. eapply M_cat; [by constructor | ].
  eapply M_cat; [by constructor | ]. eapply M_cat; [by constructor | ].
  eapply M_cat; [apply matches_lit | ].
  eapply M_cat; [by apply matches_one_or_two | ].
  eapply M_cat; [apply matches_lit | ].
  eapply M_cat; [by apply matches_one_or_two | ].
  eapply M_cat; [apply matches_lit | constructor].
Qed.

(** The scan of the date loop finds a quoted date literal, and finds one
    whenever there is one. *)
Lemma search_date_sound w m :
  search pat_date1 w = Some m ->
  exists pre d post,
    w = pre ++ quote :: d ++ quote :: post /\ date_body d
    /\ m_start m = length pre /\ m_end m = length pre + length d + 2.
Proof.
  intros (a & u & rest & -> & M & -> & ->)%search_sound.
  apply pat_date1_inv in M as (d & -> & Hd).
  exists a, d, rest. repeat split; [ | done | ].
  - simpl. by rewrite <- app_assoc.
  - simpl. rewrite length_app. simpl. lia.
Qed.

Lemma search_date_complete w :
  quoted_date w -> is_Some (search pat_date1 w).
Proof.
  intros (pre & d & post & -> & Hd).
  replace (pre ++ quote :: d ++ quote :: post)
    with (pre ++ (quote :: d ++ [quote]) ++ post)
    by (simpl; by rewrite <- app_assoc).
  eapply search_complete. by apply pat_date1_intro.
Qed.

Lemma search_date_none w :
  search pat_date1 w = None <-> ~ quoted_date w.
Proof.
  split.
  - intros Hn [m Hm]%search_date_complete. congruence.
  - intros Hq. destruct (search pat_date1 w) as [m | ] eqn:Hs; [ | done].
    exfalso. apply Hq.
    apply search_date_sound in Hs as (pre & d & post & -> & Hd & _).
    by exists pre, d, post.
Qed.

(** One turn of the loop takes the two quotes of the literal away. *)
Lemma unquote_at_literal pre d post :
  unquote_at (length pre) (length pre + length d + 2)
    (pre ++ quote :: d ++ quote :: post)
  = pre ++ d ++ post.
Proof.
  unfold unquote_at.
  replace (length pre + length d + 2 - 1) with (length (pre ++ quote :: d))
    by (rewrite length_app; simpl; lia).
  replace (length pre + length d + 2)
    with (length ((pre ++ quote :: d) ++ [quote]))
    by (rewrite !length_app; simpl; lia).
  replace (pre ++ quote :: d ++ quote :: post)
    with ((pre ++ quote :: d) ++ quote :: post)
    by (by rewrite <- app_assoc).
  rewrite take_app_length.
  replace ((pre ++ quote :: d) ++ quote :: post)
    with (((pre ++ quote :: d) ++ [quote]) ++ post)
    by (by rewrite <- !app_assoc).
  rewrite drop_app_length.
  rewrite <- !app_assoc. rewrite take_app_length.
  replace (pre ++ (quote :: d) ++ post) with ((pre ++ [quote]) ++ d ++ post)
    by (by rewrite <- !app_assoc).
  replace (length pre + 1) with (length (pre ++ [quote]))
    by (rewrite length_app; simpl; lia).
  by rewrite drop_app_length.
Qed.

(** *** Date bodies *)

Lemma digits_no_quote t : digits t -> quote ∉ t.
Proof.
  intros Ht Hq. eapply Forall_forall in Ht; [ | exact Hq]. done.
Qed.

Lemma date_body_no_quote d : date_body d -> quote ∉ d.
Proof.
  intros (y & mo & da & -> & Hy & _ & Hmo & _ & Hda & _).
  rewrite elem_of_app, elem_of_cons, elem_of_app, elem_of_cons.
  intros [H | [H | [H | [H | H]]]]; try done;
    by eapply digits_no_quote in H.
Qed.

Lemma date_body_head d :
  date_body d -> exists x d', d = x :: d' /\ Py.isdigit x = true.
Proof.
  intros (y & mo & da & -> & Hy & Ly & _).
  destruct y as [ | x y]; [done | ].
  apply Forall_cons in Hy as [Hx _]. by exists x, (y ++ "-"%char :: mo ++ "-"%char :: da).
Qed.

Lemma date_body_last d :
  date_body d -> exists d' x, d = d' ++ [x] /\ Py.isdigit x = true.
Proof.
  intros (y & mo & da & -> & _ & _ & _ & _ & Hda & Lda).
  destruct (last da) as [x | ] eqn:Hl;
    [ | apply last_None in Hl as ->; simpl in Lda; lia].
  apply last_Some in Hl as [da' ->].
  apply Forall_app in Hda as [_ [Hx _]%Forall_cons].
  exists (y ++ "-"%char :: mo ++ "-"%char :: da'), x.
  split; [ | done]. rewrite <- !app_assoc. simpl. by rewrite <- !app_assoc.
Qed.

(** *** Deleting quotes *)

Lemma unquoted_refl a : unquoted a a.
Proof. induction a; by constructor. Qed.

Lemma unquoted_app a a' b b' :
  unquoted a a' -> unquoted b b' -> unquoted (a ++ b) (a' ++ b').
Proof. induction 1; simpl; intros; by try constructor; auto. Qed.

Lemma unquoted_trans a b c : unquoted a b -> unquoted b c -> unquoted a c.
Proof.
  intros Hab. revert c. induction Hab as [ | x a b Hab IH | a b Hab IH]; intros c Hbc.
  - done.
  - remember (x :: b) as xb eqn:E. revert a b Hab IH E.
    induction Hbc as [ | y b' c' Hbc' IH' | b' c' Hbc' IH'];
      intros a b Hab IH E; simplify_eq.
    + constructor. by apply IH.
    + constructor. by apply IH.
  - constructor. by apply IH.
Qed.

Lemma unquoted_without_quotes a b :
  unquoted a b -> without_quotes a = without_quotes b.
Proof.
  unfold without_quotes. induction 1 as [ | c a b H IH | a b H IH].
  - done.
  - rewrite !filter_cons. by rewrite IH.
  - rewrite filter_cons. by rewrite decide_False by (intros Hq; by apply Hq).
Qed.

Lemma unquoted_length a b : unquoted a b -> length b <= length a.
Proof. induction 1; simpl; lia. Qed.

(** The literal without its quotes. *)
Lemma unquoted_literal pre d post :
  unquoted (pre ++ quote :: d ++ quote :: post) (pre ++ d ++ post).
Proof.
  apply unquoted_app; [apply unquoted_refl | ]. constructor.
  apply unquoted_app; [apply unquoted_refl | ]. constructor.
  apply unquoted_refl.
Qed.

(** *** The loop *)

Lemma digit_not_space x : Py.isdigit x = true -> Py.isspace x = false.
Proof.
  destruct x as [[] [] [] [] [] [] [] []]; vm_compute; congruence.
Qed.

(** A turn of the loop: some literal loses its two quotes. *)
Lemma unquote_turn w m :
  search pat_date1 w = Some m ->
  exists a b B,
    w = a ++ quote :: b ++ quote :: B /\ date_body b
    /\ unquote_at (m_start m) (m_end m) w = a ++ b ++ B.
Proof.
  intros (a & b & B & -> & Hb & -> & ->)%search_date_sound.
  exists a, b, B. repeat split; [done | apply unquote_at_literal].
Qed.

(** The loop ends within its fuel: the scan finds nothing in its result. *)
Lemma unquote_dates_fixed fuel : forall w,
  length w <= fuel -> search pat_date1 (unquote_dates fuel w) = None.
Proof.
  induction fuel as [ | fuel IH]; intros w Hl.
  - by destruct w; [ | simpl in Hl; lia].
  - simpl. destruct (search pat_date1 w) as [m | ] eqn:Hs; [ | done].
    destruct (unquote_turn _ _ Hs) as (a & b & B & -> & _ & ->).
    apply IH. revert Hl. rewrite !length_app. simpl. rewrite !length_app.
    simpl. lia.
Qed.

Lemma unquote_dates_unquoted fuel : forall w,
  unquoted w (unquote_dates fuel w).
Proof.
  induction fuel as [ | fuel IH]; intros w; simpl; [apply unquoted_refl | ].
  destruct (search pat_date1 w) as [m | ] eqn:Hs; [ | apply unquoted_refl].
  destruct (unquote_turn _ _ Hs) as (a & b & B & -> & _ & ->).
  eapply unquoted_trans; [apply unquoted_literal | apply IH].
Qed.

Lemma unquote_dates_tidy fuel : forall w,
  tidy_end w -> tidy_end (unquote_dates fuel w).
Proof.
  induction fuel as [ | fuel IH]; intros w Hw; simpl; [done | ].
  destruct (search pat_date1 w) as [m | ] eqn:Hs; [ | done].
  destruct (unquote_turn _ _ Hs) as (a & b & B & -> & Hb & ->).
  apply IH. intros x. rewrite !last_app.
  destruct (last B) as [y | ] eqn:HB.
  - intros [= <-]. apply Hw.
    by rewrite last_app, last_cons, last_app, last_cons, HB.
  - destruct (date_body_last _ Hb) as (b' & z & -> & Hz).
    rewrite last_snoc. intros [= <-]. by apply digit_not_space.
Qed.

(** The result of the loop has no quoted date literal, and is the text
    with some quotes deleted. *)
Lemma fix_dates_fixed w : ~ quoted_date (fix_dates w).
Proof. apply search_date_none. by apply unquote_dates_fixed. Qed.

Lemma fix_dates_unquoted w : unquoted w (fix_dates w).
Proof. apply unquote_dates_unquoted. Qed.

Lemma fix_dates_tidy w : tidy_end w -> tidy_end (fix_dates w).
Proof. apply unquote_dates_tidy. Qed.

(** *** One literal through the loop *)

(** A text that starts without quote, set against a quote. *)
Lemma app_quote_split (x X y Y : str) :
  quote ∉ x -> x ++ X = y ++ quote :: Y ->
  exists l, y = x ++ l /\ X = l ++ quote :: Y.
Proof.
  intros Hx [l [[-> E] | [-> E]]]%app_eq_app.
  - destruct l as [ | c l].
    + exists []. rewrite !app_nil_r. simpl in E. by split.
    + injection E as <- _. exfalso. apply Hx.
      apply elem_of_app. right. by left.
  - by exists l.
Qed.

Lemma no_digit_before_literal pre p a b :
  no_digit_before pre -> unquoted pre p -> date_body b ->
  p <> a ++ quote :: b.
Proof.
  intros Hpre Hp (b' & x & -> & Hx)%date_body_last ->.
  apply unquoted_without_quotes in Hp.
  specialize (Hpre x). rewrite Hp in Hpre.
  replace (a ++ quote :: b' ++ [x]) with ((a ++ quote :: b') ++ [x]) in Hpre
    by (by rewrite <- app_assoc).
  unfold without_quotes in Hpre. rewrite filter_app, filter_cons in Hpre.
  rewrite decide_True in Hpre by (by intros ->).
  rewrite filter_nil, last_snoc in Hpre. specialize (Hpre eq_refl). congruence.
Qed.

Lemma no_digit_after_literal post s b B :
  no_digit_after post -> unquoted post s -> date_body b ->
  s <> b ++ quote :: B.
Proof.
  intros Hpost Hs (x & b' & -> & Hx)%date_body_head ->.
  apply unquoted_without_quotes in Hs.
  specialize (Hpost x). rewrite Hs in Hpost.
  unfold without_quotes in Hpost. simpl in Hpost. rewrite filter_cons in Hpost.
  rewrite decide_True in Hpost by (by intros ->).
  specialize (Hpost eq_refl). congruence.
Qed.

Section Literal.
Context (pre d post : str).
Context (Hd : date_body d).
Context (Hpre : no_digit_before pre) (Hpost : no_digit_after post).

(** A turn of the loop on another literal ['b'] leaves the literal ['d']
    with both its quotes, or takes both; and a bare [d] stays bare. *)
Lemma literal_step a b B w :
  date_body b -> w = a ++ quote :: b ++ quote :: B ->
  literal_kept pre d post w \/ literal_bare pre d post w ->
  literal_kept pre d post (a ++ b ++ B)
  \/ literal_bare pre d post (a ++ b ++ B).
Proof using All.
  intros Hb -> [(p & s & Hp & Hs & E) | (p & s & Hp & Hs & E)].
  - pose proof (date_body_no_quote _ Hb) as Nb.
    pose proof (date_body_no_quote _ Hd) as Nd.
    apply app_eq_app in E as [l [[-> E] | [-> E]]].
    + (* the match starts at the literal's opening quote or after it *)
      destruct l as [ | c l].
      * simpl in E. injection E as E.
        apply app_quote_split in E as (l2 & -> & E); [ | done].
        destruct l2 as [ | c2 l2].
        -- simpl in E. injection E as ->. rewrite !app_nil_r.
           right. by exists p, B.
        -- injection E as <- _. exfalso. apply Nb.
           apply elem_of_app. right. by left.
      * injection E as <- E.
        apply app_quote_split in E as (l2 & -> & E); [ | done].
        destruct l2 as [ | c2 l2].
        -- simpl in E. injection E as ->.
           by destruct (no_digit_after_literal post (b ++ quote :: B) b B).
        -- injection E as <- ->. left.
           exists p, (l2 ++ b ++ B). repeat split; [done | | ].
           ++ eapply unquoted_trans; [exact Hs | apply unquoted_literal].
           ++ rewrite <- !app_assoc. simpl. by rewrite <- !app_assoc.
    + (* the match starts before the literal *)
      destruct l as [ | c l].
      * simpl in E. injection E as E. rewrite app_nil_r in Hp.
        apply app_quote_split in E as (l2 & -> & E); [ | done].
        destruct l2 as [ | c2 l2].
        -- simpl in E. injection E as ->. rewrite !app_nil_r.
           right. by exists a, s.
        -- injection E as <- _. exfalso. apply Nd.
           apply elem_of_app. right. by left.
      * injection E as <- E.
        apply app_quote_split in E as (l2 & -> & E); [ | done].
        destruct l2 as [ | c2 l2].
        -- rewrite app_nil_r in Hp.
           by destruct (no_digit_before_literal pre (a ++ quote :: b) a b).
        -- injection E as <- ->. left.
           exists (a ++ b ++ l2), s. repeat split; [ | done | ].
           ++ eapply unquoted_trans; [exact Hp | ].
              rewrite <- ?app_assoc. apply unquoted_literal.
           ++ by rewrite <- !app_assoc.
  - pose proof (date_body_no_quote _ Hb) as Nb.
    pose proof (date_body_no_quote _ Hd) as Nd.
    destruct (date_body_head _ Hd) as (x & d' & Ed & _).
    right. apply app_eq_app in E as [l [[-> E] | [-> E]]].
    + apply app_quote_split in E as (l2 & -> & ->); [ | done].
      exists p, (l2 ++ b ++ B). repeat split; [done | | ].
      * eapply unquoted_trans; [exact Hs | apply unquoted_literal].
      * by rewrite <- !app_assoc.
    + destruct l as [ | c l].
      * exfalso. simpl in E. apply Nd. rewrite Ed in E |- *.
        injection E as <- _. by left.
      * injection E as <- E.
        apply app_eq_app in E as [l2 [[-> E] | [-> E]]].
        -- assert (Nl2 : quote ∉ l2).
           { intros H. apply Nb. apply elem_of_app. by right. }
           apply app_quote_split in E as (l4 & -> & ->); [ | done].
           exists (a ++ l), (l4 ++ B). repeat split.
           ++ eapply unquoted_trans; [exact Hp | ].
              apply unquoted_app; [apply unquoted_refl | ].
              constructor. apply unquoted_refl.
           ++ eapply unquoted_trans; [exact Hs | ].
              apply unquoted_app; [apply unquoted_refl | ].
              constructor. apply unquoted_refl.
           ++ by rewrite <- !app_assoc.
        -- destruct l2 as [ | c2 l2].
           ++ exfalso. simpl in E. apply Nd. rewrite Ed in E |- *.
              injection E as <- _. by left.
           ++ injection E as <- ->.
              exists (a ++ b ++ l2), s. repeat split; [ | done | ].
              ** eapply unquoted_trans; [exact Hp | ].
                 rewrite <- ?app_assoc. apply unquoted_literal.
              ** by rewrite <- !app_assoc.
Qed.

Lemma unquote_dates_literal fuel : forall w,
  literal_kept pre d post w \/ literal_bare pre d post w ->
  literal_kept pre d post (unquote_dates fuel w)
  \/ literal_bare pre d post (unquote_dates fuel w).
Proof using All.
  induction fuel as [ | fuel IH]; intros w Hw; simpl; [done | ].
  destruct (search pat_date1 w) as [m | ] eqn:Hs; [ | done].
  destruct (unquote_turn _ _ Hs) as (a & b & B & E & Hb & ->).
  apply IH. by eapply literal_step.
Qed.

(** A literal whose neighbours are not digits ends without its quotes. *)
Lemma fix_dates_literal :
  literal_bare pre d post (fix_dates (pre ++ quote :: d ++ quote :: post)).
Proof using All.
  set (w := pre ++ quote :: d ++ quote :: post).
  destruct (unquote_dates_literal (length w) w) as [H | H]; [ | | done].
  - left. exists pre, post. repeat split; apply unquoted_refl.
  - destruct H as (p & s & _ & _ & E). destruct (fix_dates_fixed w).
    exists p, d, s. by split.
Qed.

End Literal.

End DateFacts.

(** ** The date constants of the WHERE clause *)

Module ConstantFacts.
Import Re ReFacts Sql2soql Spec DateFacts.

(** *** [str.replace] and [re.sub] rewrite *)

Lemma replace_from_skip old new : forall t k,
  Py.replace_from old new k t = Py.replace_from old new 0 (drop k t).
Proof.
  induction t as [ | c t IH]; intros k; [by destruct k | ].
  destruct k as [ | k]; [done | ]. simpl. apply IH.
Qed.

Lemma sub_from_skip r repl : forall t k off,
  sub_from r repl k t off = sub_from r repl 0 (drop k t) (off + k).
Proof.
  induction t as [ | c t IH]; intros k off; [by destruct k | ].
  destruct k as [ | k]; [by rewrite Nat.add_0_r | ].
  simpl. rewrite IH. by rewrite Nat.add_succ_comm.
Qed.

Lemma replace_rewritten old new t :
  constant_text old -> rewritten new t (Py.replace old new t).
Proof.
  intros Hold. unfold Py.replace.
  remember (length t) as n eqn:Hn. revert t Hn.
  induction n as [n IH] using lt_wf_ind. intros t ->.
  destruct t as [ | c t]; [constructor | ]. simpl.
  destruct (Py.startswith (c :: t) old) eqn:Hs.
  - apply bool_decide_eq_true_1 in Hs.
    destruct Hold as [Hq (x & old' & -> & Hx)].
    simpl in Hs. injection Hs as -> Hs. simpl.
    rewrite Nat.sub_0_r, replace_from_skip.
    rewrite <- (take_drop (length old') t) at 1. rewrite Hs.
    apply (rewritten_repl new (x :: old')); [split; eauto | ].
    eapply IH; [ | done]. simpl. rewrite length_drop. lia.
  - constructor. eapply IH; [ | done]. simpl. lia.
Qed.

Lemma sub_rewritten r repl t :
  (forall pos u rest caps caps',
     matches r pos u rest caps caps' -> constant_text u) ->
  rewritten repl t (sub r repl t).
Proof.
  intros Hr. unfold sub.
  enough (H : forall off, rewritten repl t (sub_from r repl 0 t off))
    by apply H.
  remember (length t) as n eqn:Hn. revert t Hn.
  induction n as [n IH] using lt_wf_ind. intros t -> off.
  destruct t as [ | c t]; [constructor | ]. simpl.
  destruct (match_at r (c :: t) off) as [m | ] eqn:Hm;
    [ | constructor; eapply IH; [ | done]; simpl; lia].
  destruct (off <? m_end m) eqn:Hlt;
    [ | constructor; eapply IH; [ | done]; simpl; lia].
  apply match_at_sound in Hm as (u & rest & E & Hu & _ & He).
  apply Hr in Hu. pose proof Hu as [_ (x & u' & -> & _)].
  simpl in E. injection E as -> ->.
  rewrite sub_from_skip. rewrite He. simpl length.
  replace (off + S (length u') - off - 1) with (length u') by lia.
  rewrite drop_app_length.
  apply (rewritten_repl repl (x :: u')); [done | ].
  eapply IH; [ | done]. simpl. rewrite length_app. lia.
Qed.

(** *** What rewriting keeps *)

Section Rewritten.
Context (repl : str).
Implicit Types (a b pre post : str).

Lemma rewritten_nil_inv a :
  repl <> [] -> rewritten repl a [] -> a = [].
Proof.
  intros Hr H. inversion H as [ | | m a' b' Hm H' E1 E2]; [done | ].
  by destruct repl.
Qed.

(** No white space comes to the end of the text. *)
Lemma rewritten_tidy a b :
  repl <> [] -> tidy_end repl ->
  rewritten repl a b -> tidy_end a -> tidy_end b.
Proof.
  intros Hne Hr. induction 1 as [ | c a b H IH | m a b Hm H IH]; intros Ha.
  - done.
  - intros x. rewrite last_cons. destruct (last b) as [y | ] eqn:Hb.
    + intros [= <-]. apply IH; [ | done].
      intros z Hz. apply Ha. by rewrite last_cons, Hz.
    + apply last_None in Hb as ->. apply rewritten_nil_inv in H as ->; [ | done].
      intros [= <-]. by apply Ha.
  - intros x. rewrite last_app. destruct (last b) as [y | ] eqn:Hb.
    + intros [= <-]. apply IH; [ | done].
      intros z Hz. apply Ha. by rewrite last_app, Hz.
    + apply Hr.
Qed.

Lemma date_body_chars d :
  date_body d ->
  Forall (fun c => c = quote \/ Py.isdigit c = true \/ c = "-"%char) d.
Proof.
  intros (y & mo & da & -> & Hy & _ & Hmo & _ & Hda & _).
  assert (Hdig : forall t, digits t ->
            Forall (fun c => c = quote \/ Py.isdigit c = true \/ c = "-"%char) t).
  { intros t Ht. eapply Forall_impl; [exact Ht | ]. intros; by right; left. }
  apply Forall_app. split; [by apply Hdig | ].
  apply Forall_cons. split; [by right; right | ].
  apply Forall_app. split; [by apply Hdig | ].
  apply Forall_cons. split; [by right; right | by apply Hdig].
Qed.

(** The characters of a quoted date are copied. *)
Lemma rewritten_literal_chars l : forall post b,
  Forall (fun c => c = quote \/ Py.isdigit c = true \/ c = "-"%char) l ->
  rewritten repl (l ++ post) b ->
  exists post', b = l ++ post' /\ rewritten repl post post'.
Proof.
  induction l as [ | x l IH]; intros post b Hl H; [by exists b | ].
  apply Forall_cons in Hl as [Hx Hl]. simpl in H.
  inversion H as [ | c a b' H' E1 E2 | m a b' Hm H' E1 E2]; subst.
  - apply IH in H' as (post' & -> & H'); [ | done]. by exists post'.
  - exfalso. destruct Hm as [Hq (c & m' & -> & Hc & Hh)].
    simpl in E1. injection E1 as -> _.
    destruct Hx as [-> | [Hx | ->]]; [ | congruence | done].
    apply Hq. by left.
Qed.

Lemma rewritten_literal pre d post b :
  date_body d ->
  rewritten repl (pre ++ quote :: d ++ quote :: post) b ->
  exists pre' post',
    b = pre' ++ quote :: d ++ quote :: post'
    /\ rewritten repl pre pre' /\ rewritten repl post post'.
Proof.
  intros Hd H.
  remember (pre ++ quote :: d ++ quote :: post) as a eqn:E.
  revert pre E. induction H as [ | c a b H IH | m a b Hm H IH]; intros pre E.
  - by destruct pre.
  - destruct pre as [ | c' pre].
    + simpl in E. injection E as -> ->.
      replace (d ++ quote :: post) with ((d ++ [quote]) ++ post) in H
        by (by rewrite <- app_assoc).
      apply rewritten_literal_chars in H as (post' & -> & H).
      * exists [], post'. repeat split; [ | constructor | done].
        simpl. by rewrite <- app_assoc.
      * apply Forall_app. split; [by apply date_body_chars | ].
        by repeat constructor.
    + simpl in E. injection E as -> ->.
      destruct (IH pre eq_refl) as (pre' & post' & -> & Hpre & Hpost).
      exists (c' :: pre'), post'. repeat split; [ | done]. by constructor.
  - apply app_eq_app in E as [l [[-> E] | [-> E]]].
    + destruct l as [ | x l].
      * rewrite app_nil_r in Hm. rewrite ?app_nil_r. simpl in E.
        destruct (IH [] (eq_sym E)) as (pre' & post' & -> & Hpre & Hpost).
        exists (repl ++ pre'), post'. repeat split; [ | | done].
        -- by rewrite <- app_assoc.
        -- rewrite <- (app_nil_r pre). by constructor.
      * exfalso. injection E as <- _. destruct Hm as [Hq _]. apply Hq.
        apply elem_of_app. right. by left.
    + destruct (IH l E) as (pre' & post' & -> & Hpre & Hpost).
      exists (repl ++ pre'), post'. repeat split; [ | | done].
      * by rewrite <- app_assoc.
      * by constructor.
Qed.

(** The character before a place, quotes apart, stays or becomes the
    last one of [repl]; the character after it stays or becomes the first
    one of [repl]. *)
Lemma rewritten_last a b :
  without_quotes repl <> [] ->
  rewritten repl a b ->
  last (without_quotes b) = last (without_quotes a)
  \/ last (without_quotes b) = last (without_quotes repl).
Proof.
  unfold without_quotes. intros Hr.
  assert (Hl : exists z, last (filter (fun c => c <> quote) repl) = Some z).
  { destruct (last (filter _ repl)) eqn:Hl; [eauto | ].
    by apply last_None in Hl. }
  destruct Hl as [z Hz].
  induction 1 as [ | c a b H IH | m a b Hm H IH]; [by left | | ].
  - rewrite !filter_cons. destruct (decide (c <> quote)); [ | done].
    rewrite !last_cons. destruct IH as [-> | ->]; [by left | ].
    right. by rewrite Hz.
  - rewrite !filter_app, !last_app.
    destruct IH as [E | ->]; [ | right; by rewrite Hz].
    rewrite E. destruct (last (filter _ a)) eqn:Ha; [by left | by right].
Qed.

Lemma rewritten_head a b :
  without_quotes repl <> [] ->
  rewritten repl a b ->
  head (without_quotes b) = head (without_quotes a)
  \/ (head (without_quotes b) = head (without_quotes repl)
      /\ exists x, head (without_quotes a) = Some x /\ Py.isdigit x = false).
Proof.
  unfold without_quotes. intros Hr.
  assert (Hl : exists z, head (filter (fun c => c <> quote) repl) = Some z).
  { destruct (head (filter _ repl)) eqn:Hl; [eauto | ].
    by apply head_None in Hl. }
  destruct Hl as [z Hz].
  induction 1 as [ | c a b H IH | m a b Hm H IH]; [by left | | ].
  - rewrite !filter_cons. destruct (decide (c <> quote)); [by left | done].
  - rewrite !filter_app, !head_app, Hz. right. split; [done | ].
    destruct Hm as [Hq (c & m' & -> & Hc & _)].
    rewrite filter_cons, decide_True; [by exists c | ].
    intros ->. apply Hq. by left.
Qed.

Lemma rewritten_no_digit_before a b :
  without_quotes repl <> [] -> no_digit_before repl ->
  rewritten repl a b -> no_digit_before a -> no_digit_before b.
Proof.
  intros Hne Hr H Ha x.
  destruct (rewritten_last a b Hne H) as [-> | ->]; [apply Ha | apply Hr].
Qed.

Lemma rewritten_no_digit_after a b :
  without_quotes repl <> [] -> no_digit_after repl ->
  rewritten repl a b -> no_digit_after a -> no_digit_after b.
Proof.
  intros Hne Hr H Ha x.
  destruct (rewritten_head a b Hne H) as [-> | [-> _]]; [apply Ha | apply Hr].
Qed.


End Rewritten.

(** *** The five rewritings *)

(** The texts the patterns of the constants match are constant texts. *)
Lemma not_quote_literal (l : str) :
  bool_decide (quote ∉ l) = true -> quote ∉ l.
Proof. apply bool_decide_eq_true_1. Qed.

Lemma not_quote_space (l : str) :
  Forall (fun c => ws c = true) l -> quote ∉ l.
Proof.
  intros Hl Hq. eapply Forall_forall in Hl; [ | exact Hq]. done.
Qed.

Lemma compare_text pos u rest caps caps' op name :
  matches (seq [word false op; star ws; word false name]) pos u rest caps caps' ->
  exists sp, u = op ++ sp ++ name /\ Forall (fun c => ws c = true) sp.
Proof.
  cbn [seq]. intros M.
  apply matches_cat_inv in M as (u1 & r1 & c1 & -> & M1 & M).
  apply matches_cat_inv in M as (u2 & r2 & c2 & -> & M2 & M).
  apply matches_cat_inv in M as (u3 & r3 & c3 & -> & M3 & M).
  apply matches_eps_inv in M as [-> _].
  apply matches_word_inv in M1 as [E1 _], M3 as [E3 _].
  simpl in E1, E3. subst u1 u3.
  apply matches_star_inv in M2 as [Hsp _].
  exists u2. by rewrite app_nil_r.
Qed.

Lemma compare_call_text pos u rest caps caps' op name :
  matches (seq [word false op; star ws; word false name;
                opt (Grp 1 (word false (py "()"))); chr false ")"])
    pos u rest caps caps' ->
  exists sp arg,
    u = op ++ sp ++ name ++ arg ++ py ")"
    /\ Forall (fun c => ws c = true) sp /\ (arg = [] \/ arg = py "()").
Proof.
  cbn [seq]. intros M.
  apply matches_cat_inv in M as (u1 & r1 & c1 & -> & M1 & M).
  apply matches_cat_inv in M as (u2 & r2 & c2 & -> & M2 & M).
  apply matches_cat_inv in M as (u3 & r3 & c3 & -> & M3 & M).
  apply matches_cat_inv in M as (u4 & r4 & c4 & -> & M4 & M).
  apply matches_cat_inv in M as (u5 & r5 & c5 & -> & M5 & M).
  apply matches_eps_inv in M as [-> _].
  apply matches_word_inv in M1 as [E1 _], M3 as [E3 _].
  simpl in E1, E3. subst u1 u3.
  apply matches_star_inv in M2 as [Hsp _].
  apply matches_lit_inv in M5 as [-> _].
  exists u2, u4. repeat split; [done | ].
  apply matches_alt_inv in M4 as [M4 | M4].
  - apply matches_grp_inv in M4 as (c6 & _ & M4).
    apply matches_word_inv in M4 as [E4 _]. simpl in E4. by right.
  - apply matches_eps_inv in M4 as [-> _]. by left.
Qed.

Lemma month_end_text pos u rest caps caps' :
  matches re_month_end pos u rest caps caps' -> constant_text u.
Proof.
  intros (sp & -> & Hsp)%compare_text. split; [ | by exists "<"%char; eexists].
  rewrite !elem_of_app. intros [H | [H | H]]; [ | by eapply not_quote_space | ];
    by eapply not_quote_literal in H.
Qed.

Lemma month_start_text pos u rest caps caps' :
  matches re_month_start pos u rest caps caps' -> constant_text u.
Proof.
  intros (sp & -> & Hsp)%compare_text. split; [ | by exists ">"%char; eexists].
  rewrite !elem_of_app. intros [H | [H | H]]; [ | by eapply not_quote_space | ];
    by eapply not_quote_literal in H.
Qed.

Lemma last_day_text pos u rest caps caps' :
  matches re_last_day pos u rest caps caps' -> constant_text u.
Proof.
  intros (sp & arg & -> & Hsp & Harg)%compare_call_text.
  split; [ | by exists "<"%char; eexists].
  rewrite !elem_of_app.
  intros [H | [H | [H | [H | H]]]]; [ | by eapply not_quote_space | | | ];
    try (by eapply not_quote_literal in H).
  destruct Harg as [-> | ->]; by eapply not_quote_literal in H.
Qed.

Lemma first_day_text pos u rest caps caps' :
  matches re_first_day pos u rest caps caps' -> constant_text u.
Proof.
  intros (sp & arg & -> & Hsp & Harg)%compare_call_text.
  split; [ | by exists ">"%char; eexists].
  rewrite !elem_of_app.
  intros [H | [H | [H | [H | H]]]]; [ | by eapply not_quote_space | | | ];
    try (by eapply not_quote_literal in H).
  destruct Harg as [-> | ->]; by eapply not_quote_literal in H.
Qed.

Lemma today_text : constant_text (py "TODAY()").
Proof.
  split; [by apply not_quote_literal | by exists "T"%char; eexists].
Qed.

(** The constants step is five rewritings in a row. *)
Lemma fix_constants_fixed w : constants_fixed w (fix_constants w).
Proof.
  unfold fix_constants. eexists _, _, _, _. repeat split.
  - apply replace_rewritten, today_text.
  - apply sub_rewritten, month_end_text.
  - apply sub_rewritten, month_start_text.
  - apply sub_rewritten, last_day_text.
  - apply sub_rewritten, first_day_text.
Qed.

(** The replacement texts: not empty, no white space at the end, and
    neither a quote nor a digit at either end. *)
Lemma replacement_ends repl :
  repl = py "TODAY" \/ repl = py "< NEXT_MONTH" \/ repl = py "> LAST_MONTH" ->
  repl <> [] /\ tidy_end repl /\ without_quotes repl <> []
  /\ no_digit_before repl /\ no_digit_after repl.
Proof.
  intros [-> | [-> | ->]]; repeat split; try done;
    intros x; vm_compute; by intros [= <-].
Qed.

(** The constants step keeps a quoted date literal, the ends of its
    neighbours, and the tidy end of the text. *)
Lemma constants_fixed_literal pre d post b :
  date_body d ->
  constants_fixed (pre ++ quote :: d ++ quote :: post) b ->
  exists pre' post',
    b = pre' ++ quote :: d ++ quote :: post'
    /\ constants_fixed pre pre' /\ constants_fixed post post'.
Proof.
  intros Hd (a1 & a2 & a3 & a4 & H1 & H2 & H3 & H4 & H5).
  apply rewritten_literal in H1 as (p1 & s1 & -> & Hp1 & Hs1); [ | done].
  apply rewritten_literal in H2 as (p2 & s2 & -> & Hp2 & Hs2); [ | done].
  apply rewritten_literal in H3 as (p3 & s3 & -> & Hp3 & Hs3); [ | done].
  apply rewritten_literal in H4 as (p4 & s4 & -> & Hp4 & Hs4); [ | done].
  apply rewritten_literal in H5 as (p5 & s5 & -> & Hp5 & Hs5); [ | done].
  exists p5, s5. split; [done | ].
  split; [by exists p1, p2, p3, p4 | by exists s1, s2, s3, s4].
Qed.

Lemma constants_fixed_no_digit_before a b :
  constants_fixed a b -> no_digit_before a -> no_digit_before b.
Proof.
  intros (a1 & a2 & a3 & a4 & H1 & H2 & H3 & H4 & H5) Ha.
  eapply rewritten_no_digit_before in H1; [ | apply replacement_ends; auto.. | done].
  eapply rewritten_no_digit_before in H2; [ | apply replacement_ends; auto.. | done].
  eapply rewritten_no_digit_before in H3; [ | apply replacement_ends; auto.. | done].
  eapply rewritten_no_digit_before in H4; [ | apply replacement_ends; auto.. | done].
  eapply rewritten_no_digit_before in H5; [ | apply replacement_ends; auto.. | done].
  done.
Qed.

Lemma constants_fixed_no_digit_after a b :
  constants_fixed a b -> no_digit_after a -> no_digit_after b.
Proof.
  intros (a1 & a2 & a3 & a4 & H1 & H2 & H3 & H4 & H5) Ha.
  eapply rewritten_no_digit_after in H1; [ | apply replacement_ends; auto.. | done].
  eapply rewritten_no_digit_after in H2; [ | apply replacement_ends; auto.. | done].
  eapply rewritten_no_digit_after in H3; [ | apply replacement_ends; auto.. | done].
  eapply rewritten_no_digit_after in H4; [ | apply replacement_ends; auto.. | done].
  eapply rewritten_no_digit_after in H5; [ | apply replacement_ends; auto.. | done].
  done.
Qed.

Lemma constants_fixed_tidy a b :
  constants_fixed a b -> tidy_end a -> tidy_end b.
Proof.
  intros (a1 & a2 & a3 & a4 & H1 & H2 & H3 & H4 & H5) Ha.
  eapply rewritten_tidy in H1; [ | apply replacement_ends; auto.. | done].
  eapply rewritten_tidy in H2; [ | apply replacement_ends; auto.. | done].
  eapply rewritten_tidy in H3; [ | apply replacement_ends; auto.. | done].
  eapply rewritten_tidy in H4; [ | apply replacement_ends; auto.. | done].
  eapply rewritten_tidy in H5; [ | apply replacement_ends; auto.. | done].
  done.
Qed.

End ConstantFacts.

(** ** Part 2: the heuristics on the field list *)

Module FixupFacts.
Import Re Sql2soql Spec.

Implicit Types (st : state) (l cols : list str) (f c x table : str).

Lemma mem_true x l : Py.mem x l = true <-> x ∈ l.
Proof. unfold Py.mem. by rewrite bool_decide_eq_true. Qed.

Lemma mem_false x l : Py.mem x l = false <-> x ∉ l.
Proof. unfold Py.mem. by rewrite bool_decide_eq_false. Qed.

(** A loop whose body changes nothing changes nothing. *)
Lemma for_in_id fuel r body : forall i st,
  (forall x, x ∈ load (r st) st -> body x st = st) ->
  for_in fuel r body i st = st.
Proof.
  induction fuel as [ | fuel IH]; intros i st H; simpl; [done | ].
  destruct (load (r st) st !! i) as [x | ] eqn:Hx; [ | done].
  rewrite H by (by eapply list_elem_of_lookup_2). by apply IH.
Qed.

Lemma add_key_present f st :
  f ∈ load (list_fields st) st -> add_key f st = st.
Proof.
  intros H%mem_true. unfold add_key. rewrite H. simpl.
  by destruct (_ || _).
Qed.

Lemma prune_one_known table c st :
  c ∈ columns table st -> prune_one table c st = st.
Proof.
  intros H%mem_true. unfold prune_one. rewrite H. simpl.
  by destruct (negb _).
Qed.

(** Once [list_fields] is the schema's own list, the remaining rules add
    [Id] to it when forced and missing, and change nothing else. *)
Lemma fixup_aliased f l (t2c : gmap str (list str)) table cols add_id :
  t2c !! table = Some cols ->
  prune table
    (add_keys false add_id table
       (force_id false add_id (State f (Column table) l t2c)))
  = State (Py.join (py ", ") (star_columns add_id cols)) (Column table) l
      (star_dict add_id table cols t2c).
Proof.
  intros Ht. unfold star_columns, star_dict.
  assert (Hst : exists f',
    force_id false add_id (State f (Column table) l t2c)
    = State f' (Column table) l
        (if add_id && negb (Py.mem (py "Id") cols)
         then <[table := cols ++ [py "Id"]]> t2c else t2c)).
  { unfold force_id, lf_append, store, load, columns, set_fields.
    cbn [fields list_fields own table2columns]. rewrite Ht.
    cbn [from_option id].
    destruct (Py.mem (py "Id") cols), add_id; cbn [negb andb]; eauto. }
  destruct Hst as [f' ->].
  set (cols' := if add_id && negb (Py.mem (py "Id") cols)
                then cols ++ [py "Id"] else cols).
  set (d := if add_id && negb (Py.mem (py "Id") cols)
            then <[table := cols ++ [py "Id"]]> t2c else t2c).
  assert (Hd : d !! table = Some cols').
  { subst d cols'. destruct (add_id && _); [apply lookup_insert_eq | done]. }
  assert (Hk : add_keys false add_id table (State f' (Column table) l d)
               = State f' (Column table) l d).
  { unfold add_keys.
    match goal with |- (if ?b then _ else _) = _ => destruct b end; [ | done].
    apply for_in_id. intros x Hx. by apply add_key_present. }
  rewrite Hk. unfold prune. simpl. rewrite Hd.
  rewrite bool_decide_eq_true_2 by eauto.
  rewrite for_in_id.
  - unfold set_fields, load, columns. simpl. by rewrite Hd.
  - intros x Hx. by apply prune_one_known.
Qed.

(** A wildcard on a known table. *)
Lemma fixup_star_known l (t2c : gmap str (list str)) table cols add_id :
  t2c !! table = Some cols ->
  fixup false add_id table (State (py "*") Own l t2c)
  = State (Py.join (py ", ") (star_columns add_id cols)) (Column table) l
      (star_dict add_id table cols t2c).
Proof.
  intros Ht. unfold fixup, expand_star.
  cbn [fields table2columns]. rewrite Ht.
  replace (Py.eqs (py "*") (py "*")) with true by done.
  rewrite bool_decide_eq_true_2 by eauto.
  unfold count_star, set_list_fields, set_fields. cbn [fields list_fields own table2columns].
  destruct (Py.eqs _ _); by apply fixup_aliased.
Qed.

(** A wildcard on an unknown table. *)
Lemma fixup_star_unknown l (t2c : gmap str (list str)) table aggregate add_id :
  t2c !! table = None ->
  fixup aggregate add_id table (State (py "*") Own l t2c)
  = State (py "FIELDS(ALL)") Own (l ++ [py "Id"]) t2c.
Proof.
  intros Ht. unfold fixup, expand_star.
  cbn [fields table2columns]. rewrite Ht.
  replace (Py.eqs (py "*") (py "*")) with true by done.
  rewrite bool_decide_eq_false_2 by (by intros [? ?]).
  unfold lf_append, set_fields, store, load. cbn [fields list_fields own table2columns].
  unfold count_star. cbn [fields].
  replace (Py.eqs (Py.lower (py "FIELDS(ALL)")) (py "count(*)")) with false by done.
  unfold force_id, load. cbn [fields list_fields own table2columns].
  assert (Hid : Py.mem (py "Id") (l ++ [py "Id"]) = true).
  { apply mem_true. set_solver. }
  rewrite Hid. cbn [negb andb].
  unfold add_keys. cbn [table2columns]. rewrite Ht.
  rewrite bool_decide_eq_false_2 by (by intros [? ?]). rewrite !andb_false_r.
  unfold prune. cbn [table2columns]. rewrite Ht.
  by rewrite bool_decide_eq_false_2 by (by intros [? ?]).
Qed.

(** *** The rules while [list_fields] is the list of part 1

    Then the dictionary is only read. *)

Lemma remove_other x c l : x <> c -> x ∈ l -> x ∈ Py.remove c l.
Proof.
  intros Hne. induction l as [ | y l IH]; simpl; [done | ].
  unfold Py.eqs. intros [-> | Hx]%elem_of_cons.
  - rewrite bool_decide_eq_false_2 by done. apply elem_of_cons. by left.
  - destruct (decide (c = y)) as [-> | Hcy].
    + by rewrite bool_decide_eq_true_2.
    + rewrite bool_decide_eq_false_2 by done. apply elem_of_cons. auto.
Qed.

Lemma add_key_own f st :
  list_fields st = Own ->
  list_fields (add_key f st) = Own
  /\ table2columns (add_key f st) = table2columns st
  /\ (forall x, x ∈ own st -> x ∈ own (add_key f st))
  /\ (is_key f = true -> f ∈ own (add_key f st)).
Proof.
  destruct st as [fs r ow d]. cbn [list_fields]. intros ->.
  unfold add_key, is_key, lf_append, set_fields, store, load.
  cbn [fields list_fields own table2columns].
  destruct (_ || _); [ | by repeat split].
  destruct (Py.mem f ow) eqn:Hm; cbn [negb].
  - repeat split; try done. intros _. by apply mem_true.
  - cbn [fields list_fields own table2columns]. repeat split; set_solver.
Qed.

Lemma for_in_add_key_own table fuel : forall i st,
  list_fields st = Own ->
  let st' := for_in fuel (fun _ => Column table) add_key i st in
  list_fields st' = Own
  /\ table2columns st' = table2columns st
  /\ (forall x, x ∈ own st -> x ∈ own st')
  /\ (forall j f, i <= j < i + fuel -> columns table st !! j = Some f ->
        is_key f = true -> f ∈ own st').
Proof.
  induction fuel as [ | fuel IH]; intros i st Ho; simpl.
  - repeat split; try done. intros; lia.
  - destruct (columns table st !! i) as [x | ] eqn:Hx.
    + destruct (add_key_own x st Ho) as (Ho1 & Hd1 & Hin1 & Hk1).
      destruct (IH (S i) (add_key x st) Ho1) as (Ho2 & Hd2 & Hin2 & Hk2).
      repeat split; [done | congruence | by auto | ].
      intros j f Hj Hf Hkey. destruct (decide (j = i)) as [-> | Hne].
      * apply Hin2. rewrite Hx in Hf. injection Hf as <-. by apply Hk1.
      * apply (Hk2 j); [lia | | done]. unfold columns in *. by rewrite Hd1.
    + repeat split; try done. intros j f Hj Hf.
      apply lookup_ge_None in Hx. apply lookup_lt_Some in Hf. lia.
Qed.

Lemma prune_one_own table c st :
  list_fields st = Own ->
  list_fields (prune_one table c st) = Own
  /\ table2columns (prune_one table c st) = table2columns st
  /\ (forall x, x ∈ columns table st -> x ∈ own st ->
        x ∈ own (prune_one table c st)).
Proof.
  destruct st as [fs r ow d]. cbn [list_fields]. intros ->.
  unfold prune_one, lf_remove, store, load.
  destruct (negb (Py.has_char _ c)); [ | by repeat split].
  destruct (Py.mem c _) eqn:Hm; cbn [negb]; [by repeat split | ].
  cbn [fields list_fields own table2columns].
  repeat split; try done. intros x Hx Hin.
  apply remove_other; [ | done]. apply mem_false in Hm. congruence.
Qed.

Lemma for_in_prune_own table fuel : forall i st,
  list_fields st = Own ->
  let st' := for_in fuel list_fields (prune_one table) i st in
  list_fields st' = Own
  /\ table2columns st' = table2columns st
  /\ (forall x, x ∈ columns table st -> x ∈ own st -> x ∈ own st').
Proof.
  induction fuel as [ | fuel IH]; intros i st Ho; simpl; [done | ].
  destruct (load (list_fields st) st !! i) as [c | ]; [ | done].
  destruct (prune_one_own table c st Ho) as (Ho1 & Hd1 & Hin1).
  destruct (IH (S i) (prune_one table c st) Ho1) as (Ho2 & Hd2 & Hin2).
  repeat split; [done | congruence | ].
  intros x Hx Hin. apply Hin2; [ | by apply Hin1].
  unfold columns in *. by rewrite Hd1.
Qed.


End FixupFacts.

(** ** The translator *)

Module TranslatorFacts.
Import Re ReFacts Sql2soql Spec ParseFacts FixupFacts.

(** The limit clause is the last thing appended. *)
Lemma assemble_limit f t w g o l :
  assemble f t w g o l = no_limit_statement f t w g o ++ emit_limit l.
Proof. unfold no_limit_statement, assemble. simpl. by rewrite app_nil_r. Qed.

(** C9: when no SELECT keyword boundary is found, or no FROM keyword
    boundary is found in what follows the SELECT found, or there is none at
    all, the call raises in part 1: nothing is returned and part 2 is not
    reached. *)
Theorem C9_malformed_statement sql t2c add_id hard_limit :
  ~ keyword_boundary (py "select") sql
  \/ ~ keyword_boundary (py "from") sql
  \/ (forall m, search re_select sql = Some m ->
        ~ keyword_boundary (py "from") (drop (m_end m) sql)) ->
  parse sql = Raise AttributeError
  /\ sql2soql sql t2c add_id hard_limit = Raise AttributeError.
Proof.
  intros H.
  assert (Hp : parse sql = Raise AttributeError); [ | by unfold sql2soql; rewrite Hp].
  unfold parse.
  destruct (search re_select sql) as [m1 | ] eqn:H1; [ | done].
  cbn [bind expect].
  destruct (search re_fields _) as [m2 | ] eqn:H2; [ | done].
  exfalso. apply search_fields_sound in H2.
  destruct H as [H | [H | H]].
  - by apply H, (search_select_sound _ m1).
  - by apply H, (keyword_boundary_drop _ (m_end m1)).
  - by apply (H m1).
Qed.

(** The statement starts with the field list and the table. *)
Lemma assemble_select f t w g o l :
  assemble f t w g o l
  = py "SELECT " ++ f ++ py " FROM " ++ t ++ py " "
    ++ emit (py "WHERE ") w ++ emit (py "GROUP BY ") g
    ++ emit (py "ORDER BY ") o ++ emit_limit l.
Proof. unfold assemble. cbn zeta. by rewrite <- !app_assoc. Qed.

(** A field-list text that is exactly [*] is one entry, and not aggregate. *)
Lemma parse_star sql c :
  parse sql = Ok c -> c_fields c = py "*" ->
  c_list_fields c = [py "*"] /\ c_aggregate c = false.
Proof.
  intros (m1 & m2 & e1 & m3 & w & g & o & _ & _ & _ & _ & Hl & Ha & _)%parse_inv
    Hf.
  rewrite Hf in Hl, Ha. by rewrite Hl, Ha.
Qed.

(** A wildcard on a table of known schema: the field text of the
    statement is the field list of the result joined, and that list is the
    list of the schema, to which [Id] has been appended when the key is
    forced and the schema has none. *)
Theorem wildcard_known_table sql t2c add_id hard_limit c cols :
  parse sql = Ok c -> c_fields c = py "*" -> t2c !! c_table c = Some cols ->
  exists o tail,
    sql2soql sql t2c add_id hard_limit = Ok o
    /\ statement o
       = py "SELECT " ++ Py.join (py ", ") (final_list o) ++ py " FROM "
         ++ c_table c ++ py " " ++ tail
    /\ (add_id = false \/ py "Id" ∈ cols -> final_list o = cols)
    /\ (add_id = true -> py "Id" ∉ cols -> final_list o = cols ++ [py "Id"]).
Proof.
  intros Hp Hf Ht. destruct (parse_star _ _ Hp Hf) as [Hl Ha].
  unfold sql2soql. rewrite Hp. cbn [bind]. rewrite Hf, Hl, Ha.
  rewrite (fixup_star_known _ _ _ _ _ Ht).
  eexists _, _. split; [done | ].
  cbn [statement final_list fields list_fields load].
  assert (Hc : columns (c_table c)
                 (State (Py.join (py ", ") (star_columns add_id cols))
                    (Column (c_table c)) [py "*"]
                    (star_dict add_id (c_table c) cols t2c))
               = star_columns add_id cols).
  { unfold columns, star_dict, star_columns. cbn [table2columns].
    destruct (add_id && _); [by rewrite lookup_insert_eq | by rewrite Ht]. }
  rewrite Hc. split; [by rewrite assemble_select | ].
  unfold star_columns. split.
  - intros [-> | Hin%mem_true]; [done | ]. by rewrite Hin, andb_false_r.
  - intros -> Hin%mem_false. by rewrite Hin.
Qed.

End TranslatorFacts.

(** ** The WHERE clause of the statement *)

Module WhereFacts.
Import Re ReFacts Sql2soql Spec ParseFacts DateFacts ConstantFacts TranslatorFacts.

(** The statement of a call, from what part 1 extracted. *)
Lemma sql2soql_statement sql t2c add_id hard_limit c :
  parse sql = Ok c ->
  exists o f,
    sql2soql sql t2c add_id hard_limit = Ok o
    /\ table_name o = c_table c
    /\ statement o
       = assemble f (c_table c) (fix_where <$> c_where c) (c_groupby c)
           (c_orderby c) (resolve_limit (c_limit c) (c_aggregate c) hard_limit).
Proof.
  intros Hp. unfold sql2soql. rewrite Hp. cbn [bind]. by eexists _, _.
Qed.

(** The scan of the loop finds nothing in a text the loop has left, so the
    loop leaves such a text as it is. *)
Lemma unquote_dates_none fuel w :
  search pat_date1 w = None -> unquote_dates fuel w = w.
Proof. intros H. destruct fuel; simpl; by rewrite ?H. Qed.

(** The date loop is idempotent. *)
Theorem fix_dates_idempotent w : fix_dates (fix_dates w) = fix_dates w.
Proof.
  apply unquote_dates_none, search_date_none, fix_dates_fixed.
Qed.

(** Where the WHERE text stands in the statement. *)
Lemma statement_where sql t2c add_id hard_limit c w0 :
  parse sql = Ok c -> c_where c = Some w0 ->
  exists o head tail,
    sql2soql sql t2c add_id hard_limit = Ok o
    /\ statement o = head ++ py "WHERE " ++ fix_where w0 ++ py " " ++ tail.
Proof.
  intros Hp Hw.
  destruct (sql2soql_statement sql t2c add_id hard_limit c Hp)
    as (o & f & Ho & _ & Hs).
  rewrite Hw in Hs. rewrite assemble_select in Hs.
  cbn [fmap option_fmap option_map emit] in Hs.
  exists o, (py "SELECT " ++ f ++ py " FROM " ++ c_table c ++ py " "),
    (emit (py "GROUP BY ") (c_groupby c) ++ emit (py "ORDER BY ") (c_orderby c)
     ++ emit_limit (resolve_limit (c_limit c) (c_aggregate c) hard_limit)).
  split; [done | ]. by rewrite Hs, <- !app_assoc.
Qed.

(** A literal with clean neighbours through both steps. *)
Lemma fix_where_literal pre d post :
  date_body d -> no_digit_before pre -> no_digit_after post ->
  exists p s pre' post',
    fix_where (pre ++ quote :: d ++ quote :: post) = p ++ d ++ s
    /\ constants_fixed pre pre' /\ unquoted pre' p
    /\ constants_fixed post post' /\ unquoted post' s.
Proof.
  intros Hd Hpre Hpost. unfold fix_where.
  destruct (constants_fixed_literal pre d post _ Hd (fix_constants_fixed _))
    as (pre' & post' & -> & Cpre & Cpost).
  destruct (fix_dates_literal pre' d post' Hd) as (p & s & Up & Us & ->).
  - by eapply constants_fixed_no_digit_before.
  - by eapply constants_fixed_no_digit_after.
  - by exists p, s, pre', post'.
Qed.

(** The WHERE text of the statement holds no quoted ISO date literal, and
    it is what the rewriting of the date constants, [fix_constants], gives
    for the WHERE text of the input, with quote characters deleted and
    nothing else changed. *)
Theorem where_no_quoted_date sql t2c add_id hard_limit c w0 :
  parse sql = Ok c -> c_where c = Some w0 ->
  exists o head tail w,
    sql2soql sql t2c add_id hard_limit = Ok o
    /\ statement o = head ++ py "WHERE " ++ w ++ py " " ++ tail
    /\ ~ quoted_date w
    /\ unquoted (fix_constants w0) w.
Proof.
  intros Hp Hw.
  destruct (statement_where sql t2c add_id hard_limit c w0 Hp Hw)
    as (o & head & tail & Ho & Hs).
  exists o, head, tail, (fix_where w0). repeat split; [done.. | | ].
  - apply fix_dates_fixed.
  - apply fix_dates_unquoted.
Qed.

(** A quoted ISO date literal of the WHERE clause whose nearest neighbours,
    quotes set aside, are not digits stands without its quotes in the
    statement, between what the rewriting and the loop made of the text
    before it and of the text after it. *)
Theorem where_literal_unquoted sql t2c add_id hard_limit c pre d post :
  parse sql = Ok c ->
  c_where c = Some (pre ++ quote :: d ++ quote :: post) ->
  date_body d -> no_digit_before pre -> no_digit_after post ->
  exists o head tail p s pre' post',
    sql2soql sql t2c add_id hard_limit = Ok o
    /\ statement o = head ++ py "WHERE " ++ (p ++ d ++ s) ++ py " " ++ tail
    /\ constants_fixed pre pre' /\ unquoted pre' p
    /\ constants_fixed post post' /\ unquoted post' s.
Proof.
  intros Hp Hw Hd Hpre Hpost.
  destruct (statement_where sql t2c add_id hard_limit c _ Hp Hw)
    as (o & head & tail & Ho & Hs).
  destruct (fix_where_literal pre d post Hd Hpre Hpost)
    as (p & s & pre' & post' & E & H).
  rewrite E in Hs. by exists o, head, tail, p, s, pre', post'.
Qed.

End WhereFacts.

(** ** The field list, rule by rule *)

Module FieldFacts.
Import Re ReFacts Sql2soql Spec ParseFacts FixupFacts TranslatorFacts.

Implicit Types (st : state) (l cols : list str) (f c x table : str).
Implicit Types (aggregate add_id : bool).

(** The rules on a state whose [list_fields] is the list of part 1. *)
Lemma expand_star_other table st :
  fields st <> py "*" -> expand_star table st = st.
Proof.
  intros Hf. unfold expand_star, Py.eqs. by rewrite bool_decide_eq_false_2.
Qed.

Lemma count_star_own st :
  list_fields (count_star st) = list_fields st
  /\ own (count_star st) = own st
  /\ table2columns (count_star st) = table2columns st.
Proof. unfold count_star. by destruct (Py.eqs _ _). Qed.

Lemma force_id_own aggregate add_id st :
  list_fields st = Own ->
  list_fields (force_id aggregate add_id st) = Own
  /\ table2columns (force_id aggregate add_id st) = table2columns st
  /\ own (force_id aggregate add_id st)
     = (if negb (Py.mem (py "Id") (own st)) && negb aggregate && add_id
        then own st ++ [py "Id"] else own st)
  /\ fields (force_id aggregate add_id st)
     = (if negb (Py.mem (py "Id") (own st)) && negb aggregate && add_id
        then fields st ++ py ", Id" else fields st).
Proof.
  destruct st as [fs r ow d]. cbn [list_fields]. intros ->.
  unfold force_id, lf_append, set_fields, store, load.
  cbn [fields list_fields own table2columns].
  by destruct (_ && _ && _).
Qed.

Lemma remove_subset x c l : x ∈ Py.remove c l -> x ∈ l.
Proof.
  induction l as [ | y l IH]; simpl; [done | ].
  unfold Py.eqs. destruct (bool_decide (c = y)).
  - intros H. apply elem_of_cons. by right.
  - intros [-> | H]%elem_of_cons; apply elem_of_cons; auto.
Qed.

(** The loop over the key columns adds key columns of the schema and
    nothing else. *)
Lemma add_key_own_from f st :
  list_fields st = Own ->
  forall x, x ∈ own (add_key f st) -> x ∈ own st \/ (x = f /\ is_key f = true).
Proof.
  destruct st as [fs r ow d]. cbn [list_fields]. intros ->.
  unfold add_key, is_key, lf_append, set_fields, store, load.
  cbn [fields list_fields own table2columns].
  destruct (_ || _); [ | by left].
  destruct (Py.mem f ow); cbn [negb own]; [by left | ].
  intros x [H | H]%elem_of_app; [by left | ].
  apply list_elem_of_singleton in H. by right.
Qed.

Lemma for_in_add_key_from table fuel : forall i st,
  list_fields st = Own ->
  forall x, x ∈ own (for_in fuel (fun _ => Column table) add_key i st) ->
  x ∈ own st \/ (x ∈ columns table st /\ is_key x = true).
Proof.
  induction fuel as [ | fuel IH]; intros i st Ho x; simpl; [by left | ].
  destruct (columns table st !! i) as [f | ] eqn:Hf; [ | by left].
  destruct (add_key_own f st Ho) as (Ho1 & Hd1 & _).
  intros [H | [H Hk]]%IH; [ | | done].
  - apply add_key_own_from in H as [H | [-> Hk]]; [by left | | done].
    right. split; [ | done]. by eapply list_elem_of_lookup_2.
  - right. split; [ | done]. unfold columns in *. by rewrite <- Hd1.
Qed.

(** The pruning loop removes entries, and only entries without parenthesis
    that the schema does not list. *)
Lemma prune_one_own_keeps table c st :
  list_fields st = Own ->
  (forall x, x ∈ own (prune_one table c st) -> x ∈ own st)
  /\ (forall x, Py.has_char "(" x = true -> x ∈ own st ->
        x ∈ own (prune_one table c st)).
Proof.
  destruct st as [fs r ow d]. cbn [list_fields]. intros ->.
  unfold prune_one, lf_remove, store, load.
  destruct (Py.has_char _ c) eqn:Hc; cbn [negb]; [done | ].
  destruct (Py.mem c _); cbn [negb]; [done | ].
  cbn [fields list_fields own table2columns]. split.
  - intros x. apply remove_subset.
  - intros x Hx Hin. apply remove_other; [congruence | done].
Qed.

Lemma for_in_prune_keeps table fuel : forall i st,
  list_fields st = Own ->
  let st' := for_in fuel list_fields (prune_one table) i st in
  (forall x, x ∈ own st' -> x ∈ own st)
  /\ (forall x, Py.has_char "(" x = true -> x ∈ own st -> x ∈ own st').
Proof.
  induction fuel as [ | fuel IH]; intros i st Ho; simpl; [done | ].
  destruct (load (list_fields st) st !! i) as [c | ]; [ | done].
  destruct (prune_one_own table c st Ho) as (Ho1 & _ & _).
  destruct (prune_one_own_keeps table c st Ho) as [Hs1 Hk1].
  destruct (IH (S i) (prune_one table c st) Ho1) as [Hs2 Hk2].
  split; [by auto | ]. intros x Hx Hin. by apply Hk2, Hk1.
Qed.

(** What the rules make of a field list that is not a wildcard. *)
Lemma fixup_own aggregate add_id table f l (t2c : gmap str (list str)) :
  f <> py "*" ->
  let st' := fixup aggregate add_id table (State f Own l t2c) in
  list_fields st' = Own
  /\ table2columns st' = t2c
  /\ (forall x, x ∈ own st' ->
        x ∈ l \/ (x = py "Id" /\ aggregate = false /\ add_id = true)
        \/ (x ∈ default [] (t2c !! table) /\ is_key x = true
            /\ aggregate = false /\ add_id = true))
  /\ (forall x, x ∈ l ->
        Py.has_char "(" x = true \/ x ∈ default [] (t2c !! table)
        \/ t2c !! table = None ->
        x ∈ own st')
  /\ (t2c !! table = None ->
        own st' = (if negb (Py.mem (py "Id") l) && negb aggregate && add_id
                   then l ++ [py "Id"] else l)
        /\ fields st'
           = (if negb (Py.mem (py "Id") l) && negb aggregate && add_id
              then fields (count_star (State f Own l t2c)) ++ py ", Id"
              else fields (count_star (State f Own l t2c))))
  /\ (is_Some (t2c !! table) -> fields st' = Py.join (py ", ") (own st')).
Proof.
  intros Hf st'. subst st'. unfold fixup.
  rewrite expand_star_other by done.
  set (st0 := State f Own l t2c).
  destruct (count_star_own st0) as (Hc1 & Hc2 & Hc3).
  destruct (force_id_own aggregate add_id (count_star st0) Hc1)
    as (Hf1 & Hf2 & Hf3 & Hf4).
  set (st1 := force_id aggregate add_id (count_star st0)) in *.
  rewrite Hc2 in Hf3, Hf4. rewrite Hc3 in Hf2.
  cbn [own table2columns st0] in Hf2, Hf3, Hf4.
  assert (Hk : list_fields (add_keys aggregate add_id table st1) = Own
    /\ table2columns (add_keys aggregate add_id table st1) = t2c
    /\ (forall x, x ∈ own st1 -> x ∈ own (add_keys aggregate add_id table st1))
    /\ (forall x, x ∈ own (add_keys aggregate add_id table st1) ->
          x ∈ own st1 \/ (x ∈ default [] (t2c !! table) /\ is_key x = true
                          /\ aggregate = false /\ add_id = true))
    /\ (t2c !! table = None -> add_keys aggregate add_id table st1 = st1)).
  { unfold add_keys. rewrite Hf2.
    destruct (t2c !! table) as [cols | ] eqn:Ht.
    - rewrite bool_decide_eq_true_2 by eauto. rewrite andb_true_r.
      destruct (negb aggregate && add_id) eqn:Hb; [ | by repeat split; auto].
      apply andb_prop in Hb as [Ha%negb_true_iff ->].
      destruct (for_in_add_key_own table (length (columns table st1)) 0 st1 Hf1)
        as (Ho & Hd & Hin & _).
      repeat split; [done | congruence | done | | done].
      intros x [H | [H Hkey]]%for_in_add_key_from; [by left | | done].
      right. unfold columns in H. rewrite Hf2, Ht in H. done.
    - rewrite bool_decide_eq_false_2 by (by intros [? ?]).
      rewrite andb_false_r. by repeat split; auto. }
  destruct Hk as (Hk1 & Hk2 & Hk3 & Hk4 & Hk5).
  set (st2 := add_keys aggregate add_id table st1) in *.
  assert (Hp : list_fields (prune table st2) = Own
    /\ table2columns (prune table st2) = t2c
    /\ (forall x, x ∈ own (prune table st2) -> x ∈ own st2)
    /\ (forall x, x ∈ own st2 ->
          Py.has_char "(" x = true \/ x ∈ default [] (t2c !! table)
          \/ t2c !! table = None ->
          x ∈ own (prune table st2))
    /\ (t2c !! table = None -> prune table st2 = st2)
    /\ (is_Some (t2c !! table) ->
          fields (prune table st2) = Py.join (py ", ") (own (prune table st2)))).
  { unfold prune. rewrite Hk2.
    destruct (t2c !! table) as [cols | ] eqn:Ht.
    - rewrite bool_decide_eq_true_2 by eauto. cbn zeta.
      destruct (for_in_prune_own table (length (load (list_fields st2) st2)) 0
                  st2 Hk1) as (Ho & Hd & Hin).
      destruct (for_in_prune_keeps table (length (load (list_fields st2) st2)) 0
                  st2 Hk1) as (Hsub & Hpar).
      set (st3 := for_in _ list_fields _ 0 st2) in *.
      unfold set_fields, load. cbn [fields list_fields own table2columns].
      rewrite Ho.
      repeat split; try done; try congruence.
      intros x Hx [H | [H | H]]; [by apply Hpar | | done].
      apply Hin; [ | done]. unfold columns. by rewrite Hk2, Ht.
    - rewrite bool_decide_eq_false_2 by (by intros [? ?]).
      repeat split; auto. by intros [? ?]. }
  destruct Hp as (Hp1 & Hp2 & Hp3 & Hp4 & Hp5 & Hp6).
  repeat split; [done | done | | | | | done].
  - intros x [H | H]%Hp3%Hk4; [ | by right; right].
    rewrite Hf3 in H. destruct (_ && _ && _) eqn:Hb; [ | by left].
    apply elem_of_app in H as [H | H]; [by left | ].
    apply list_elem_of_singleton in H. right. left.
    apply andb_prop in Hb as [[_ Ha%negb_true_iff]%andb_prop ->]. done.
  - intros x Hx H. apply Hp4; [ | done]. apply Hk3. rewrite Hf3.
    destruct (_ && _ && _); [ | done]. apply elem_of_app. by left.
  - by rewrite (Hp5 H), (Hk5 H), Hf3.
  - by rewrite (Hp5 H), (Hk5 H), Hf4.
Qed.

(** What a call returns, from what part 1 extracted. *)
Lemma sql2soql_outcome sql t2c add_id hard_limit (c : clauses) :
  parse sql = Ok c ->
  let st := fixup (c_aggregate c) add_id (c_table c)
              (State (c_fields c) Own (c_list_fields c) t2c) in
  exists o tail,
    sql2soql sql t2c add_id hard_limit = Ok o
    /\ statement o
       = py "SELECT " ++ fields st ++ py " FROM " ++ c_table c ++ py " " ++ tail
    /\ final_list o = load (list_fields st) st
    /\ final_dict o = table2columns st.
Proof.
  intros Hp st. unfold sql2soql. rewrite Hp. cbn [bind].
  eexists _, _. split; [done | ].
  cbn [statement final_list final_dict]. by rewrite assemble_select.
Qed.

(** The state after the rules, for a wildcard. *)
Lemma fixup_star sql (c : clauses) t2c add_id :
  parse sql = Ok c -> c_fields c = py "*" ->
  fixup (c_aggregate c) add_id (c_table c)
    (State (c_fields c) Own (c_list_fields c) t2c)
  = match t2c !! c_table c with
    | Some cols =>
        State (Py.join (py ", ") (star_columns add_id cols)) (Column (c_table c))
          [py "*"] (star_dict add_id (c_table c) cols t2c)
    | None => State (py "FIELDS(ALL)") Own [py "*"; py "Id"] t2c
    end.
Proof.
  intros Hp Hf. destruct (parse_star _ _ Hp Hf) as [-> ->]. rewrite Hf.
  destruct (t2c !! c_table c) as [cols | ] eqn:Ht.
  - by apply fixup_star_known.
  - by rewrite fixup_star_unknown.
Qed.

(** The schema mapping after a call.  It is as it was, whole, except in
    one case: a wildcard on a table whose schema has no [Id], with the key
    forced; then the entry of that table is the caller's list with [Id]
    appended to it. *)
Theorem schema_frame sql t2c add_id hard_limit (c : clauses) :
  parse sql = Ok c ->
  exists o,
    sql2soql sql t2c add_id hard_limit = Ok o
    /\ (c_fields c <> py "*" \/ add_id = false \/ t2c !! c_table c = None
        \/ (exists cols, t2c !! c_table c = Some cols /\ py "Id" ∈ cols) ->
        final_dict o = t2c)
    /\ (forall cols, c_fields c = py "*" -> add_id = true ->
          t2c !! c_table c = Some cols -> py "Id" ∉ cols ->
          final_dict o !! c_table c = Some (cols ++ [py "Id"])).
Proof.
  intros Hp.
  destruct (sql2soql_outcome sql t2c add_id hard_limit c Hp)
    as (o & tail & Ho & _ & _ & Hd).
  exists o. split; [done | ]. rewrite Hd. clear Ho Hd.
  destruct (decide (c_fields c = py "*")) as [Hf | Hf].
  - rewrite (fixup_star sql c t2c add_id Hp Hf).
    destruct (t2c !! c_table c) as [cols | ] eqn:Ht; cbn [table2columns].
    + unfold star_dict. split.
      * intros [H | [-> | [H | (cols' & [= <-] & Hin%mem_true)]]];
          [done | done | done | ].
        by rewrite Hin, andb_false_r.
      * intros cols' _ -> [= <-] Hin%mem_false. rewrite Hin.
        apply lookup_insert_eq.
    + split; [done | ]. intros cols' _ _ H. done.
  - destruct (fixup_own (c_aggregate c) add_id (c_table c) (c_fields c)
                (c_list_fields c) t2c Hf) as (_ & -> & _).
    split; [done | ]. intros cols' H. done.
Qed.

(** The entries of the final field list, for a field list that is not a
    wildcard: each one is an entry of the field list of the input, or was
    added by the key rules, which add [Id] and key columns of the schema, and
    only for a query that is not aggregate with the key forced. *)
Theorem field_list_origin sql t2c add_id hard_limit (c : clauses) :
  parse sql = Ok c -> c_fields c <> py "*" ->
  exists o,
    sql2soql sql t2c add_id hard_limit = Ok o
    /\ forall x, x ∈ final_list o ->
         x ∈ c_list_fields c
         \/ (c_aggregate c = false /\ add_id = true
             /\ (x = py "Id"
                 \/ exists cols, t2c !! c_table c = Some cols /\ x ∈ cols
                                 /\ is_key x = true)).
Proof.
  intros Hp Hf.
  destruct (sql2soql_outcome sql t2c add_id hard_limit c Hp)
    as (o & tail & Ho & _ & Hl & _).
  exists o. split; [done | ]. rewrite Hl. clear Ho Hl.
  destruct (fixup_own (c_aggregate c) add_id (c_table c) (c_fields c)
              (c_list_fields c) t2c Hf) as (-> & _ & Hin & _).
  cbn [load]. intros x [H | [(-> & Ha & Hi) | (H & Hk & Ha & Hi)]]%Hin.
  - by left.
  - right. repeat split; [done.. | by left].
  - right. repeat split; [done.. | ]. right.
    destruct (t2c !! c_table c) as [cols | ]; [by exists cols | ].
    by apply elem_of_nil in H.
Qed.

(** The entries that stay, for a field list that is not a wildcard: an
    entry of the input with a parenthesis in it, or that the schema of the
    table lists, or of a table without schema, is in the final field list. *)
Theorem field_list_kept sql t2c add_id hard_limit (c : clauses) x :
  parse sql = Ok c -> c_fields c <> py "*" -> x ∈ c_list_fields c ->
  Py.has_char "(" x = true \/ t2c !! c_table c = None
  \/ (exists cols, t2c !! c_table c = Some cols /\ x ∈ cols) ->
  exists o,
    sql2soql sql t2c add_id hard_limit = Ok o /\ x ∈ final_list o.
Proof.
  intros Hp Hf Hx Hc.
  destruct (sql2soql_outcome sql t2c add_id hard_limit c Hp)
    as (o & tail & Ho & _ & Hl & _).
  exists o. split; [done | ]. rewrite Hl. clear Ho Hl.
  destruct (fixup_own (c_aggregate c) add_id (c_table c) (c_fields c)
              (c_list_fields c) t2c Hf) as (-> & _ & _ & Hkeep & _).
  cbn [load]. apply Hkeep; [done | ].
  destruct Hc as [H | [H | (cols & H & Hin)]]; [by left | by right; right | ].
  right. left. by rewrite H.
Qed.

(** For a table with a schema the field text of the statement is the final
    field list joined by [", "], whatever the field text of the input was:
    the text is regenerated from the list. *)
Theorem known_table_field_text sql t2c add_id hard_limit (c : clauses) cols :
  parse sql = Ok c -> t2c !! c_table c = Some cols ->
  exists o tail,
    sql2soql sql t2c add_id hard_limit = Ok o
    /\ statement o
       = py "SELECT " ++ Py.join (py ", ") (final_list o) ++ py " FROM "
         ++ c_table c ++ py " " ++ tail.
Proof.
  intros Hp Ht.
  destruct (sql2soql_outcome sql t2c add_id hard_limit c Hp)
    as (o & tail & Ho & Hs & Hl & _).
  exists o, tail. split; [done | ]. rewrite Hs, Hl. clear Ho Hs Hl.
  do 2 f_equal.
  destruct (decide (c_fields c = py "*")) as [Hf | Hf].
  - rewrite (fixup_star sql c t2c add_id Hp Hf), Ht.
    cbn [fields list_fields load]. unfold columns, star_dict, star_columns.
    cbn [table2columns].
    destruct (add_id && _); [by rewrite lookup_insert_eq | by rewrite Ht].
  - destruct (fixup_own (c_aggregate c) add_id (c_table c) (c_fields c)
                (c_list_fields c) t2c Hf) as (-> & _ & _ & _ & _ & ->);
      [done | by eauto].
Qed.

(** For a table without schema, a field text that is neither a wildcard nor
    [count( * )] is in the statement as it was written, aliases included; it
    is followed by [", Id"] when the key is forced on a query that is not
    aggregate and no entry is [Id]. *)
Theorem unknown_table_field_text sql t2c add_id hard_limit (c : clauses) :
  parse sql = Ok c -> t2c !! c_table c = None ->
  c_fields c <> py "*" -> Py.lower (c_fields c) <> py "count(*)" ->
  exists o tail,
    sql2soql sql t2c add_id hard_limit = Ok o
    /\ (py "Id" ∉ c_list_fields c -> c_aggregate c = false -> add_id = true ->
          statement o
          = py "SELECT " ++ c_fields c ++ py ", Id FROM " ++ c_table c
            ++ py " " ++ tail
          /\ final_list o = c_list_fields c ++ [py "Id"])
    /\ (py "Id" ∈ c_list_fields c \/ c_aggregate c = true \/ add_id = false ->
          statement o
          = py "SELECT " ++ c_fields c ++ py " FROM " ++ c_table c
            ++ py " " ++ tail
          /\ final_list o = c_list_fields c).
Proof.
  intros Hp Ht Hf Hc.
  destruct (sql2soql_outcome sql t2c add_id hard_limit c Hp)
    as (o & tail & Ho & Hs & Hl & _).
  exists o, tail. split; [done | ]. rewrite Hs, Hl. clear Ho Hs Hl.
  destruct (fixup_own (c_aggregate c) add_id (c_table c) (c_fields c)
              (c_list_fields c) t2c Hf) as (-> & _ & _ & _ & Hu & _).
  cbn [load]. destruct (Hu Ht) as [-> ->]. clear Hu.
  unfold count_star. cbn [fields]. unfold Py.eqs.
  rewrite (bool_decide_eq_false_2 _ Hc). split.
  - intros Hid%mem_false -> ->. rewrite Hid. cbn [negb andb].
    split; [ | done]. by rewrite <- !app_assoc.
  - intros H.
    assert (negb (Py.mem (py "Id") (c_list_fields c)) && negb (c_aggregate c)
            && add_id = false) as ->; [ | done].
    destruct H as [->%mem_true | [-> | ->]]; [done | | ].
    + by rewrite andb_false_r.
    + by rewrite andb_false_r.
Qed.

End FieldFacts.

(** ** The clauses and the end of the statement *)

Module ClauseFacts.
Import Re ReFacts Sql2soql Spec Shape ParseFacts DateFacts ConstantFacts
  FixupFacts TranslatorFacts WhereFacts FieldFacts.

(** *** Stripping *)

Lemma lstrip_spec t :
  exists a, t = a ++ Py.lstrip t /\ spaces a
    /\ forall x, head (Py.lstrip t) = Some x -> Py.isspace x = false.
Proof.
  induction t as [ | c t (a & E & Ha & Hh)]; simpl.
  - exists []. repeat split; [constructor | done].
  - destruct (Py.isspace c) eqn:Hc.
    + exists (c :: a). repeat split; [by rewrite E at 1 | by constructor | done].
    + exists []. repeat split; [constructor | ]. by intros x [= <-].
Qed.

Lemma last_rev {A} (l : list A) : last (rev l) = head l.
Proof. destruct l as [ | x l]; simpl; [done | by rewrite last_snoc]. Qed.

Lemma rstrip_spec t :
  exists b, t = Py.rstrip t ++ b /\ spaces b /\ tidy_end (Py.rstrip t).
Proof.
  unfold Py.rstrip. destruct (lstrip_spec (rev t)) as (a & E & Ha & Hh).
  exists (rev a). repeat split.
  - by rewrite <- rev_app_distr, <- E, rev_involutive.
  - by apply Forall_rev.
  - intros x. rewrite last_rev. apply Hh.
Qed.

Lemma strip_spec t :
  exists a b, t = a ++ Py.strip t ++ b /\ spaces a /\ spaces b
    /\ trimmed (Py.strip t).
Proof.
  unfold Py.strip. destruct (lstrip_spec t) as (a & E & Ha & Hh).
  destruct (rstrip_spec (Py.lstrip t)) as (b & E' & Hb & Ht).
  exists a, b. repeat split; [by rewrite <- E' | done | done | | done].
  intros x Hx. apply Hh. rewrite E'.
  destruct (Py.rstrip (Py.lstrip t)); [done | done].
Qed.

(** The stripped start of a suffix of a text stands in the text. *)
Lemma strip_take_drop n k s :
  stripped_from s (Py.strip (take n (drop k s))).
Proof.
  destruct (strip_spec (take n (drop k s))) as (a & b & E & Ha & Hb & _).
  exists (take k s), a, b, (drop n (drop k s)). repeat split; [ | done..].
  rewrite <- (take_drop k s) at 1. f_equal.
  rewrite <- (take_drop n (drop k s)) at 1. rewrite E at 1.
  by rewrite <- !app_assoc.
Qed.

Lemma stripped_from_drop k s t :
  stripped_from (drop k s) t -> stripped_from s t.
Proof.
  intros (pre & a & b & post & E & Ha & Hb).
  exists (take k s ++ pre), a, b, post. repeat split; [ | done..].
  rewrite <- (take_drop k s) at 1. by rewrite E, <- app_assoc.
Qed.

(** *** The end of an optional clause *)

(** The three patterns that end a clause find a match in every text, at
    worst the empty one at its end, and record group 1. *)
Lemma alt_eos_last rs pos rest caps :
  at_eos rest = true -> matches (alt (rs ++ [Eos])) pos [] rest caps caps.
Proof.
  intros He. induction rs as [ | r rs IH]; simpl; [by constructor | ].
  destruct (rs ++ [Eos]) eqn:E; [by destruct rs | ].
  by apply M_alt_r.
Qed.

Lemma alt_eos_caps kws pos u rest caps caps' :
  matches (alt (map (word true) kws ++ [Eos])) pos u rest caps caps' ->
  caps' = caps.
Proof.
  induction kws as [ | kw kws IH]; simpl.
  - by intros (_ & _ & ->)%matches_eos_inv.
  - destruct (map (word true) kws ++ [Eos]) eqn:E; [by destruct kws | ].
    rewrite <- E in *.
    intros [M | M]%matches_alt_inv; [ | by apply IH].
    by apply matches_word_inv in M as [_ ->].
Qed.

Lemma clause_end_found kws t :
  exists m e1, search (clause_end kws) t = Some m /\ m_gend m 1 = Some e1.
Proof.
  assert (H : is_Some (search (clause_end kws) (t ++ [] ++ []))).
  { eapply search_complete. unfold clause_end. cbn [seq].
    eapply (M_cat _ _ _ [] []).
    - constructor. constructor. constructor.
    - eapply (M_cat _ _ _ [] []); [ | constructor].
      constructor. by apply alt_eos_last. }
  rewrite !app_nil_r in H. destruct H as [m Hm]. exists m.
  pose proof Hm as (a & u & rest & -> & M & _)%search_sound.
  unfold clause_end in M. cbn [seq] in M.
  apply matches_cat_inv in M as (u1 & u' & caps1 & -> & M1 & M).
  apply matches_grp_inv in M1 as (caps1' & -> & M1).
  apply matches_star_inv in M1 as [_ ->].
  apply matches_cat_inv in M as (u2 & u'' & caps2 & -> & M2 & M).
  apply matches_grp_inv in M2 as (caps2' & -> & M2).
  apply matches_eps_inv in M as [-> E].
  apply alt_eos_caps in M2 as ->.
  eexists. split; [done | ]. unfold m_gend. by rewrite E.
Qed.

(** An optional clause never raises; its text is trimmed and stands in
    the text scanned, of which the rest is a suffix. *)
Lemma clause_ok kw kws sql :
  exists p,
    clause kw (clause_end kws) sql = Ok p
    /\ (forall t, fst p = Some t -> trimmed t /\ stripped_from sql t)
    /\ exists n, snd p = drop n sql.
Proof.
  unfold clause. destruct (search kw sql) as [m | ].
  - destruct (clause_end_found kws (drop (m_end m) sql)) as (m' & e1 & -> & He).
    cbn [bind expect]. rewrite He. cbn [bind expect].
    eexists. split; [done | ]. cbn [fst snd]. split.
    + intros t [= <-]. split.
      * by destruct (strip_spec (take e1 (drop (m_end m) sql)))
          as (? & ? & _ & _ & _ & ?).
      * replace (take e1 (drop (m_end m) sql))
          with (take e1 (drop 0 (drop (m_end m) sql))) by done.
        eapply stripped_from_drop, strip_take_drop.
    + exists (m_end m + e1). by rewrite drop_drop.
  - eexists. split; [done | ]. split; [done | ]. by exists 0.
Qed.

(** *** The scan for a keyword and its argument *)

Lemma search_keyword_arg_sound kw p t m :
  search (keyword_arg kw p) t = Some m ->
  exists n pre w c sp post,
    m_group t m 2 = Some n
    /\ t = pre ++ w ++ (c :: sp) ++ n ++ post
    /\ Py.lower w = Py.lower kw /\ spaces (c :: sp)
    /\ n <> [] /\ Forall (fun c => p c = true) n.
Proof.
  intros (a & u & rest & -> & M & _)%search_sound.
  destruct m as [st en caps]. unfold m_group. simpl in *.
  unfold keyword_arg in M. cbn [seq] in M.
  apply matches_cat_inv in M as (u1 & u' & caps1 & -> & M1 & M).
  apply matches_grp_inv in M1 as (caps1' & -> & M1).
  apply matches_cat_inv in M1 as (w & sp & c1 & -> & Mw & Msp).
  apply matches_word_inv in Mw as [Hw ->].
  apply matches_plus_inv in Msp as (c & sp' & -> & Hc & Hsp & ->).
  apply matches_cat_inv in M as (n & u'' & caps2 & -> & M2 & M).
  apply matches_grp_inv in M2 as (caps2' & -> & M2).
  apply matches_plus_inv in M2 as (d & ds & -> & Hd & Hds & ->).
  apply matches_cat_inv in M as (tr & e & caps3 & -> & M3 & M).
  apply matches_star_inv in M3 as [Htr ->].
  apply matches_eps_inv in M as [-> ->].
  exists (d :: ds), a, w, c, sp', (tr ++ rest). simpl. repeat split; try done.
  - f_equal. rewrite <- (length_app a).
    replace (a ++ ((w ++ c :: sp') ++ d :: ds ++ tr ++ []) ++ rest)
      with ((a ++ w ++ c :: sp') ++ (d :: ds) ++ tr ++ rest)
      by (by rewrite <- !app_assoc; simpl; rewrite <- !app_assoc).
    apply (slice_middle (a ++ w ++ c :: sp') (d :: ds)).
  - by rewrite <- !app_assoc; simpl; rewrite <- !app_assoc.
  - by constructor.
  - by constructor.
Qed.

Lemma search_keyword_arg_complete kw p t pre w c sp n post :
  t = pre ++ w ++ (c :: sp) ++ n ++ post ->
  Py.lower w = Py.lower kw -> spaces (c :: sp) ->
  n <> [] -> Forall (fun c => p c = true) n ->
  is_Some (search (keyword_arg kw p) t).
Proof.
  intros -> Hw Hsp Hn Hd.
  destruct n as [ | d ds]; [done | ].
  apply Forall_cons in Hsp as [Hc Hsp]. apply Forall_cons in Hd as [Hd Hds].
  replace (pre ++ w ++ (c :: sp) ++ (d :: ds) ++ post)
    with (pre ++ ((w ++ c :: sp) ++ (d :: ds) ++ [] ++ []) ++ post)
    by (by rewrite <- !app_assoc).
  eapply search_complete. unfold keyword_arg. cbn [seq].
  eapply M_cat.
  { constructor. eapply M_cat; [by apply matches_word | by apply matches_plus]. }
  eapply M_cat; [constructor; by apply matches_plus | ].
  eapply (M_cat _ _ _ [] []); constructor. constructor.
Qed.

(** The scan for the table finds a table name after FROM, and finds one
    whenever there is one. *)
Lemma search_from_table_sound t m :
  search re_from t = Some m ->
  exists name, m_group t m 2 = Some name /\ table_after_from t name.
Proof.
  intros (n & pre & w & c & sp & post & Hg & E & Hw & Hsp & Hn & Hd)
    %(search_keyword_arg_sound (py "FROM") Py.isword).
  exists n. split; [done | ]. by exists pre, w, c, sp, post.
Qed.

Lemma search_from_table_complete t name :
  table_after_from t name -> is_Some (search re_from t).
Proof.
  intros (pre & w & c & sp & post & E & Hw & Hsp & Hn & Hd).
  by eapply (search_keyword_arg_complete (py "FROM") Py.isword).
Qed.

(** *** When the translation returns *)

Lemma parse_ok_intro sql m1 m2 e1 name :
  search re_select sql = Some m1 ->
  search re_fields (drop (m_end m1) sql) = Some m2 ->
  m_gend m2 1 = Some e1 ->
  table_after_from (drop e1 (drop (m_end m1) sql)) name ->
  exists c, parse sql = Ok c.
Proof.
  intros H1 H2 H3 [m3 H4]%search_from_table_complete.
  destruct (search_from_table_sound _ _ H4) as (table & Ht & _).
  unfold parse. rewrite H1. cbn [bind expect]. rewrite H2. cbn [bind expect].
  rewrite H3. cbn [bind expect]. rewrite H4. cbn [bind expect].
  rewrite Ht. cbn [bind expect].
  change re_where_end with (clause_end [py "GROUP"; py "ORDER"; py "LIMIT"]).
  change re_groupby_end with (clause_end [py "ORDER"; py "LIMIT"]).
  change re_orderby_end with (clause_end [py "LIMIT"]).
  destruct (clause_ok re_where [py "GROUP"; py "ORDER"; py "LIMIT"]
              (drop (m_end m3) (drop e1 (drop (m_end m1) sql))))
    as (w & -> & _). cbn [bind].
  destruct (clause_ok re_groupby [py "ORDER"; py "LIMIT"] (snd w))
    as (g & -> & _). cbn [bind].
  destruct (clause_ok re_orderby [py "LIMIT"] (snd g)) as (o & -> & _).
  cbn [bind]. by eexists.
Qed.

(** The call returns exactly when the scan for SELECT finds a match, the
    scan for the field list finds one in what follows, and the text from the
    end of the field list holds FROM, white space and a table name.  Nothing
    in the WHERE, GROUP BY, ORDER BY and LIMIT parts makes it raise. *)
Theorem translation_returns_iff sql t2c add_id hard_limit :
  (exists o, sql2soql sql t2c add_id hard_limit = Ok o)
  <-> exists m1 m2 e1 name,
        search re_select sql = Some m1
        /\ search re_fields (drop (m_end m1) sql) = Some m2
        /\ m_gend m2 1 = Some e1
        /\ table_after_from (drop e1 (drop (m_end m1) sql)) name.
Proof.
  split.
  - intros [o Ho]. unfold sql2soql in Ho.
    destruct (parse sql) as [c | ] eqn:Hp; [ | done].
    apply parse_inv in Hp
      as (m1 & m2 & e1 & m3 & w & g & o' & H1 & H2 & H3 & _ & _ & _ & H4 & Ht & _).
    exists m1, m2, e1, (c_table c). repeat split; [done.. | ].
    destruct (search_from_table_sound _ _ H4) as (name & Hn & Hta). congruence.
  - intros (m1 & m2 & e1 & name & H1 & H2 & H3 & H4).
    destruct (parse_ok_intro sql m1 m2 e1 name H1 H2 H3 H4) as [c Hp].
    unfold sql2soql. rewrite Hp. cbn [bind]. by eexists.
Qed.

(** The table part 1 extracts follows a FROM keyword in the input. *)
Lemma parse_table sql c :
  parse sql = Ok c -> table_after_from sql (c_table c).
Proof.
  intros (m1 & m2 & e1 & m3 & w & g & o' & _ & _ & _ & _ & _ & _ & H4 & Ht & _)
    %parse_inv.
  destruct (search_from_table_sound _ _ H4)
    as (name & Hn & pre & kw & x & sp & post & E & Hta).
  assert (name = c_table c) as -> by congruence.
  exists (take (m_end m1) sql ++ take e1 (drop (m_end m1) sql) ++ pre),
    kw, x, sp, post.
  split; [ | done].
  rewrite <- (take_drop (m_end m1) sql) at 1. rewrite <- app_assoc. f_equal.
  rewrite <- (take_drop e1 (drop (m_end m1) sql)) at 1.
  rewrite <- app_assoc. f_equal. done.
Qed.

(** The table of the result is a name of word characters, not empty, that
    follows a FROM keyword and white space in the input; the statement names
    it after its own FROM. *)
Theorem table_name_after_from sql t2c add_id hard_limit c :
  parse sql = Ok c ->
  exists o f tail,
    sql2soql sql t2c add_id hard_limit = Ok o
    /\ table_after_from sql (table_name o)
    /\ statement o
       = py "SELECT " ++ f ++ py " FROM " ++ table_name o ++ py " " ++ tail.
Proof.
  intros Hp.
  destruct (sql2soql_statement sql t2c add_id hard_limit c Hp)
    as (o & f & Ho & Ht & Hs).
  exists o, f. eexists. split; [done | ]. rewrite Ht.
  split; [by apply parse_table | ]. by rewrite Hs, assemble_select.
Qed.

(** The texts of the optional clauses: each is trimmed, and stands in
    the suffix of the input that its scan read. *)
Lemma parse_clauses sql c :
  parse sql = Ok c ->
  exists kw kg ko,
    (forall t, c_where c = Some t ->
       trimmed t /\ stripped_from (drop kw sql) t)
    /\ (forall t, c_groupby c = Some t ->
          trimmed t /\ stripped_from (drop kg sql) t)
    /\ (forall t, c_orderby c = Some t ->
          trimmed t /\ stripped_from (drop ko sql) t).
Proof.
  intros (m1 & m2 & e1 & m3 & w & g & o & _ & _ & _ & Hf & _ & _ & _ & _
          & Hw & Hg & Ho & Ew & Eg & Eo & _)%parse_inv.
  revert Hw Hg Ho.
  change re_where_end with (clause_end [py "GROUP"; py "ORDER"; py "LIMIT"]).
  change re_groupby_end with (clause_end [py "ORDER"; py "LIMIT"]).
  change re_orderby_end with (clause_end [py "LIMIT"]).
  intros Hw Hg Ho.
  destruct (clause_ok re_where [py "GROUP"; py "ORDER"; py "LIMIT"]
              (drop (m_end m3) (drop e1 (drop (m_end m1) sql))))
    as (w' & Hw' & Tw & nw & Rw).
  assert (w' = w) as -> by congruence.
  destruct (clause_ok re_groupby [py "ORDER"; py "LIMIT"] (snd w))
    as (g' & Hg' & Tg & ng & Rg).
  assert (g' = g) as -> by congruence.
  destruct (clause_ok re_orderby [py "LIMIT"] (snd g))
    as (o' & Ho' & To & _).
  assert (o' = o) as -> by congruence.
  rewrite Ew, Eg, Eo. rewrite Rg in To. rewrite Rw in Tg, To.
  exists (m_end m1 + (e1 + m_end m3)), (m_end m1 + (e1 + (m_end m3 + nw))),
    (m_end m1 + (e1 + (m_end m3 + (nw + ng)))).
  by rewrite <- !drop_drop.
Qed.

(** The texts part 1 extracts stand in the input, between the white space
    that was stripped from them, and have no white space at either end. *)
Theorem clause_texts_from_input sql c t :
  parse sql = Ok c ->
  t = c_fields c \/ c_where c = Some t \/ c_groupby c = Some t
  \/ c_orderby c = Some t ->
  trimmed t /\ stripped_from sql t.
Proof.
  intros Hp. destruct (parse_clauses sql c Hp) as (kw & kg & ko & Tw & Tg & To).
  apply parse_inv in Hp
    as (m1 & m2 & e1 & m3 & w & g & o & _ & _ & _ & Hf & _).
  intros [-> | [H | [H | H]]].
  - rewrite Hf. split; [ | apply strip_take_drop].
    by destruct (strip_spec (take e1 (drop (m_end m1) sql)))
      as (? & ? & _ & _ & _ & ?).
  - destruct (Tw t H) as [Htr Hs]. split; [done | ].
    by eapply stripped_from_drop.
  - destruct (Tg t H) as [Htr Hs]. split; [done | ].
    by eapply stripped_from_drop.
  - destruct (To t H) as [Htr Hs]. split; [done | ].
    by eapply stripped_from_drop.
Qed.

(** A query is taken as aggregate exactly when its field text holds, in
    any letter case, one of [count(], [avg(], [count_distinct(], [min(],
    [max(] and [sum(]. *)
Theorem aggregate_detected sql c :
  parse sql = Ok c -> c_aggregate c = true <-> aggregate_call (c_fields c).
Proof.
  intros (m1 & m2 & e1 & m3 & w & g & o & _ & _ & _ & _ & _ & -> & _)%parse_inv.
  rewrite bool_decide_eq_true. split.
  - intros [m (a & u & rest & E & M & _)%search_sound].
    exists a, u, rest. split; [done | ].
    unfold re_aggregate in M. apply matches_grp_inv in M as (caps1 & _ & M).
    unfold aggregate_names. cbn [alt] in M.
    repeat (apply matches_alt_inv in M as [M | M];
            [apply matches_word_inv in M as [M _]; simpl in M; rewrite M;
             set_solver | ]).
    apply matches_word_inv in M as [M _]. simpl in M. rewrite M. set_solver.
  - intros (pre & u & post & -> & Hu).
    eapply search_complete. unfold re_aggregate. constructor. cbn [alt].
    unfold aggregate_names in Hu.
    repeat (apply elem_of_cons in Hu as [Hu | Hu];
            [repeat (first [by apply M_alt_l, matches_word
                           | by apply matches_word | apply M_alt_r]) | ]).
    by apply elem_of_nil in Hu.
Qed.

(** *** The end of the statement *)

Lemma word_not_space x : Py.isword x = true -> Py.isspace x = false.
Proof.
  destruct x as [[] [] [] [] [] [] [] []]; vm_compute; congruence.
Qed.

Lemma string_of_uint_digits d : digits (py (DecimalString.NilEmpty.string_of_uint d)).
Proof. induction d; simpl; by constructor. Qed.

(** [str(n)] of a positive integer is a numeral. *)
Lemma str_of_int_digits n :
  (0 < n)%Z -> Py.str_of_int n <> [] /\ digits (Py.str_of_int n).
Proof.
  intros Hn. destruct n as [ | p | p]; [lia | | lia].
  unfold Py.str_of_int. cbn [Z.to_int NilZero.string_of_int].
  unfold NilZero.string_of_uint.
  destruct (Pos.to_uint p) eqn:E;
    (split; [done | rewrite <- ?E; try apply string_of_uint_digits]).
  by repeat constructor.
Qed.

(** The date rules leave a text that is not empty not empty. *)
Lemma unquote_dates_not_nil fuel : forall w,
  w <> [] -> unquote_dates fuel w <> [].
Proof.
  induction fuel as [ | fuel IH]; intros w Hw; simpl; [done | ].
  destruct (search pat_date1 w) as [m | ] eqn:Hs; [ | done].
  destruct (unquote_turn _ _ Hs) as (a & b & B & -> & Hb & ->).
  apply IH. destruct (date_body_last _ Hb) as (b' & z & -> & _).
  intros H. apply app_eq_nil in H as [_ H]. apply app_eq_nil in H as [H _].
  by destruct b'.
Qed.

Lemma fix_where_not_nil w : w <> [] -> fix_where w <> [].
Proof.
  intros Hw. apply unquote_dates_not_nil.
  destruct (fix_constants_fixed w) as (a1 & a2 & a3 & a4 & H1 & H2 & H3 & H4 & H5).
  intros E. rewrite E in H5.
  apply rewritten_nil_inv in H5 as ->; [ | done].
  apply rewritten_nil_inv in H4 as ->; [ | done].
  apply rewritten_nil_inv in H3 as ->; [ | done].
  apply rewritten_nil_inv in H2 as ->; [ | done].
  by apply rewritten_nil_inv in H1 as ->.
Qed.

Lemma fix_where_tidy w : tidy_end w -> tidy_end (fix_where w).
Proof.
  intros Hw. apply fix_dates_tidy.
  by eapply constants_fixed_tidy; [apply fix_constants_fixed | ].
Qed.

(** A text with a tidy end, then a space. *)
Lemma one_space_after head x :
  x <> [] -> tidy_end x -> one_trailing_space (head ++ x ++ py " ").
Proof.
  intros Hx Ht. destruct (last x) as [y | ] eqn:Hl.
  - apply last_Some in Hl as [x' ->]. exists (head ++ x'), y.
    split; [by rewrite <- !app_assoc | ]. apply Ht. by rewrite last_snoc.
  - by apply last_None in Hl.
Qed.

(** The statement up to its limit ends with a space, the text of its last
    clause and a space. *)
Lemma statement_last f table w g o :
  exists body,
    py "SELECT " ++ f ++ py " FROM " ++ table ++ py " "
    ++ emit (py "WHERE ") w ++ emit (py "GROUP BY ") g
    ++ emit (py "ORDER BY ") o
    = body ++ py " " ++ last_text table w g o ++ py " ".
Proof.
  destruct o as [x | ]; [ | destruct g as [y | ]; [ | destruct w as [z | ]]];
    cbn [emit last_text]; rewrite ?app_nil_r.
  - exists (py "SELECT " ++ f ++ py " FROM " ++ table ++ py " "
            ++ emit (py "WHERE ") w ++ emit (py "GROUP BY ") g ++ py "ORDER BY").
    change (py "ORDER BY ") with (py "ORDER BY" ++ py " ").
    by rewrite <- !app_assoc.
  - exists (py "SELECT " ++ f ++ py " FROM " ++ table ++ py " "
            ++ emit (py "WHERE ") w ++ py "GROUP BY").
    change (py "GROUP BY ") with (py "GROUP BY" ++ py " ").
    by rewrite <- !app_assoc.
  - exists (py "SELECT " ++ f ++ py " FROM " ++ table ++ py " " ++ py "WHERE").
    change (py "WHERE ") with (py "WHERE" ++ py " ").
    by rewrite <- !app_assoc.
  - exists (py "SELECT " ++ f ++ py " FROM").
    change (py " FROM ") with (py " FROM" ++ py " ").
    by rewrite <- !app_assoc.
Qed.

(** The last text of the statement against the last text of the input. *)
Lemma last_text_fixed sql c :
  parse sql = Ok c ->
  let t := last_text (c_table c) (c_where c) (c_groupby c) (c_orderby c) in
  let t' := last_text (c_table c) (fix_where <$> c_where c) (c_groupby c)
              (c_orderby c) in
  tidy_end t' /\ (t <> [] -> t' <> []) /\ (t = [] -> t' = []).
Proof.
  intros Hp. destruct (parse_clauses sql c Hp) as (kw & kg & ko & Tw & Tg & To).
  destruct (parse_table sql c Hp) as (_ & _ & _ & _ & _ & _ & _ & _ & Hn & Hw).
  destruct (c_orderby c) as [x | ]; [ | destruct (c_groupby c) as [y | ];
    [ | destruct (c_where c) as [z | ]]]; cbn [last_text fmap option_fmap option_map].
  - split; [ | done]. by apply (To x).
  - split; [ | done]. by apply (Tg y).
  - split; [ | split].
    + apply fix_where_tidy. by apply (Tw z).
    + apply fix_where_not_nil.
    + by intros ->.
  - split; [ | done]. intros x Hx. apply word_not_space.
    apply last_Some in Hx as [l Hl]. rewrite Hl in Hw.
    apply Forall_app in Hw as [_ Hw]. by apply Forall_cons in Hw as [Hw _].
Qed.

(** The end of the statement.  With a limit, the statement ends with a
    space, LIMIT, a space and the numeral.  Without one, it ends with the
    text of its last clause, or the table, and a space; this is the only
    white space at its end unless that text is empty, and then the statement
    ends with two spaces. *)
Theorem statement_ending sql t2c add_id hard_limit c :
  parse sql = Ok c ->
  exists o,
    sql2soql sql t2c add_id hard_limit = Ok o
    /\ (forall n, resolve_limit (c_limit c) (c_aggregate c) hard_limit = Some n ->
          n <> [] /\ digits n
          /\ exists head, statement o = head ++ py " LIMIT " ++ n)
    /\ (resolve_limit (c_limit c) (c_aggregate c) hard_limit = None ->
        let t := last_text (c_table c) (c_where c) (c_groupby c) (c_orderby c) in
        (t <> [] -> one_trailing_space (statement o))
        /\ (t = [] -> exists body, statement o = body ++ py "  ")).
Proof.
  intros Hp.
  destruct (sql2soql_statement sql t2c add_id hard_limit c Hp)
    as (o & f & Ho & _ & Hs).
  exists o. split; [done | ]. rewrite Hs, assemble_select. clear Ho Hs.
  destruct (statement_last f (c_table c) (fix_where <$> c_where c)
              (c_groupby c) (c_orderby c)) as [body Hb].
  rewrite !app_assoc in Hb. rewrite !app_assoc. rewrite Hb. clear Hb.
  destruct (last_text_fixed sql c Hp) as (Ht & Hne & He).
  split.
  - intros n Hn. rewrite Hn. cbn [emit_limit]. split; [ | split].
    + unfold resolve_limit in Hn. pose proof (parse_limit sql c Hp) as Hl.
      destruct (c_limit c) as [n' | ].
      * injection Hn as <-. by destruct Hl as (? & ? & ? & ? & ? & _ & _ & _ & ? & _).
      * destruct (negb _ && (0 <? hard_limit)%Z) eqn:Hh; [ | done].
        injection Hn as <-. apply andb_prop in Hh as [_ Hh%Z.ltb_lt].
        by apply str_of_int_digits.
    + unfold resolve_limit in Hn. pose proof (parse_limit sql c Hp) as Hl.
      destruct (c_limit c) as [n' | ].
      * injection Hn as <-. by destruct Hl as (? & ? & ? & ? & ? & _ & _ & _ & _ & ?).
      * destruct (negb _ && (0 <? hard_limit)%Z) eqn:Hh; [ | done].
        injection Hn as <-. apply andb_prop in Hh as [_ Hh%Z.ltb_lt].
        by apply str_of_int_digits.
    + exists ((body ++ py " ")
              ++ last_text (c_table c) (fix_where <$> c_where c) (c_groupby c)
                   (c_orderby c)).
      change (py " LIMIT ") with (py " " ++ py "LIMIT ").
      by rewrite <- !app_assoc.
  - intros ->. cbn [emit_limit]. rewrite app_nil_r. split.
    + intros H. rewrite <- !app_assoc. rewrite (app_assoc body).
      apply one_space_after; [by apply Hne | done].
    + intros H. rewrite (He H). exists body. by rewrite <- !app_assoc.
Qed.

(** *** [count( * )] *)

(** The characters a given lower-case character comes from. *)
Lemma lower_char_inv x y :
  Py.lower_char x = y -> x = y \/ x = ascii_of_nat (Py.code y - 32).
Proof.
  intros <-. destruct x as [[] [] [] [] [] [] [] []]; vm_compute; auto.
Qed.

Ltac lower_case H :=
  let E := fresh in
  destruct (lower_char_inv _ _ H) as [E | E]; subst; vm_compute in H;
  first [discriminate H | clear H].

(** A field text that is [count( * )] in some letter case is one entry, an
    aggregate call. *)
Lemma lower_count_star f :
  Py.lower f = py "count(*)" ->
  Py.has_char "(" f = true /\ f <> py "*"
  /\ omap (fun m => m_group f m 1) (finditer re_field f) = [f]
  /\ bool_decide (is_Some (search re_aggregate f)) = true.
Proof.
  intros H.
  do 8 (destruct f as [ | ? f]; [discriminate H | ]).
  destruct f; [ | discriminate H].
  injection H as H1 H2 H3 H4 H5 H6 H7 H8.
  lower_case H1; lower_case H2; lower_case H3; lower_case H4; lower_case H5;
    lower_case H6; lower_case H7; lower_case H8;
    by vm_compute.
Qed.

(** The rules on a field list of one entry, an aggregate call. *)
Lemma fixup_one_call (f : str) (t2c : gmap str (list str)) (table : str)
    (add_id : bool) :
  f <> py "*" -> Py.has_char "(" f = true ->
  fixup true add_id table (State f Own [f] t2c)
  = State (if bool_decide (is_Some (t2c !! table)) then f
           else fields (count_star (State f Own [f] t2c)))
      Own [f] t2c.
Proof.
  intros Hf Hc. unfold fixup. rewrite expand_star_other by done.
  assert (E1 : force_id true add_id (count_star (State f Own [f] t2c))
               = count_star (State f Own [f] t2c)).
  { unfold force_id. cbn [negb]. by rewrite andb_false_r. }
  rewrite E1. unfold add_keys. cbn [negb andb].
  assert (E0 : count_star (State f Own [f] t2c)
               = State (fields (count_star (State f Own [f] t2c))) Own [f] t2c).
  { unfold count_star. by destruct (Py.eqs _ _). }
  rewrite E0 at 1. unfold prune. cbn [table2columns].
  destruct (bool_decide (is_Some (t2c !! table))); [ | done].
  cbn [load list_fields own length for_in lookup list_lookup].
  unfold prune_one. rewrite Hc. cbn [negb for_in]. done.
Qed.

(** A field text [count( * )], in any letter case, becomes [count()] for a
    table without schema.  For a table with a schema it stays as written:
    the field text is regenerated from the field list, whose entry was not
    rewritten. *)
Theorem count_star_statement sql t2c add_id hard_limit (c : clauses) :
  parse sql = Ok c -> Py.lower (c_fields c) = py "count(*)" ->
  exists o tail,
    sql2soql sql t2c add_id hard_limit = Ok o
    /\ final_list o = [c_fields c]
    /\ (t2c !! c_table c = None ->
          statement o
          = py "SELECT count() FROM " ++ c_table c ++ py " " ++ tail)
    /\ (is_Some (t2c !! c_table c) ->
          statement o
          = py "SELECT " ++ c_fields c ++ py " FROM " ++ c_table c ++ py " "
            ++ tail).
Proof.
  intros Hp Hl.
  destruct (sql2soql_outcome sql t2c add_id hard_limit c Hp)
    as (o & tail & Ho & Hs & Hf & _).
  exists o, tail. split; [done | ]. rewrite Hs, Hf. clear Ho Hs Hf.
  destruct (lower_count_star _ Hl) as (Hc & Hne & Hlist & Hagg).
  pose proof Hp as (m1 & m2 & e1 & m3 & w & g & o' & _ & _ & _ & _ & El & Ea & _)
    %parse_inv.
  rewrite Hlist in El. rewrite Hagg in Ea. rewrite El, Ea.
  rewrite (fixup_one_call _ t2c (c_table c) add_id Hne Hc).
  cbn [fields list_fields load own]. split; [done | ].
  unfold count_star. cbn [fields]. unfold Py.eqs.
  rewrite (bool_decide_eq_true_2 _ Hl). cbn [set_fields fields]. split.
  - intros Ht. by rewrite bool_decide_eq_false_2 by (rewrite Ht; by intros [? ?]).
  - intros Ht. by rewrite bool_decide_eq_true_2.
Qed.

End ClauseFacts.

(** ** The field list, exactly *)

Module FieldListFacts.
Import Re ReFacts Sql2soql Spec Shape ParseFacts FixupFacts
  TranslatorFacts FieldFacts ClauseFacts.

(** *** The scan of the field list *)

(** Every match of [re.findall] is an attempt that succeeded somewhere in
    the text. *)
Lemma finditer_from_sound r : forall t skip off m,
  m ∈ finditer_from r skip t off ->
  exists a t', t = a ++ t' /\ match_at r t' (off + length a) = Some m.
Proof.
  induction t as [ | c t IH]; intros skip off m; simpl.
  - destruct skip; [ | by intros ?%elem_of_nil].
    destruct (match_at r [] off) as [m' | ] eqn:E; [ | by intros ?%elem_of_nil].
    intros ->%list_elem_of_singleton. exists [], []. simpl.
    by rewrite Nat.add_0_r.
  - assert (Hrec : forall k, m ∈ finditer_from r k t (S off) ->
              exists a t', c :: t = a ++ t'
                           /\ match_at r t' (off + length a) = Some m).
    { intros k (a & t' & -> & H)%IH. exists (c :: a), t'. split; [done | ].
      simpl. by rewrite <- Nat.add_succ_comm. }
    destruct skip as [ | k]; [ | apply Hrec].
    destruct (match_at r (c :: t) off) as [m' | ] eqn:E; [ | apply Hrec].
    intros [-> | H]%elem_of_cons; [ | by eapply Hrec].
    exists [], (c :: t). simpl. by rewrite Nat.add_0_r.
Qed.

Lemma lower_is_symbol c x :
  x = "*"%char \/ x = "("%char \/ x = ")"%char ->
  Py.lower_char c = Py.lower_char x -> c = x.
Proof.
  intros [-> | [-> | ->]];
    destruct c as [[] [] [] [] [] [] [] []]; vm_compute; congruence.
Qed.

(** *** The matcher on the field pattern

    The text in parentheses is matched by a lazy repetition, and what
    follows it in the pattern matches everywhere: the matcher itself is
    followed here, since the relation [matches] knows no priority. *)

Section Lazy.
Context {R : Type}.
Implicit Types (k : str -> nat -> captures -> option R).

(** The matcher, pattern by pattern. *)
Lemma rmatch_cat r1 r2 t pos caps k :
  rmatch (Cat r1 r2) t pos caps k
  = rmatch r1 t pos caps (fun t' pos' caps' => rmatch r2 t' pos' caps' k).
Proof. done. Qed.

Lemma rmatch_alt r1 r2 t pos caps k :
  rmatch (Alt r1 r2) t pos caps k
  = match rmatch r1 t pos caps k with
    | Some x => Some x
    | None => rmatch r2 t pos caps k
    end.
Proof. done. Qed.

Lemma rmatch_grp n r t pos caps k :
  rmatch (Grp n r) t pos caps k
  = rmatch r t pos caps (fun t' pos' caps' => k t' pos' ((n, (pos, pos')) :: caps')).
Proof. done. Qed.

(** A lazy repetition stops at the first place where the rest of the
    pattern matches: the continuation failed at every place before. *)
Lemma lazy_star_first p k caps (x : R) : forall t pos,
  rmatch (Star false p) t pos caps k = Some x ->
  exists u rest,
    t = u ++ rest /\ Forall (fun c => p c = true) u
    /\ k rest (pos + length u) caps = Some x
    /\ forall u1 c u2, u = u1 ++ c :: u2 ->
         k (c :: u2 ++ rest) (pos + length u1) caps = None.
Proof.
  induction t as [ | c t IH]; intros pos H; simpl in H.
  - destruct (k [] pos caps) as [y | ] eqn:Hk; [ | done].
    injection H as ->. exists [], []. rewrite Nat.add_0_r.
    repeat split; [done.. | ]. intros u1 c u2 E. by destruct u1.
  - destruct (k (c :: t) pos caps) as [y | ] eqn:Hk.
    + injection H as ->. exists [], (c :: t). rewrite Nat.add_0_r.
      repeat split; [done.. | ]. intros u1 c' u2 E. by destruct u1.
    + destruct (p c) eqn:Hp; [ | done].
      apply IH in H as (u & rest & -> & Hu & Hk' & Hmin).
      exists (c :: u), rest. simpl. rewrite <- Nat.add_succ_comm.
      repeat split; [by constructor | done | ].
      intros u1 c' u2 E. destruct u1 as [ | c1 u1]; simpl in E.
      * injection E as <- <-. by rewrite Nat.add_0_r.
      * injection E as <- ->. simpl. rewrite <- Nat.add_succ_comm.
        by apply Hmin.
Qed.

End Lazy.

(** The end of the field pattern, [\s*], matches everywhere, and adds no
    group. *)
Lemma field_end_total off t pos caps :
  is_Some (rmatch (Cat (star ws) Eps) t pos caps
             (fun _ e caps' => Some (Match off e caps'))).
Proof.
  apply (rmatch_complete (Cat (star ws) Eps) pos [] t caps caps).
  - apply (M_cat _ _ pos [] [] t caps caps caps); [by apply M_star | apply M_eps].
  - by eexists.
Qed.

Lemma field_end_caps off t pos caps m :
  rmatch (Cat (star ws) Eps) t pos caps
    (fun _ e caps' => Some (Match off e caps')) = Some m ->
  m_caps m = caps.
Proof.
  intros (u & rest & caps' & -> & M & H)%rmatch_sound.
  injection H as <-. simpl.
  apply matches_cat_inv in M as (u1 & u2 & caps1 & -> & M1 & M2).
  apply matches_star_inv in M1 as [_ ->].
  by apply matches_eps_inv in M2 as [_ ->].
Qed.

Lemma chr_symbol c x :
  c = "*"%char \/ c = "("%char \/ c = ")"%char ->
  Py.eqc (Py.lower_char x) (Py.lower_char c) = true <-> x = c.
Proof.
  intros Hc. unfold Py.eqc. rewrite bool_decide_eq_true. split.
  - intros H. by apply lower_is_symbol.
  - by intros ->.
Qed.

(** What one match of the field pattern gives. *)
Lemma field_match_sound a t' m :
  match_at re_field t' (length a) = Some m ->
  exists x pre post,
    m_group (a ++ t') m 1 = Some x /\ field_entry x
    /\ a ++ t' = pre ++ x ++ post.
Proof.
  unfold match_at, re_field. cbn [seq]. rewrite rmatch_cat.
  intros (sp1 & rest1 & caps1 & -> & M1 & H)%rmatch_sound.
  apply matches_star_inv in M1 as [Hsp1 ->].
  rewrite rmatch_cat, rmatch_grp in H.
  set (pos1 := length a + length sp1) in *.
  (* the group found, from the place where it ends *)
  assert (Hend : forall x rest caps,
    rest1 = x ++ rest ->
    rmatch (Cat (star ws) Eps) rest (pos1 + length x)
      ((1, (pos1, pos1 + length x)) :: caps)
      (fun _ e caps' => Some (Match (length a) e caps')) = Some m ->
    m_group (a ++ sp1 ++ rest1) m 1 = Some x
    /\ a ++ sp1 ++ rest1 = (a ++ sp1) ++ x ++ rest).
  { intros x rest caps -> Hm. apply field_end_caps in Hm.
    unfold m_group. rewrite Hm. cbn [cap_lookup Nat.eqb fmap option_fmap option_map fst snd].
    split; [ | by rewrite <- !app_assoc]. f_equal.
    subst pos1. rewrite <- length_app.
    replace (a ++ sp1 ++ x ++ rest) with ((a ++ sp1) ++ x ++ rest)
      by (by rewrite <- !app_assoc).
    apply (slice_middle (a ++ sp1) x). }
  rewrite rmatch_alt in H.
  match type of H with
  | match ?e with _ => _ end = _ => destruct e as [y | ] eqn:Hstar
  end.
  - (* the wildcard *)
    injection H as ->.
    apply rmatch_sound in Hstar as (u & rest & caps' & E & M & H).
    apply matches_chr_inv in M as (c & -> & Hc & ->).
    apply chr_symbol in Hc as ->; [ | auto].
    destruct (Hend (py "*") rest [] E H) as [Hg Hs].
    exists (py "*"), (a ++ sp1), rest. repeat split; [done | by left | done].
  - clear Hstar. rewrite rmatch_cat in H.
    apply rmatch_sound in H as (w & rest2 & caps2 & E2 & Mw & H).
    apply matches_plus_inv in Mw as (c & w' & -> & Hc & Hw & ->).
    unfold opt in H. rewrite rmatch_alt in H.
    match type of H with
    | match ?e with _ => _ end = _ => destruct e as [y | ] eqn:Hpar
    end.
    + (* a text in parentheses *)
      injection H as ->. rewrite rmatch_grp in Hpar. cbn [seq] in Hpar.
      rewrite rmatch_cat in Hpar.
      apply rmatch_sound in Hpar as (o1 & rest3 & caps3 & E3 & Mo & H).
      apply matches_chr_inv in Mo as (c1 & -> & H1 & ->).
      apply chr_symbol in H1 as ->; [ | auto].
      rewrite rmatch_cat in H.
      apply lazy_star_first in H as (mid & rest4 & E4 & Hmid & H & Hmin).
      rewrite rmatch_cat in H.
      apply rmatch_sound in H as (c2 & rest5 & caps5 & E5 & Mc & H).
      apply matches_chr_inv in Mc as (c3 & -> & H3 & ->).
      apply chr_symbol in H3 as ->; [ | auto].
      cbn [rmatch] in H.
      set (x := (c :: w') ++ "("%char :: mid ++ [")"%char]).
      assert (Ex : rest1 = x ++ rest5).
      { subst x. rewrite E2, E3, E4, E5. simpl. rewrite <- !app_assoc. simpl.
        by rewrite <- !app_assoc. }
      assert (Hlen : pos1 + length x
                     = pos1 + length (c :: w') + length ["("%char]
                       + length mid + length [")"%char]).
      { subst x. rewrite !length_app. simpl. rewrite !length_app. simpl. lia. }
      rewrite <- Hlen in H.
      destruct (Hend x rest5 _ Ex H) as [Hg Hs].
      exists x, (a ++ sp1), rest5. repeat split; [done | | done].
      right. exists (c :: w'), ("("%char :: mid ++ [")"%char]).
      repeat split; [done | by constructor | ].
      right. exists mid. repeat split.
      * intros (u1 & u2 & E)%list_elem_of_split.
        specialize (Hmin u1 ")"%char u2 E).
        rewrite rmatch_cat in Hmin. unfold chr in Hmin. cbn [rmatch] in Hmin.
        replace (Py.eqc (Py.lower_char ")") (Py.lower_char ")")) with true
          in Hmin by done.
        match type of Hmin with
        | rmatch _ ?t ?p ?cs _ = None =>
            destruct (field_end_total (length a) t p cs) as [z Hz]
        end.
        enough (Some z = None) by done. rewrite <- Hz. exact Hmin.
      * intros Hn. rewrite Forall_forall in Hmid. by apply Hmid in Hn.
    + (* a name alone *)
      clear Hpar. cbn [rmatch] in H.
      set (x := c :: w') in *.
      destruct (Hend x rest2 [] E2 H) as [Hg Hs].
      exists x, (a ++ sp1), rest2. repeat split; [done | | done].
      right. exists x, []. rewrite app_nil_r.
      repeat split; [done | by constructor | by left].
Qed.

(** Every entry of the field list is a piece of the field text of the
    input: [*], or a name of word characters and dots, which one text in
    parentheses may follow, and that text ends at the first closing
    parenthesis after the opening one.  So an entry has no white space and
    no comma outside parentheses, and an alias is an entry of its own. *)
Theorem field_entries_shape sql c x :
  parse sql = Ok c -> x ∈ c_list_fields c ->
  field_entry x /\ exists pre post, c_fields c = pre ++ x ++ post.
Proof.
  intros (m1 & m2 & e1 & m3 & w & g & o & _ & _ & _ & _ & -> & _)%parse_inv.
  intros (m & Hm & Hx)%list_elem_of_omap.
  unfold finditer in Hm.
  apply finditer_from_sound in Hm as (a & t' & E & Hm). simpl in Hm.
  apply field_match_sound in Hm as (x' & pre & post & Hg & He & Hs).
  rewrite <- E in Hg, Hs. assert (x' = x) as -> by congruence.
  split; [done | eauto].
Qed.

(** *** The pruning loop on a spaced list *)

Implicit Types (cols l : list str) (table : str) (aggregate add_id : bool).

Lemma spaced_tail cols x l : spaced cols (x :: l) -> spaced cols l.
Proof. destruct l; simpl; [done | by intros [_ ?]]. Qed.

Lemma remove_first (c : str) (done_ todo : list str) :
  c ∉ done_ -> Py.remove c (done_ ++ c :: todo) = done_ ++ todo.
Proof.
  induction done_ as [ | y done_ IH]; simpl; intros Hn.
  - unfold Py.eqs. by rewrite bool_decide_eq_true_2.
  - unfold Py.eqs. rewrite bool_decide_eq_false_2.
    + rewrite IH; [done | ]. intros H. apply Hn. by right.
    + intros ->. apply Hn. by left.
Qed.

Lemma prune_one_cases table cols (c f : str) l (d : gmap str (list str)) :
  d !! table = Some cols ->
  prune_one table c (State f Own l d)
  = if unknown cols c then State f Own (Py.remove c l) d else State f Own l d.
Proof.
  intros Hd. unfold prune_one, unknown, columns, lf_remove, store, load.
  cbn [fields list_fields own table2columns]. rewrite Hd.
  cbn [default from_option id].
  destruct (negb (Py.has_char "(" c)); [ | done].
  cbn [andb]. by destruct (negb (Py.mem c cols)).
Qed.

Lemma for_in_prune_spaced table cols (f : str) (d : gmap str (list str)) :
  d !! table = Some cols ->
  forall fuel todo done_,
    Forall (fun x => unknown cols x = false) done_ ->
    spaced cols todo -> length todo <= fuel ->
    for_in fuel list_fields (prune_one table) (length done_)
      (State f Own (done_ ++ todo) d)
    = State f Own (done_ ++ filter (fun x => unknown cols x = false) todo) d.
Proof.
  intros Hd. induction fuel as [ | fuel IH]; intros todo done_ Hdone Hsp Hl.
  - destruct todo; [ | simpl in Hl; lia]. by rewrite filter_nil.
  - cbn [for_in list_fields load own].
    destruct todo as [ | c todo].
    + rewrite filter_nil, !app_nil_r. by rewrite lookup_ge_None_2 by lia.
    + rewrite lookup_app_r by lia. rewrite Nat.sub_diag. cbn [lookup list_lookup].
      rewrite (prune_one_cases table cols) by done.
      destruct (unknown cols c) eqn:Hc.
      * rewrite filter_cons. rewrite decide_False by congruence.
        rewrite remove_first.
        2:{ intros Hin. eapply Forall_forall in Hdone; [ | done]. congruence. }
        destruct todo as [ | y todo].
        { rewrite filter_nil, !app_nil_r. destruct fuel; [done | ].
          cbn [for_in list_fields load own].
          by rewrite lookup_ge_None_2 by lia. }
        destruct Hsp as [Hy Hsp]. specialize (Hy Hc).
        rewrite filter_cons. rewrite decide_True by done.
        replace (done_ ++ y :: todo) with ((done_ ++ [y]) ++ todo)
          by (by rewrite <- app_assoc).
        replace (S (length done_)) with (length (done_ ++ [y]))
          by (rewrite length_app; simpl; lia).
        rewrite IH.
        -- by rewrite <- app_assoc.
        -- apply Forall_app. split; [done | by constructor].
        -- by eapply spaced_tail.
        -- simpl in Hl. lia.
      * rewrite filter_cons. rewrite decide_True by done.
        replace (done_ ++ c :: todo) with ((done_ ++ [c]) ++ todo)
          by (by rewrite <- app_assoc).
        replace (S (length done_)) with (length (done_ ++ [c]))
          by (rewrite length_app; simpl; lia).
        rewrite IH.
        -- by rewrite <- app_assoc.
        -- apply Forall_app. split; [done | by constructor].
        -- by eapply spaced_tail.
        -- simpl in Hl. lia.
Qed.

(** Pruning a spaced list removes its unknown entries, all of them. *)
Lemma prune_spaced table cols (f : str) l (d : gmap str (list str)) :
  d !! table = Some cols -> spaced cols l ->
  prune table (State f Own l d)
  = State (Py.join (py ", ") (filter (fun x => unknown cols x = false) l)) Own
      (filter (fun x => unknown cols x = false) l) d.
Proof.
  intros Hd Hsp. unfold prune. cbn [table2columns]. rewrite Hd.
  rewrite bool_decide_eq_true_2 by eauto. cbn zeta.
  cbn [load list_fields own].
  pose proof (for_in_prune_spaced table cols f d Hd (length l) l []
                (Forall_nil_2 _) Hsp (le_n _)) as H.
  cbn [app length] in H. by rewrite H.
Qed.

(** *** The loop over the key columns *)

Lemma filter_ext_in {B} (P Q : B -> Prop) `{forall x, Decision (P x)}
    `{forall x, Decision (Q x)} (l : list B) :
  (forall x, x ∈ l -> P x <-> Q x) -> filter P l = filter Q l.
Proof.
  induction l as [ | x l IH]; intros Hl; [done | ].
  rewrite !filter_cons.
  rewrite IH by (intros y Hy; apply Hl; by right).
  destruct (decide (P x)) as [HP | HP], (decide (Q x)) as [HQ | HQ];
    try done; exfalso; apply (Hl x) in HP || apply (Hl x) in HQ;
    try done; by left.
Qed.

Lemma add_key_cases (x f : str) l (d : gmap str (list str)) :
  exists f', add_key x (State f Own l d) = State f' Own (add_key_to l x) d.
Proof.
  unfold add_key, add_key_to, is_key, lf_append, set_fields, store, load.
  cbn [fields list_fields own table2columns].
  destruct (_ || _); [ | by eexists].
  destruct (negb _); by eexists.
Qed.

Lemma for_in_add_key_exact table cols (d : gmap str (list str)) :
  d !! table = Some cols ->
  forall fuel i (f : str) l,
    exists f',
      for_in fuel (fun _ => Column table) add_key i (State f Own l d)
      = State f' Own (fold_left add_key_to (take fuel (drop i cols)) l) d.
Proof.
  intros Hd. induction fuel as [ | fuel IH]; intros i f l.
  - by eexists.
  - cbn [for_in load]. unfold columns. cbn [table2columns]. rewrite Hd.
    cbn [default from_option id].
    destruct (cols !! i) as [x | ] eqn:Hx.
    + destruct (add_key_cases x f l d) as [f1 ->].
      destruct (IH (S i) f1 (add_key_to l x)) as [f2 ->].
      exists f2. by rewrite (drop_S _ _ _ Hx).
    + exists f. apply lookup_ge_None in Hx. by rewrite drop_ge by done.
Qed.

Lemma fold_add_key_to cs : NoDup cs -> forall acc,
  fold_left add_key_to cs acc
  = acc ++ filter (fun x => is_key x = true /\ x ∉ acc) cs.
Proof.
  induction 1 as [ | x cs Hx Hn IH]; intros acc; simpl.
  - by rewrite filter_nil, app_nil_r.
  - rewrite IH, filter_cons. unfold add_key_to.
    destruct (is_key x) eqn:Hk; cbn [andb].
    + destruct (Py.mem x acc) eqn:Hm; cbn [negb].
      * apply mem_true in Hm. rewrite decide_False by (by intros [_ ?]). done.
      * apply mem_false in Hm. rewrite decide_True by done.
        rewrite <- app_assoc. cbn [app]. do 2 f_equal.
        apply filter_ext_in. intros y Hy. split.
        -- intros [? Hin]. split; [done | ]. intros ?. apply Hin.
           apply elem_of_app. by left.
        -- intros [? Hin]. split; [done | ].
           intros [? | ->%list_elem_of_singleton]%elem_of_app; done.
    + rewrite decide_False by (by intros [? _]). done.
Qed.

(** The list after the key rules. *)
Lemma key_rules_own table cols aggregate add_id (f : str) l
    (d : gmap str (list str)) :
  d !! table = Some cols ->
  (aggregate = false -> add_id = true -> NoDup cols) ->
  exists f',
    add_keys aggregate add_id table (force_id aggregate add_id (State f Own l d))
    = State f' Own (l ++ added_columns aggregate add_id l cols) d.
Proof.
  intros Hd Hn. unfold added_columns.
  destruct (negb aggregate && add_id) eqn:Hb.
  - apply andb_prop in Hb as [Ha%negb_true_iff ->]. subst aggregate.
    specialize (Hn eq_refl eq_refl).
    assert (Hf : exists f1,
      force_id false true (State f Own l d)
      = State f1 Own (if Py.mem (py "Id") l then l else l ++ [py "Id"]) d).
    { unfold force_id, lf_append, set_fields, store, load.
      cbn [fields list_fields own table2columns].
      destruct (Py.mem _ l); by eexists. }
    destruct Hf as [f1 ->]. unfold add_keys. cbn [table2columns negb andb].
    rewrite Hd. rewrite bool_decide_eq_true_2 by eauto.
    unfold columns. cbn [table2columns]. rewrite Hd. cbn [default from_option id].
    destruct (for_in_add_key_exact table cols d Hd (length cols) 0 f1
                (if Py.mem (py "Id") l then l else l ++ [py "Id"]))
      as [f2 ->].
    exists f2. f_equal. rewrite drop_0, take_ge by done.
    rewrite fold_add_key_to by done. unfold key_columns.
    rewrite filter_cons, list_filter_filter.
    destruct (Py.mem (py "Id") l) eqn:Hm.
    + apply mem_true in Hm. rewrite decide_False by (by intros ?).
      f_equal. apply filter_ext_in. intros y Hy. split.
      * intros [? Hin]. repeat split; [done.. | ]. by intros ->.
      * by intros (? & ? & ?).
    + apply mem_false in Hm. rewrite decide_True by done.
      rewrite <- app_assoc. cbn [app]. do 2 f_equal.
      apply filter_ext_in. intros y Hy. split.
      * intros [? Hin]. repeat split; [ | done | ].
        -- intros ?. apply Hin. apply elem_of_app. by left.
        -- intros ->. apply Hin. apply elem_of_app. right. by left.
      * intros (Hin & ? & Hne). split; [done | ].
        intros [? | ?%list_elem_of_singleton]%elem_of_app; done.
  - exists f. rewrite app_nil_r.
    assert (force_id aggregate add_id (State f Own l d) = State f Own l d) as ->.
    { unfold force_id. by rewrite <- andb_assoc, Hb, andb_false_r. }
    unfold add_keys. by rewrite Hb.
Qed.

Lemma spaced_app_known cols l extra :
  spaced cols l -> Forall (fun x => unknown cols x = false) extra ->
  spaced cols (l ++ extra).
Proof.
  intros Hl He. induction l as [ | x l IH]; simpl.
  - induction He as [ | y extra Hy He IH]; [done | ]. simpl.
    destruct extra; [done | ]. split; [ | done]. intros ?. congruence.
  - specialize (IH (spaced_tail _ _ _ Hl)).
    destruct l as [ | y l]; simpl.
    + destruct He as [ | z extra Hz He]; [done | ]. split; [by intros _ | done].
    + destruct Hl as [Hxy Hl]. split; [done | apply IH].
Qed.

Lemma added_columns_known cols aggregate add_id l :
  py "Id" ∈ cols ->
  Forall (fun x => unknown cols x = false) (added_columns aggregate add_id l cols).
Proof.
  intros Hid. unfold added_columns. destruct (_ && _); [ | constructor].
  apply Forall_forall. intros x [_ Hx]%list_elem_of_filter.
  unfold unknown. assert (Py.mem x cols = true) as ->;
    [ | by rewrite andb_false_r].
  apply mem_true. unfold key_columns in Hx.
  apply elem_of_cons in Hx as [-> | Hx]; [done | ].
  by apply list_elem_of_filter in Hx as [_ ?].
Qed.

(** The final field list, for a table with a schema, when no two entries
    in a row are unknown: the unknown entries are removed, all of them, the
    other entries stay in their order, and the key rules add [Id] and the key
    columns of the schema that the field list does not have, in the order of
    the schema. *)
Theorem final_field_list sql t2c add_id hard_limit (c : clauses) cols :
  parse sql = Ok c -> c_fields c <> py "*" ->
  t2c !! c_table c = Some cols ->
  (c_aggregate c = false -> add_id = true -> NoDup cols /\ py "Id" ∈ cols) ->
  spaced cols (c_list_fields c) ->
  exists o,
    sql2soql sql t2c add_id hard_limit = Ok o
    /\ final_list o
       = filter (fun x => unknown cols x = false) (c_list_fields c)
         ++ added_columns (c_aggregate c) add_id (c_list_fields c) cols.
Proof.
  intros Hp Hf Ht Hk Hsp.
  destruct (sql2soql_outcome sql t2c add_id hard_limit c Hp)
    as (o & tail & Ho & _ & Hl & _).
  exists o. split; [done | ]. rewrite Hl. clear Ho Hl.
  unfold fixup. rewrite expand_star_other by done.
  assert (Hc : exists f1, count_star (State (c_fields c) Own (c_list_fields c) t2c)
                          = State f1 Own (c_list_fields c) t2c).
  { unfold count_star. destruct (Py.eqs _ _); by eexists. }
  destruct Hc as [f1 ->].
  destruct (key_rules_own (c_table c) cols (c_aggregate c) add_id f1
              (c_list_fields c) t2c Ht) as [f2 ->].
  { intros Ha Hi. by apply Hk. }
  assert (Hknown : Forall (fun x => unknown cols x = false)
                     (added_columns (c_aggregate c) add_id (c_list_fields c) cols)).
  { unfold added_columns.
    destruct (negb (c_aggregate c) && add_id) eqn:Hb; [ | constructor].
    apply andb_prop in Hb as [Ha%negb_true_iff ->].
    pose proof (added_columns_known cols (c_aggregate c) true (c_list_fields c)
                  (proj2 (Hk Ha eq_refl))) as H.
    unfold added_columns in H. by rewrite Ha in H. }
  rewrite (prune_spaced (c_table c) cols) by (by try apply spaced_app_known).
  cbn [load list_fields own]. rewrite filter_app. f_equal.
  clear -Hknown. induction Hknown as [ | x l Hx Hl IH]; [done | ].
  rewrite filter_cons, decide_True by done. by rewrite IH.
Qed.

End FieldListFacts.

(** ** A WHERE clause without dates *)

Module PlainWhereFacts.
Import Re ReFacts Sql2soql Spec Shape ParseFacts DateFacts ConstantFacts
  TranslatorFacts WhereFacts.

Lemma in_str_app s pre post : in_str s (pre ++ s ++ post) = true.
Proof.
  induction pre as [ | c pre IH].
  - assert (H : Py.startswith (s ++ post) s = true).
    { unfold Py.startswith. apply bool_decide_eq_true_2.
      by rewrite take_app_length. }
    simpl. destruct (s ++ post); simpl; by rewrite H.
  - simpl. by rewrite IH, orb_true_r.
Qed.

Lemma in_str_cons s c t : in_str s (c :: t) = false -> in_str s t = false.
Proof. simpl. by intros [_ ?]%orb_false_elim. Qed.

(** A text without an occurrence is left by the replacement. *)
Lemma replace_absent old new t :
  in_str old t = false -> Py.replace old new t = t.
Proof.
  unfold Py.replace. induction t as [ | c t IH]; [done | ]. intros H.
  pose proof H as H'. simpl in H'. apply orb_false_elim in H' as [Hs _].
  cbn [Py.replace_from]. rewrite Hs. f_equal. by apply IH, (in_str_cons _ c).
Qed.

(** A text without a piece that every match has is left by [re.sub]. *)
Lemma sub_absent r repl s t :
  (forall pos u rest caps caps',
     matches r pos u rest caps caps' -> exists a b, u = a ++ s ++ b) ->
  in_str s t = false -> sub r repl t = t.
Proof.
  intros Hr. unfold sub. generalize 0 at 2 as off.
  induction t as [ | c t IH]; intros off H; [done | ].
  cbn [sub_from].
  destruct (match_at r (c :: t) off) as [m | ] eqn:Hm.
  - exfalso. apply match_at_sound in Hm as (u & rest & E & M & _).
    apply Hr in M as (a & b & ->). rewrite E in H.
    rewrite <- !app_assoc in H. by rewrite in_str_app in H.
  - f_equal. by apply IH, (in_str_cons _ c).
Qed.

Lemma month_end_piece pos u rest caps caps' :
  matches re_month_end pos u rest caps caps' ->
  exists a b, u = a ++ py "THIS_MONTH" ++ b.
Proof.
  intros (sp & -> & _)%compare_text.
  exists (py "<=" ++ sp), (py "_END"). by rewrite <- !app_assoc.
Qed.

Lemma month_start_piece pos u rest caps caps' :
  matches re_month_start pos u rest caps caps' ->
  exists a b, u = a ++ py "THIS_MONTH" ++ b.
Proof.
  intros (sp & -> & _)%compare_text.
  exists (py ">=" ++ sp), (py "_START"). by rewrite <- !app_assoc.
Qed.

Lemma last_day_piece pos u rest caps caps' :
  matches re_last_day pos u rest caps caps' ->
  exists a b, u = a ++ py "TODAY" ++ b.
Proof.
  intros (sp & arg & -> & _)%compare_call_text.
  exists (py "<=" ++ sp ++ py "LAST_DAY("), (arg ++ py ")").
  by rewrite <- !app_assoc.
Qed.

Lemma first_day_piece pos u rest caps caps' :
  matches re_first_day pos u rest caps caps' ->
  exists a b, u = a ++ py "TODAY" ++ b.
Proof.
  intros (sp & arg & -> & _)%compare_call_text.
  exists (py ">=" ++ sp ++ py "FIRST_DAY("), (arg ++ py ")").
  by rewrite <- !app_assoc.
Qed.

Lemma in_str_longer s s' a b t :
  s' = a ++ s ++ b -> in_str s t = false -> in_str s' t = false.
Proof.
  intros -> H. induction t as [ | c t IH].
  - simpl in *. apply orb_false_elim in H as [H _]. rewrite orb_false_r.
    apply bool_decide_eq_false_2. intros E. simpl in E.
    destruct a; [ | done]. destruct s; [ | done]. simpl in H.
    by apply bool_decide_eq_false in H.
  - simpl. apply orb_false_intro; [ | by apply IH, (in_str_cons _ c)].
    apply bool_decide_eq_false_2. intros E.
    assert (H' : in_str s (c :: t) = true); [ | congruence].
    rewrite <- (take_drop (length (a ++ s ++ b)) (c :: t)), E.
    rewrite <- !app_assoc. apply in_str_app.
Qed.

(** The date rules leave a WHERE text that has neither [TODAY] nor
    [THIS_MONTH] in it, nor a quoted date. *)
Lemma fix_where_plain w :
  in_str (py "TODAY") w = false -> in_str (py "THIS_MONTH") w = false ->
  ~ quoted_date w -> fix_where w = w.
Proof.
  intros Ht Hm Hq. unfold fix_where, fix_constants. cbn zeta.
  rewrite (replace_absent (py "TODAY()") (py "TODAY") w)
    by (by eapply (in_str_longer (py "TODAY") _ [] (py "()"))).
  rewrite (sub_absent re_month_end _ (py "THIS_MONTH") w month_end_piece Hm).
  rewrite (sub_absent re_month_start _ (py "THIS_MONTH") w month_start_piece Hm).
  rewrite (sub_absent re_last_day _ (py "TODAY") w last_day_piece Ht).
  rewrite (sub_absent re_first_day _ (py "TODAY") w first_day_piece Ht).
  by apply unquote_dates_none, search_date_none.
Qed.

(** A WHERE clause that has neither [TODAY] nor [THIS_MONTH] in it, nor a
    quoted ISO date, is in the statement as it was written. *)
Theorem where_unchanged sql t2c add_id hard_limit c w :
  parse sql = Ok c -> c_where c = Some w ->
  in_str (py "TODAY") w = false -> in_str (py "THIS_MONTH") w = false ->
  ~ quoted_date w ->
  exists o head tail,
    sql2soql sql t2c add_id hard_limit = Ok o
    /\ statement o = head ++ py "WHERE " ++ w ++ py " " ++ tail.
Proof.
  intros Hp Hw Ht Hm Hq.
  destruct (statement_where sql t2c add_id hard_limit c w Hp Hw)
    as (o & head & tail & Ho & Hs).
  exists o, head, tail. split; [done | ].
  by rewrite Hs, fix_where_plain.
Qed.

End PlainWhereFacts.

(** ** The date constants around a date literal *)

Module LocalFacts.
Import Re ReFacts Sql2soql Spec Shape ParseFacts DateFacts ConstantFacts
  TranslatorFacts WhereFacts.

(** *** A character the pattern avoids *)



(** *** The offset of an attempt *)




(** *** The rewritings around a character they avoid *)


Lemma startswith_barrier old c a b :
  c ∉ old -> Py.startswith (a ++ c :: b) old = Py.startswith a old.
Proof.
  intros Hc. unfold Py.startswith.
  destruct (decide (length old <= length a)) as [Hl | Hl].
  - by rewrite take_app_le.
  - rewrite !bool_decide_eq_false_2; [done | | ].
    + intros E. apply (f_equal length) in E. rewrite length_take in E. lia.
    + intros E. apply Hc. rewrite <- E.
      rewrite take_app_ge by lia.
      apply elem_of_app. right.
      destruct (length old - length a) as [ | k] eqn:Ek; [lia | ].
      simpl. by left.
Qed.

Lemma replace_barrier old new c b :
  c ∉ old -> old <> [] ->
  forall a,
    Py.replace old new (a ++ c :: b)
    = Py.replace old new a ++ c :: Py.replace old new b.
Proof.
  intros Hc Hne a. unfold Py.replace.
  remember (length a) as n eqn:Hn. revert a Hn.
  induction n as [n IH] using lt_wf_ind. intros a ->.
  destruct a as [ | x a].
  - pose proof (startswith_barrier old c [] b Hc) as Hb. simpl in Hb.
    cbn [app Py.replace_from]. rewrite Hb.
    assert (Py.startswith [] old = false) as ->; [ | done].
    apply bool_decide_eq_false_2. by destruct old.
  - pose proof (startswith_barrier old c (x :: a) b Hc) as Hb.
    cbn [app] in Hb. cbn [app Py.replace_from]. rewrite Hb.
    destruct (Py.startswith (x :: a) old) eqn:Hs.
    + apply bool_decide_eq_true_1 in Hs.
      assert (Hk : length old - 1 <= length a).
      { apply (f_equal length) in Hs. rewrite length_take in Hs.
        simpl in Hs. lia. }
      rewrite !(replace_from_skip old new _ (length old - 1)).
      rewrite drop_app_le by done. rewrite <- app_assoc. f_equal.
      eapply IH; [ | done]. simpl. rewrite length_drop. lia.
    + simpl. f_equal. eapply IH; [ | done]. simpl. lia.
Qed.


Lemma local_on_compose p f g :
  local_on p f -> local_on p g -> local_on p (fun t => g (f t)).
Proof.
  intros Hf Hg a x l b Hl.
  change (g (f (a ++ (x :: l) ++ b)) = g (f a) ++ (x :: l) ++ g (f b)).
  rewrite (Hf a x l b Hl). by apply Hg.
Qed.


Lemma sub_nil r repl : sub r repl [] = [].
Proof. done. Qed.







End LocalFacts.

(** ** The comparisons with date constants *)

Module CompareFacts.
Import Re ReFacts Sql2soql Spec Shape ParseFacts DateFacts ConstantFacts
  TranslatorFacts WhereFacts PlainWhereFacts LocalFacts.

Implicit Types (x sp op name repl t u rest : str).

(** *** [re.sub] on a text where the pattern can start at one place only *)

Lemma sub_from_prefix r repl :
  starts_compare r ->
  forall x rest off,
    Forall (fun c => compare_start c = false) x ->
    sub_from r repl 0 (x ++ rest) off
    = x ++ sub_from r repl 0 rest (off + length x).
Proof.
  intros Hr. induction x as [ | c x IH]; intros rest off Hx.
  - simpl. by rewrite Nat.add_0_r.
  - apply Forall_cons in Hx as [Hc Hx]. cbn [app sub_from].
    destruct (match_at r (c :: x ++ rest) off) as [m | ] eqn:Hm.
    + exfalso. apply match_at_sound in Hm as (u & rest' & E & M & _).
      apply Hr in M as (c' & u' & -> & Hc'). simpl in E.
      injection E as -> _. congruence.
    + f_equal. rewrite IH by done. do 2 f_equal. simpl. lia.
Qed.

Lemma sub_from_plain r repl t off :
  starts_compare r -> Forall (fun c => compare_start c = false) t ->
  sub_from r repl 0 t off = t.
Proof.
  intros Hr Ht. rewrite <- (app_nil_r t) at 1.
  rewrite sub_from_prefix by done. simpl. by rewrite app_nil_r.
Qed.

(** The pattern does not match where the one comparison stands. *)
Lemma sub_skip r repl x c t :
  starts_compare r ->
  Forall (fun c => compare_start c = false) x ->
  (forall off, match_at r (c :: t) off = None) ->
  Forall (fun c => compare_start c = false) t ->
  sub r repl (x ++ c :: t) = x ++ c :: t.
Proof.
  intros Hr Hx Hm Ht. unfold sub. rewrite sub_from_prefix by done.
  f_equal. cbn [sub_from]. rewrite Hm. f_equal. by apply sub_from_plain.
Qed.

(** The pattern matches the whole comparison. *)
Lemma sub_apply r repl x rest :
  starts_compare r ->
  Forall (fun c => compare_start c = false) x ->
  rest <> [] ->
  (forall off, exists m,
     match_at r rest off = Some m /\ m_end m = off + length rest) ->
  sub r repl (x ++ rest) = x ++ repl.
Proof.
  intros Hr Hx Hne Hm. unfold sub. rewrite sub_from_prefix by done.
  f_equal. destruct rest as [ | c t]; [done | ]. cbn [sub_from].
  destruct (Hm (0 + length x)) as (m & -> & He). rewrite He.
  assert ((0 + length x <? 0 + length x + length (c :: t)) = true) as ->
    by (apply Nat.ltb_lt; simpl; lia).
  rewrite sub_from_skip.
  replace (0 + length x + length (c :: t) - (0 + length x) - 1)
    with (length t) by (simpl; lia).
  rewrite drop_all. simpl. by rewrite app_nil_r.
Qed.

(** *** The four patterns *)

Lemma spaces_cancel : forall sp sp' a b,
  spaces sp -> spaces sp' ->
  (exists c a', a = c :: a' /\ Py.isspace c = false) ->
  (exists c b', b = c :: b' /\ Py.isspace c = false) ->
  sp ++ a = sp' ++ b -> sp = sp' /\ a = b.
Proof.
  induction sp as [ | s sp IH]; intros sp' a b Hs Hs' Ha Hb E.
  - destruct sp' as [ | s' sp']; [done | ]. exfalso.
    destruct Ha as (c & a' & -> & Hc). simpl in E. injection E as -> _.
    apply Forall_cons in Hs' as [Hs' _]. congruence.
  - apply Forall_cons in Hs as [Hs1 Hs].
    destruct sp' as [ | s' sp'].
    + exfalso. destruct Hb as (c & b' & -> & Hc). simpl in E.
      injection E as -> _. congruence.
    + apply Forall_cons in Hs' as [_ Hs']. simpl in E. injection E as -> E.
      destruct (IH sp' a b Hs Hs' Ha Hb E) as [-> ->]. done.
Qed.

(** A match of a comparison against a comparison. *)
Lemma compare_split op_r sp' full rest op sp name :
  length op_r = length op -> spaces sp' -> spaces sp ->
  (exists c a', full = c :: a' /\ Py.isspace c = false) ->
  (exists c b', name = c :: b' /\ Py.isspace c = false) ->
  (op_r ++ sp' ++ full) ++ rest = op ++ sp ++ name ->
  op_r = op /\ sp' = sp /\ full ++ rest = name.
Proof.
  intros Hl Hs' Hs Hf Hn E. rewrite <- !app_assoc in E.
  apply app_inj_1 in E as [-> E]; [ | done].
  apply spaces_cancel in E as [-> E]; [done | done | done | | done].
  destruct Hf as (c & a' & -> & Hc). by exists c, (a' ++ rest).
Qed.

Lemma month_end_starts : starts_compare re_month_end.
Proof.
  intros pos u rest caps caps' (sp & -> & _)%compare_text. by eexists _, _.
Qed.

Lemma month_start_starts : starts_compare re_month_start.
Proof.
  intros pos u rest caps caps' (sp & -> & _)%compare_text. by eexists _, _.
Qed.

Lemma last_day_starts : starts_compare re_last_day.
Proof.
  intros pos u rest caps caps' (sp & arg & -> & _)%compare_call_text.
  by eexists _, _.
Qed.

Lemma first_day_starts : starts_compare re_first_day.
Proof.
  intros pos u rest caps caps' (sp & arg & -> & _)%compare_call_text.
  by eexists _, _.
Qed.

Lemma month_end_shape :
  compare_shape re_month_end (py "<=") [py "THIS_MONTH_END"].
Proof.
  intros pos u rest caps caps' (sp & -> & Hsp)%compare_text.
  exists sp, (py "THIS_MONTH_END"). repeat split; [done | by left].
Qed.

Lemma month_start_shape :
  compare_shape re_month_start (py ">=") [py "THIS_MONTH_START"].
Proof.
  intros pos u rest caps caps' (sp & -> & Hsp)%compare_text.
  exists sp, (py "THIS_MONTH_START"). repeat split; [done | by left].
Qed.

Lemma last_day_shape :
  compare_shape re_last_day (py "<=")
    [py "LAST_DAY(TODAY)"; py "LAST_DAY(TODAY())"].
Proof.
  intros pos u rest caps caps' (sp & arg & -> & Hsp & Harg)%compare_call_text.
  destruct Harg as [-> | ->].
  - exists sp, (py "LAST_DAY(TODAY)"). repeat split; [done | by left].
  - exists sp, (py "LAST_DAY(TODAY())"). repeat split; [done | ].
    right. by left.
Qed.

Lemma first_day_shape :
  compare_shape re_first_day (py ">=")
    [py "FIRST_DAY(TODAY)"; py "FIRST_DAY(TODAY())"].
Proof.
  intros pos u rest caps caps' (sp & arg & -> & Hsp & Harg)%compare_call_text.
  destruct Harg as [-> | ->].
  - exists sp, (py "FIRST_DAY(TODAY)"). repeat split; [done | by left].
  - exists sp, (py "FIRST_DAY(TODAY())"). repeat split; [done | ].
    right. by left.
Qed.

(** A pattern does not match a text that does not start with its
    operator, or whose constant is none of its own. *)
Lemma no_match_other_op r op_r fulls t :
  compare_shape r op_r fulls ->
  take (length op_r) t <> op_r ->
  forall off, match_at r t off = None.
Proof.
  intros Hr Ht off. destruct (match_at r t off) as [m | ] eqn:Hm; [ | done].
  exfalso. apply match_at_sound in Hm as (u & rest & -> & M & _).
  apply Hr in M as (sp & full & -> & _). apply Ht.
  rewrite <- !app_assoc. by rewrite take_app_length.
Qed.

Lemma no_match_other_name r op fulls sp name :
  compare_shape r op fulls -> spaces sp ->
  (exists c b', name = c :: b' /\ Py.isspace c = false) ->
  Forall (fun full => (exists c a', full = c :: a' /\ Py.isspace c = false)
                      /\ take (length full) name <> full) fulls ->
  forall off, match_at r (op ++ sp ++ name) off = None.
Proof.
  intros Hr Hsp Hn Hf off.
  destruct (match_at r (op ++ sp ++ name) off) as [m | ] eqn:Hm; [ | done].
  exfalso. apply match_at_sound in Hm as (u & rest & E & M & _).
  apply Hr in M as (sp' & full & -> & Hsp' & Hin).
  rewrite Forall_forall in Hf. destruct (Hf full Hin) as [Hc Hne].
  symmetry in E.
  apply compare_split in E as (_ & _ & E); [ | done..].
  apply Hne. rewrite <- E. by rewrite take_app_length.
Qed.

(** A pattern matches the whole of a comparison of its own. *)
Lemma match_whole r op fulls sp name caps' :
  compare_shape r op fulls -> spaces sp ->
  (exists c b', name = c :: b' /\ Py.isspace c = false) ->
  Forall (fun full => (exists c a', full = c :: a' /\ Py.isspace c = false)
                      /\ forall rest, full ++ rest = name -> rest = []) fulls ->
  (forall off, matches r off (op ++ sp ++ name) [] [] (caps' off)) ->
  forall off, exists m,
    match_at r (op ++ sp ++ name) off = Some m
    /\ m_end m = off + length (op ++ sp ++ name).
Proof.
  intros Hr Hsp Hn Hf HM off.
  destruct (match_at_complete r off (op ++ sp ++ name) [] (caps' off) (HM off))
    as [m Hm].
  rewrite app_nil_r in Hm. exists m. split; [done | ].
  apply match_at_sound in Hm as (u & rest & E & M & _ & ->).
  apply Hr in M as (sp' & full & -> & Hsp' & Hin).
  rewrite Forall_forall in Hf. destruct (Hf full Hin) as [Hc Hrest].
  symmetry in E. pose proof E as E'.
  apply compare_split in E' as (_ & _ & E'); [ | done..].
  apply Hrest in E' as ->. rewrite app_nil_r in E. by rewrite E.
Qed.

(** *** The rewritings on a text with one comparison *)

Lemma plain_not_start x :
  Forall (fun c => plain_char c = true) x -> not_start x.
Proof.
  intros H. eapply Forall_impl; [exact H | ].
  intros c Hc. unfold plain_char in Hc.
  apply negb_true_iff in Hc. by apply orb_false_elim in Hc as [[Hc _]%orb_false_elim _].
Qed.

Lemma spaces_not_start sp : spaces sp -> not_start sp.
Proof.
  intros H. eapply Forall_impl; [exact H | ]. intros c Hc.
  destruct c as [[] [] [] [] [] [] [] []]; first [discriminate Hc | done].
Qed.

(** The tail of a comparison holds no start of another one. *)
Lemma compare_tail op sp name :
  operator op -> spaces sp -> not_start name ->
  exists c0, op ++ sp ++ name = c0 :: "="%char :: sp ++ name
             /\ not_start ("="%char :: sp ++ name).
Proof.
  intros [-> | ->] Hsp Hn; eexists; (split; [done | ]);
    (constructor; [done | ]); apply Forall_app; split; try done;
    by apply spaces_not_start.
Qed.

(** A pattern with another operator. *)
Lemma rule_other_op r op_r fulls repl x op sp name :
  compare_shape r op_r fulls -> starts_compare r ->
  operator op_r -> operator op -> op_r <> op ->
  not_start x -> spaces sp -> not_start name ->
  sub r repl (x ++ op ++ sp ++ name) = x ++ op ++ sp ++ name.
Proof.
  intros Hr Hs Hop_r Hop Hne Hx Hsp Hn.
  destruct (compare_tail op sp name Hop Hsp Hn) as (c0 & E & Ht).
  assert (Hm : forall off, match_at r (op ++ sp ++ name) off = None).
  { eapply no_match_other_op; [exact Hr | ].
    destruct Hop_r as [-> | ->], Hop as [-> | ->]; done. }
  rewrite E in *. by apply sub_skip.
Qed.

(** A pattern with the operator and another constant. *)
Lemma rule_other_name r op fulls repl x sp name :
  compare_shape r op fulls -> starts_compare r -> operator op ->
  not_start x -> spaces sp -> not_start name -> starts_plain name ->
  Forall (fun full => starts_plain full /\ take (length full) name <> full)
    fulls ->
  sub r repl (x ++ op ++ sp ++ name) = x ++ op ++ sp ++ name.
Proof.
  intros Hr Hs Hop Hx Hsp Hn Hp Hf.
  destruct (compare_tail op sp name Hop Hsp Hn) as (c0 & E & Ht).
  pose proof (no_match_other_name r op fulls sp name Hr Hsp Hp Hf) as Hm.
  rewrite E in *. by apply sub_skip.
Qed.

(** A pattern on the text another one has left. *)
Lemma rule_on_replacement r op_r fulls repl x t :
  compare_shape r op_r fulls -> starts_compare r -> operator op_r ->
  not_start x -> t = py "< NEXT_MONTH" \/ t = py "> LAST_MONTH" ->
  sub r repl (x ++ t) = x ++ t.
Proof.
  intros Hr Hs Hop Hx Ht.
  assert (Hm : forall off, match_at r t off = None).
  { eapply no_match_other_op; [exact Hr | ].
    destruct Hop as [-> | ->], Ht as [-> | ->]; done. }
  destruct Ht as [-> | ->]; (apply sub_skip; [done | done | apply Hm | ]);
    by repeat constructor.
Qed.

(** The pattern of the comparison. *)
Lemma rule_applies r op fulls repl x sp name caps' :
  compare_shape r op fulls -> starts_compare r -> operator op ->
  not_start x -> spaces sp -> starts_plain name ->
  Forall (fun full => starts_plain full
                      /\ forall rest, full ++ rest = name -> rest = []) fulls ->
  (forall off, matches r off (op ++ sp ++ name) [] [] (caps' off)) ->
  sub r repl (x ++ op ++ sp ++ name) = x ++ repl.
Proof.
  intros Hr Hs Hop Hx Hsp Hp Hf HM. apply sub_apply; [done | done | | ].
  - destruct Hop as [-> | ->]; done.
  - by eapply match_whole.
Qed.

(** The matches of the four patterns. *)
Lemma matches_cat_eps r pos u rest caps caps' :
  matches r pos u rest caps caps' ->
  matches (Cat r Eps) pos u rest caps caps'.
Proof.
  intros M. rewrite <- (app_nil_r u).
  apply (M_cat _ _ pos u [] rest caps caps' caps'); [done | apply M_eps].
Qed.

Lemma matches_compare op name sp pos rest caps :
  spaces sp ->
  matches (seq [word false op; star ws; word false name]) pos
    (op ++ sp ++ name) rest caps caps.
Proof.
  intros Hsp. cbn [seq].
  apply (M_cat _ _ pos op (sp ++ name) rest caps caps caps);
    [by apply matches_word | ].
  apply (M_cat _ _ _ sp name rest caps caps caps); [by apply M_star | ].
  by apply matches_cat_eps, matches_word.
Qed.

Lemma matches_compare_call op name sp pos rest caps :
  spaces sp ->
  matches (seq [word false op; star ws; word false name;
                opt (Grp 1 (word false (py "()"))); chr false ")"]) pos
    (op ++ sp ++ name ++ py ")") rest caps caps.
Proof.
  intros Hsp. cbn [seq].
  apply (M_cat _ _ pos op (sp ++ name ++ py ")") rest caps caps caps);
    [by apply matches_word | ].
  apply (M_cat _ _ _ sp (name ++ py ")") rest caps caps caps);
    [by apply M_star | ].
  apply (M_cat _ _ _ name (py ")") rest caps caps caps);
    [by apply matches_word | ].
  apply (M_cat _ _ _ [] (py ")") rest caps caps caps);
    [apply M_alt_r, M_eps | ].
  apply matches_cat_eps, matches_lit.
Qed.

(** *** The first step: [TODAY()] *)

Lemma in_str_missing s c : forall t, c ∈ s -> c ∉ t -> in_str s t = false.
Proof.
  intros t Hs. induction t as [ | y t IH]; intros Ht.
  - simpl. rewrite orb_false_r. apply bool_decide_eq_false_2.
    rewrite take_nil. intros E. subst s. by apply elem_of_nil in Hs.
  - simpl. apply orb_false_intro.
    + apply bool_decide_eq_false_2. intros E. apply Ht. rewrite <- E in Hs.
      rewrite <- (take_drop (length s) (y :: t)). apply elem_of_app. by left.
    + apply IH. intros H. apply Ht. by right.
Qed.

Lemma plain_no_call x :
  Forall (fun c => plain_char c = true) x -> ("("%char ∉ x) /\ (quote ∉ x).
Proof.
  intros H. rewrite Forall_forall in H. split; by intros ?%H.
Qed.

Lemma replace_spaces old new sp t :
  old <> [] -> (forall c, c ∈ old -> Py.isspace c = false) -> spaces sp ->
  Py.replace old new (sp ++ t) = sp ++ Py.replace old new t.
Proof.
  intros Hne Hold Hsp. induction Hsp as [ | c sp Hc _ IH]; [done | ].
  assert (Hin : c ∉ old) by (intros H%Hold; congruence).
  pose proof (replace_barrier old new c (sp ++ t) Hin Hne []) as H.
  assert (E : Py.replace old new [] = []) by (by destruct old).
  rewrite E in H. simpl in H. simpl. by rewrite H, IH.
Qed.

Lemma today_chars c :
  c ∈ py "TODAY()" ->
  Py.isspace c = false /\ c <> "<"%char /\ c <> ">"%char /\ c <> "="%char.
Proof.
  intros H. repeat (apply elem_of_cons in H as [-> | H]; [done | ]).
  by apply elem_of_nil in H.
Qed.

Lemma replace_compare x op sp name :
  operator op -> Forall (fun c => plain_char c = true) x -> spaces sp ->
  Py.replace (py "TODAY()") (py "TODAY") (x ++ op ++ sp ++ name)
  = x ++ op ++ sp ++ Py.replace (py "TODAY()") (py "TODAY") name.
Proof.
  intros Hop Hx Hsp.
  assert (Hx' : Py.replace (py "TODAY()") (py "TODAY") x = x).
  { apply replace_absent, (in_str_missing _ "("%char).
    - vm_compute. repeat constructor.
    - by apply plain_no_call. }
  assert (Hstep : forall c t, c ∈ [ "<"%char; ">"%char; "="%char ] ->
            Py.replace (py "TODAY()") (py "TODAY") (c :: t)
            = c :: Py.replace (py "TODAY()") (py "TODAY") t).
  { intros c t Hc.
    apply (replace_barrier (py "TODAY()") (py "TODAY") c t) with (a := []);
      [ | done].
    intros (_ & H1 & H2 & H3)%today_chars.
    repeat (apply elem_of_cons in Hc as [-> | Hc]; [done | ]).
    by apply elem_of_nil in Hc. }
  assert (Hrest : Py.replace (py "TODAY()") (py "TODAY") (op ++ sp ++ name)
                  = op ++ sp ++ Py.replace (py "TODAY()") (py "TODAY") name).
  { assert (Hs : Py.replace (py "TODAY()") (py "TODAY") (sp ++ name)
                 = sp ++ Py.replace (py "TODAY()") (py "TODAY") name).
    { apply replace_spaces; [done | | done]. by intros c (H & _)%today_chars. }
    destruct Hop as [-> | ->]; simpl; rewrite !Hstep, Hs; try done;
      repeat constructor. }
  destruct Hop as [-> | ->].
  - pose proof (replace_barrier (py "TODAY()") (py "TODAY") "<"%char
                  ("="%char :: sp ++ name)) as H.
    rewrite <- Hrest. simpl. rewrite H; [by rewrite Hx' | | done].
    by intros (_ & H1 & _)%today_chars.
  - pose proof (replace_barrier (py "TODAY()") (py "TODAY") ">"%char
                  ("="%char :: sp ++ name)) as H.
    rewrite <- Hrest. simpl. rewrite H; [by rewrite Hx' | | done].
    by intros (_ & _ & H1 & _)%today_chars.
Qed.

(** *** The date rules on a WHERE text with one comparison *)

Ltac side :=
  first
    [ apply month_end_shape | apply month_start_shape | apply last_day_shape
    | apply first_day_shape | apply month_end_starts | apply month_start_starts
    | apply last_day_starts | apply first_day_starts
    | by left | by right | done
    | by repeat constructor
    | by eexists _, _ ].

Ltac fulls :=
  repeat constructor;
  first [ by eexists _, _
        | by intros rest E; simplify_eq/=
        | by vm_compute ].

Lemma fix_constants_compare x op sp name repl :
  (op, name, repl) ∈ date_comparisons ->
  Forall (fun c => plain_char c = true) x -> spaces sp ->
  fix_constants (x ++ op ++ sp ++ name) = x ++ repl.
Proof.
  intros Hin Hx Hsp. pose proof (plain_not_start x Hx) as Hx'.
  unfold fix_constants. cbn zeta.
  unfold date_comparisons in Hin.
  repeat (apply elem_of_cons in Hin as [[= -> -> ->] | Hin]);
    [ .. | by apply elem_of_nil in Hin];
    (rewrite replace_compare; [ | side..]);
    match goal with
    | |- context [Py.replace ?a ?b ?n] =>
        let v := eval vm_compute in (Py.replace a b n) in
        change (Py.replace a b n) with v
    end.
  - rewrite (rule_applies re_month_end (py "<=") [py "THIS_MONTH_END"] _ x sp
               _ (fun _ => [])); [ | side.. | fulls | ].
    2: { intros off. by apply matches_compare. }
    rewrite (rule_on_replacement re_month_start (py ">=")
               [py "THIS_MONTH_START"]); [ | side..].
    rewrite (rule_on_replacement re_last_day (py "<=")
               [py "LAST_DAY(TODAY)"; py "LAST_DAY(TODAY())"]); [ | side..].
    by rewrite (rule_on_replacement re_first_day (py ">=")
               [py "FIRST_DAY(TODAY)"; py "FIRST_DAY(TODAY())"]); [ | side..].
  - rewrite (rule_other_op re_month_end (py "<=")
               [py "THIS_MONTH_END"]); [ | side..].
    rewrite (rule_applies re_month_start (py ">=") [py "THIS_MONTH_START"] _ x
               sp _ (fun _ => [])); [ | side.. | fulls | ].
    2: { intros off. by apply matches_compare. }
    rewrite (rule_on_replacement re_last_day (py "<=")
               [py "LAST_DAY(TODAY)"; py "LAST_DAY(TODAY())"]); [ | side..].
    by rewrite (rule_on_replacement re_first_day (py ">=")
               [py "FIRST_DAY(TODAY)"; py "FIRST_DAY(TODAY())"]); [ | side..].
  - rewrite (rule_other_name re_month_end (py "<=")
               [py "THIS_MONTH_END"]); [ | side.. | fulls].
    rewrite (rule_other_op re_month_start (py ">=")
               [py "THIS_MONTH_START"]); [ | side..].
    rewrite (rule_applies re_last_day (py "<=")
               [py "LAST_DAY(TODAY)"; py "LAST_DAY(TODAY())"] _ x sp
               _ (fun _ => [])); [ | side.. | fulls | ].
    2: { intros off. by apply (matches_compare_call _ (py "LAST_DAY(TODAY")). }
    by rewrite (rule_on_replacement re_first_day (py ">=")
               [py "FIRST_DAY(TODAY)"; py "FIRST_DAY(TODAY())"]); [ | side..].
  - rewrite (rule_other_name re_month_end (py "<=")
               [py "THIS_MONTH_END"]); [ | side.. | fulls].
    rewrite (rule_other_op re_month_start (py ">=")
               [py "THIS_MONTH_START"]); [ | side..].
    rewrite (rule_applies re_last_day (py "<=")
               [py "LAST_DAY(TODAY)"; py "LAST_DAY(TODAY())"] _ x sp
               _ (fun _ => [])); [ | side.. | fulls | ].
    2: { intros off. by apply (matches_compare_call _ (py "LAST_DAY(TODAY")). }
    by rewrite (rule_on_replacement re_first_day (py ">=")
               [py "FIRST_DAY(TODAY)"; py "FIRST_DAY(TODAY())"]); [ | side..].
  - rewrite (rule_other_op re_month_end (py "<=")
               [py "THIS_MONTH_END"]); [ | side..].
    rewrite (rule_other_name re_month_start (py ">=")
               [py "THIS_MONTH_START"]); [ | side.. | fulls].
    rewrite (rule_other_op re_last_day (py "<=")
               [py "LAST_DAY(TODAY)"; py "LAST_DAY(TODAY())"]); [ | side..].
    by rewrite (rule_applies re_first_day (py ">=")
               [py "FIRST_DAY(TODAY)"; py "FIRST_DAY(TODAY())"] _ x sp
               _ (fun _ => []));
      [ | side.. | fulls
        | intros off; by apply (matches_compare_call _ (py "FIRST_DAY(TODAY")) ].
  - rewrite (rule_other_op re_month_end (py "<=")
               [py "THIS_MONTH_END"]); [ | side..].
    rewrite (rule_other_name re_month_start (py ">=")
               [py "THIS_MONTH_START"]); [ | side.. | fulls].
    rewrite (rule_other_op re_last_day (py "<=")
               [py "LAST_DAY(TODAY)"; py "LAST_DAY(TODAY())"]); [ | side..].
    by rewrite (rule_applies re_first_day (py ">=")
               [py "FIRST_DAY(TODAY)"; py "FIRST_DAY(TODAY())"] _ x sp
               _ (fun _ => []));
      [ | side.. | fulls
        | intros off; by apply (matches_compare_call _ (py "FIRST_DAY(TODAY")) ].
Qed.

Lemma replacement_no_quote op name repl :
  (op, name, repl) ∈ date_comparisons -> quote ∉ repl.
Proof.
  unfold date_comparisons. intros Hin.
  repeat (apply elem_of_cons in Hin as [[= -> -> ->] | Hin];
          [by apply not_quote_literal | ]).
  by apply elem_of_nil in Hin.
Qed.

Lemma fix_where_compare x op sp name repl :
  (op, name, repl) ∈ date_comparisons ->
  Forall (fun c => plain_char c = true) x -> spaces sp ->
  fix_where (x ++ op ++ sp ++ name) = x ++ repl.
Proof.
  intros Hin Hx Hsp. unfold fix_where, fix_dates.
  rewrite (fix_constants_compare x op sp name repl) by done.
  apply unquote_dates_none, search_date_none.
  intros (pre & d & post & E & _).
  assert (Hq : quote ∈ x ++ repl).
  { rewrite E. apply elem_of_app. right. by left. }
  apply elem_of_app in Hq as [Hq | Hq].
  - by apply (plain_no_call x Hx).
  - by apply (replacement_no_quote op name repl Hin).
Qed.

(** A WHERE clause that ends with a comparison with one of the date
    constants, after a text with no comparison, call or string literal in
    it: the comparison is in the statement as the SOQL comparison it is
    rewritten to, and the text before it as it was written. *)
Theorem date_comparison_rewritten sql t2c add_id hard_limit c x op sp name repl :
  parse sql = Ok c -> c_where c = Some (x ++ op ++ sp ++ name) ->
  (op, name, repl) ∈ date_comparisons ->
  Forall (fun ch => plain_char ch = true) x -> spaces sp ->
  exists o head tail,
    sql2soql sql t2c add_id hard_limit = Ok o
    /\ statement o = head ++ py "WHERE " ++ (x ++ repl) ++ py " " ++ tail.
Proof.
  intros Hp Hw Hin Hx Hsp.
  destruct (statement_where sql t2c add_id hard_limit c _ Hp Hw)
    as (o & head & tail & Ho & Hs).
  exists o, head, tail. split; [done | ].
  by rewrite Hs, (fix_where_compare x op sp name repl).
Qed.

End CompareFacts.

(** ** The rules, as amended *)

Module RuleFacts.
Import Re ReFacts Sql2soql Spec Shape ParseFacts DateFacts ConstantFacts
  FixupFacts TranslatorFacts WhereFacts FieldFacts ClauseFacts LocalFacts.

Implicit Types (l cols : list str) (f x table : str).


(** C8, amended: a field text that is exactly [*] is replaced.  On a table
    of known schema the field text of the statement is the field list of the
    result joined, which starts with the columns of the schema in their
    order and has no [*] entry unless the schema lists one.  On a table
    that is not known the field text of the statement is the marker
    [FIELDS(ALL)], while the list keeps its [*] entry.  A [*] that stands
    beside other entries is not replaced: on a table that is not known it
    stays an entry of the field list, and the field text of the input is in
    the statement as it was written. *)
Theorem C8_wildcard_replaced sql t2c add_id hard_limit (c : clauses) :
  parse sql = Ok c ->
  exists o f tail,
    sql2soql sql t2c add_id hard_limit = Ok o
    /\ statement o = py "SELECT " ++ f ++ py " FROM " ++ c_table c ++ py " " ++ tail
    /\ (c_fields c = py "*" ->
          match t2c !! c_table c with
          | Some cols =>
              f = Py.join (py ", ") (final_list o)
              /\ (exists more, final_list o = cols ++ more)
              /\ (py "*" ∉ cols -> py "*" ∉ final_list o)
          | None => f = py "FIELDS(ALL)" /\ final_list o = [py "*"; py "Id"]
          end)
    /\ (c_fields c <> py "*" -> py "*" ∈ c_list_fields c ->
        t2c !! c_table c = None ->
          py "*" ∈ final_list o /\ exists more, f = c_fields c ++ more).
Proof.
  intros Hp.
  destruct (sql2soql_outcome sql t2c add_id hard_limit c Hp)
    as (o & tail & Ho & Hs & Hl & _).
  exists o, (fields (fixup (c_aggregate c) add_id (c_table c)
                       (State (c_fields c) Own (c_list_fields c) t2c))), tail.
  split; [done | ]. split; [exact Hs | ].
  rewrite Hl. clear Ho Hs Hl. split.
  - intros Hf. rewrite (fixup_star sql c t2c add_id Hp Hf).
    destruct (t2c !! c_table c) as [cols | ] eqn:Ht; [ | done].
    cbn [fields list_fields load]. unfold columns, star_dict, star_columns.
    cbn [table2columns].
    destruct (add_id && _) eqn:Hb.
    + rewrite lookup_insert_eq. cbn [default from_option id].
      repeat split; [by eexists | ].
      intros Hn [H | H]%elem_of_app; [done | ].
      by apply list_elem_of_singleton in H.
    + rewrite Ht. cbn [default from_option id].
      repeat split; [ | done]. exists []. by rewrite app_nil_r.
  - intros Hf Hin Ht.
    destruct (fixup_own (c_aggregate c) add_id (c_table c) (c_fields c)
                (c_list_fields c) t2c Hf) as (-> & _ & _ & Hkeep & Hu & _).
    cbn [load]. split; [apply Hkeep; auto | ].
    destruct (Hu Ht) as [_ ->].
    assert (Hc : Py.lower (c_fields c) <> py "count(*)").
    { intros (_ & _ & Hlist & _)%lower_count_star.
      pose proof Hp as (m1 & m2 & e1 & m3 & w & g & o' & _ & _ & _ & _ & El & _)
        %parse_inv.
      rewrite Hlist in El. rewrite El in Hin.
      apply list_elem_of_singleton in Hin. done. }
    unfold count_star. cbn [fields]. unfold Py.eqs.
    rewrite (bool_decide_eq_false_2 _ Hc).
    destruct (_ && _ && _); [by eexists | ]. exists []. by rewrite app_nil_r.
Qed.


(** C10, amended: with a limit the statement ends with a space, LIMIT, a
    space and the digits of the limit, and nothing after them.  Without one
    it ends with the text of its last clause (the WHERE text as the date
    rules left it, the GROUP BY or ORDER BY text as extracted), or the table
    when it has no clause, and one space; that text has no white space at
    its end, so that the statement ends with a single white-space character
    when the text is not empty. *)
Theorem C10_statement_end sql t2c add_id hard_limit c :
  parse sql = Ok c ->
  exists o,
    sql2soql sql t2c add_id hard_limit = Ok o
    /\ (forall n, resolve_limit (c_limit c) (c_aggregate c) hard_limit = Some n ->
          n <> [] /\ digits n
          /\ exists head, statement o = head ++ py " LIMIT " ++ n)
    /\ (resolve_limit (c_limit c) (c_aggregate c) hard_limit = None ->
        let t := last_text (c_table c) (fix_where <$> c_where c) (c_groupby c)
                   (c_orderby c) in
        (exists body, statement o = body ++ py " " ++ t ++ py " ")
        /\ tidy_end t
        /\ (last_text (c_table c) (c_where c) (c_groupby c) (c_orderby c) <> [] ->
            t <> [] /\ one_trailing_space (statement o))).
Proof.
  intros Hp.
  destruct (sql2soql_statement sql t2c add_id hard_limit c Hp)
    as (o & f & Ho & _ & Hs).
  exists o. split; [done | ]. rewrite Hs, assemble_select. clear Ho Hs.
  destruct (statement_last f (c_table c) (fix_where <$> c_where c)
              (c_groupby c) (c_orderby c)) as [body Hb].
  rewrite !app_assoc in Hb. rewrite !app_assoc. rewrite Hb. clear Hb.
  destruct (last_text_fixed sql c Hp) as (Ht & Hne & He).
  pose proof (parse_limit sql c Hp) as Hl.
  split.
  - intros n Hn. rewrite Hn. cbn [emit_limit].
    assert (Hd : n <> [] /\ digits n).
    { unfold resolve_limit in Hn. destruct (c_limit c) as [n' | ].
      - injection Hn as <-.
        by destruct Hl as (? & ? & ? & ? & ? & _ & _ & _ & ? & ?).
      - destruct (negb _ && (0 <? hard_limit)%Z) eqn:Hh; [ | done].
        injection Hn as <-. apply andb_prop in Hh as [_ Hh%Z.ltb_lt].
        by apply str_of_int_digits. }
    destruct Hd as [Hd1 Hd2]. split; [done | ]. split; [done | ].
    exists ((body ++ py " ")
            ++ last_text (c_table c) (fix_where <$> c_where c) (c_groupby c)
                 (c_orderby c)).
    change (py " LIMIT ") with (py " " ++ py "LIMIT ").
    by rewrite <- !app_assoc.
  - intros ->. cbn [emit_limit]. rewrite app_nil_r. cbn zeta.
    split; [exists body; by rewrite <- !app_assoc | ]. split; [done | ].
    intros H. split; [by apply Hne | ].
    rewrite <- !app_assoc. rewrite (app_assoc body).
    apply one_space_after; [by apply Hne | done].
Qed.

End RuleFacts.

(** ** The caller *)

Module SalesforceFacts.
Import Sql2soql Spec Shape Salesforce FixupFacts FieldFacts ClauseFacts.

(** *** Lines *)

Lemma split_not_nil sep t : split sep t <> [].
Proof.
  destruct t as [ | c t]; simpl; [done | ].
  destruct (Py.eqc c sep); [done | ]. by destruct (split sep t).
Qed.

Lemma split_no_sep sep t : Forall (fun l => sep ∉ l) (split sep t).
Proof.
  induction t as [ | c t IH]; simpl.
  - repeat constructor. by intros ?%elem_of_nil.
  - unfold Py.eqc. destruct (bool_decide (c = sep)) eqn:Hc.
    + constructor; [by intros ?%elem_of_nil | done].
    + apply bool_decide_eq_false in Hc.
      destruct (split sep t) as [ | l ls].
      * repeat constructor. intros [? | ?%elem_of_nil]%elem_of_cons; congruence.
      * apply Forall_cons in IH as [Hl Hls]. constructor; [ | done].
        intros [? | ?]%elem_of_cons; [congruence | done].
Qed.

(** Joining the lines of a text gives the text back. *)
Lemma join_split sep t : Py.join [sep] (split sep t) = t.
Proof.
  induction t as [ | c t IH]; simpl; [done | ].
  unfold Py.eqc. destruct (bool_decide (c = sep)) eqn:Hc.
  - apply bool_decide_eq_true in Hc as ->.
    pose proof (split_not_nil sep t).
    destruct (split sep t) as [ | l ls]; [done | ]. simpl in *. by rewrite IH.
  - destruct (split sep t) as [ | l ls]; [by destruct t | ].
    destruct ls; simpl in *; by rewrite <- IH.
Qed.

Lemma split_no_sep_id sep l : sep ∉ l -> split sep l = [l].
Proof.
  induction l as [ | c l IH]; simpl; [done | ]. intros Hn.
  unfold Py.eqc. rewrite bool_decide_eq_false_2.
  - rewrite IH; [done | ]. intros H. apply Hn. by right.
  - intros ->. apply Hn. by left.
Qed.

Lemma split_app_sep sep l t :
  sep ∉ l -> split sep (l ++ sep :: t) = l :: split sep t.
Proof.
  induction l as [ | c l IH]; simpl; intros Hn.
  - unfold Py.eqc. by rewrite bool_decide_eq_true_2.
  - unfold Py.eqc. rewrite bool_decide_eq_false_2.
    + rewrite IH; [done | ]. intros H. apply Hn. by right.
    + intros ->. apply Hn. by left.
Qed.

(** The lines of joined lines are the lines. *)
Lemma split_join sep ls :
  ls <> [] -> Forall (fun l => sep ∉ l) ls -> split sep (Py.join [sep] ls) = ls.
Proof.
  induction ls as [ | l ls IH]; [done | ]. intros _ [Hl Hls]%Forall_cons.
  destruct ls as [ | l' ls]; [by apply split_no_sep_id | ].
  change (Py.join [sep] (l :: l' :: ls))
    with (l ++ [sep] ++ Py.join [sep] (l' :: ls)).
  cbn [app]. rewrite split_app_sep by done. by rewrite IH.
Qed.

(** Stripping keeps characters of the text, and a trimmed text as it is. *)
Lemma strip_subset t x : x ∈ Py.strip t -> x ∈ t.
Proof.
  destruct (strip_spec t) as (a & b & E & _). intros H. rewrite E.
  apply elem_of_app. right. apply elem_of_app. by left.
Qed.

Lemma lstrip_id t :
  (forall x, head t = Some x -> Py.isspace x = false) -> Py.lstrip t = t.
Proof.
  destruct t as [ | c t]; simpl; [done | ]. intros H. by rewrite (H c).
Qed.

Lemma strip_trimmed t : trimmed t -> Py.strip t = t.
Proof.
  intros [Hh Ht]. unfold Py.strip. rewrite lstrip_id by done.
  unfold Py.rstrip. rewrite lstrip_id; [apply rev_involutive | ].
  intros x. rewrite <- last_rev, rev_involutive. apply Ht.
Qed.

Lemma strip_strip t : Py.strip (Py.strip t) = Py.strip t.
Proof.
  apply strip_trimmed. by destruct (strip_spec t) as (? & ? & _ & _ & _ & ?).
Qed.

(** The lines of the trimmed prompt. *)
Lemma prompt_trim_split prompt :
  split newline (prompt_trim prompt) = map Py.strip (split newline prompt).
Proof.
  unfold prompt_trim. apply split_join.
  - pose proof (split_not_nil newline prompt). by destruct (split _ _).
  - apply Forall_map. eapply Forall_impl; [apply split_no_sep | ].
    intros l Hl H. by apply Hl, strip_subset.
Qed.

(** The trimmed prompt has the lines of the prompt, one for one and in
    their order, each without the white space at its ends. *)
Theorem prompt_trim_lines prompt :
  split newline (prompt_trim prompt) = map Py.strip (split newline prompt)
  /\ Forall trimmed (split newline (prompt_trim prompt))
  /\ length (split newline (prompt_trim prompt))
     = length (split newline prompt).
Proof.
  rewrite prompt_trim_split. repeat split.
  - apply Forall_map, Forall_forall. intros l _.
    by destruct (strip_spec l) as (? & ? & _ & _ & _ & ?).
  - by rewrite length_map.
Qed.

(** Trimming a trimmed prompt changes nothing. *)
Theorem prompt_trim_idempotent prompt :
  prompt_trim (prompt_trim prompt) = prompt_trim prompt.
Proof.
  unfold prompt_trim at 1. rewrite prompt_trim_split.
  rewrite <- list_fmap_compose. unfold prompt_trim. f_equal.
  apply list_fmap_ext. intros i l _. apply strip_strip.
Qed.

(** *** Rows *)

Section Rows.
Context {A : Type}.
Implicit Types (r row es d : dict (value A)) (k key : str) (v : value A).

Lemma dict_set_in {V} k (x : V) (d : dict V) e :
  e ∈ dict_set k x d -> e = (k, x) \/ e ∈ d.
Proof.
  induction d as [ | [k' x'] d IH]; simpl.
  - intros ->%list_elem_of_singleton. by left.
  - destruct (Py.eqs k k').
    + intros [-> | H]%elem_of_cons; [by left | right; by right].
    + intros [-> | H]%elem_of_cons; [right; by left | ].
      destruct (IH H) as [-> | H']; [by left | right; by right].
Qed.

Lemma dict_get_set_eq {V} k (x : V) (d : dict V) :
  dict_get k (dict_set k x d) = Some x.
Proof.
  induction d as [ | [k' x'] d IH]; simpl.
  - unfold Py.eqs. by rewrite bool_decide_eq_true_2.
  - destruct (Py.eqs k k') eqn:E; simpl; rewrite ?E; [ | done].
    unfold Py.eqs. by rewrite bool_decide_eq_true_2.
Qed.

Lemma dict_get_set_ne {V} k k' (x : V) (d : dict V) :
  k <> k' -> dict_get k' (dict_set k x d) = dict_get k' d.
Proof.
  intros Hne. induction d as [ | [k'' x'] d IH]; simpl.
  - unfold Py.eqs. rewrite bool_decide_eq_false_2; [done | congruence].
  - destruct (Py.eqs k k'') eqn:E; simpl.
    + apply bool_decide_eq_true in E as <-.
      assert (Py.eqs k' k = false) as ->; [ | done].
      apply bool_decide_eq_false_2. congruence.
    + by rewrite IH.
Qed.

Lemma fold_assign_in es : forall row e,
  e ∈ fold_left assign es row -> e ∈ es \/ e ∈ row.
Proof.
  induction es as [ | [k' v'] es IH]; intros row e; simpl; [by right | ].
  intros [H | H]%IH; [left; by right | ].
  apply dict_set_in in H as [-> | H]; [ | by right].
  left. by left.
Qed.

Lemma fold_assign_get_notin es : forall row k,
  k ∉ map fst es -> dict_get k (fold_left assign es row) = dict_get k row.
Proof.
  induction es as [ | e es IH]; intros row k Hk; simpl; [done | ].
  rewrite IH; [ | intros H; apply Hk; by right].
  apply dict_get_set_ne. intros E. apply Hk. simpl. rewrite E. by left.
Qed.

Lemma fold_assign_get_in es : forall row k v,
  NoDup (map fst es) -> (k, v) ∈ es ->
  dict_get k (fold_left assign es row) = Some v.
Proof.
  induction es as [ | e es IH]; intros row k v Hn Hin; simpl.
  - by apply elem_of_nil in Hin.
  - simpl in Hn. apply NoDup_cons in Hn as [Hne Hn].
    apply elem_of_cons in Hin as [<- | Hin]; [ | by apply IH].
    rewrite fold_assign_get_notin by done. apply dict_get_set_eq.
Qed.

(** The loops as assignments. *)
Lemma add_nested_entries k d : forall row,
  fold_left (add_nested k) d row = fold_left assign (nested_entries k d) row.
Proof.
  induction d as [ | item d IH]; intros row; simpl; [done | ].
  unfold add_nested at 2. destruct (negb _); simpl; by rewrite IH.
Qed.

Lemma flatten_entries r : forall row,
  fold_left add_field r row = fold_left assign (entries r) row.
Proof.
  induction r as [ | [k x] r IH]; intros row; [done | ].
  unfold entries. simpl. rewrite fold_left_app. fold (entries r).
  rewrite <- IH. f_equal. unfold add_field, field_entries. simpl.
  destruct (negb _); [ | done].
  destruct x; [done | apply add_nested_entries].
Qed.

Lemma elem_of_concat {B} (x : B) (ls : list (list B)) :
  x ∈ concat ls <-> exists l, x ∈ l /\ l ∈ ls.
Proof.
  induction ls as [ | l ls IH]; simpl.
  - split; [by intros ?%elem_of_nil | by intros (? & _ & ?%elem_of_nil)].
  - rewrite elem_of_app, IH. split.
    + intros [H | (l' & H & Hl)]; [exists l; split; [done | by left] | ].
      exists l'. split; [done | by right].
    + intros (l' & H & [-> | Hl]%elem_of_cons); [by left | right; eauto].
Qed.

(** The entries of a record. *)
Lemma nested_entries_in k d key v :
  (key, v) ∈ nested_entries k d
  <-> exists k2, key = k ++ py "." ++ k2 /\ (k2, v) ∈ d /\ k2 <> attributes.
Proof.
  unfold nested_entries. rewrite list_elem_of_omap. split.
  - intros ([k2 v2] & Hin & H). simpl in H. unfold Py.eqs in H.
    destruct (bool_decide (k2 = attributes)) eqn:E; [done | ].
    apply bool_decide_eq_false in E. injection H as <- <-. by exists k2.
  - intros (k2 & -> & Hin & Hne). exists (k2, v). split; [done | ]. simpl.
    unfold Py.eqs. by rewrite bool_decide_eq_false_2.
Qed.

Lemma entries_in r key v :
  (key, v) ∈ entries r
  <-> (key <> attributes /\ (key, v) ∈ r /\ exists a, v = Atom a)
      \/ exists k d k2,
           key = k ++ py "." ++ k2 /\ (k, ODict d) ∈ r /\ (k2, v) ∈ d
           /\ k <> attributes /\ k2 <> attributes.
Proof.
  unfold entries. rewrite elem_of_concat. split.
  - intros (l & Hin & [[k x] [-> Hr]]%list_elem_of_fmap).
    unfold field_entries, Py.eqs in Hin. simpl in Hin.
    destruct (bool_decide (k = attributes)) eqn:E; simpl in Hin;
      [by apply elem_of_nil in Hin | ].
    apply bool_decide_eq_false in E. destruct x as [a | d].
    + apply list_elem_of_singleton in Hin as [= -> ->]. left. eauto.
    + apply nested_entries_in in Hin as (k2 & -> & Hd & Hne).
      right. by exists k, d, k2.
  - intros [(Hne & Hr & a & ->) | (k & d & k2 & -> & Hr & Hd & Hk & Hk2)].
    + exists [(key, Atom a)]. split; [by apply list_elem_of_singleton | ].
      apply list_elem_of_fmap. exists (key, Atom a). split; [ | done].
      unfold field_entries, Py.eqs. simpl.
      by rewrite bool_decide_eq_false_2.
    + exists (nested_entries k d). split.
      * apply nested_entries_in. by exists k2.
      * apply list_elem_of_fmap. exists (k, ODict d). split; [ | done].
        unfold field_entries, Py.eqs. simpl.
        by rewrite bool_decide_eq_false_2.
Qed.

(** A key with a dot is not ['attributes']. *)
Lemma dotted_not_attributes k k2 : k ++ py "." ++ k2 <> attributes.
Proof.
  intros E. assert (H : "."%char ∈ attributes).
  { rewrite <- E. apply elem_of_app. right. by left. }
  vm_compute in H. by repeat (apply elem_of_cons in H as [H | H]; [done | ]);
    apply elem_of_nil in H.
Qed.

(** Each item of the row made of a record comes from a field of the record
    that is not an [OrderedDict], under its key, or from an item of a nested
    [OrderedDict], under the key of the field, a dot and its own key; and no
    item has the key ['attributes'] or comes from it. *)
Theorem flatten_row_origin r key v :
  (key, v) ∈ flatten_record r ->
  key <> attributes
  /\ ((exists a, v = Atom a /\ (key, v) ∈ r)
      \/ exists k d k2,
           key = k ++ py "." ++ k2 /\ (k, ODict d) ∈ r /\ (k2, v) ∈ d
           /\ k <> attributes /\ k2 <> attributes).
Proof.
  unfold flatten_record. rewrite flatten_entries.
  intros [H | H]%fold_assign_in; [ | by apply elem_of_nil in H].
  apply entries_in in H
    as [(Hne & Hr & a & ->) | (k & d & k2 & -> & Hr & Hd & Hk & Hk2)].
  - split; [done | ]. left. eauto.
  - split; [apply dotted_not_attributes | ]. right. by exists k, d, k2.
Qed.

(** The keys of the entries of a well-formed record differ. *)
Lemma before_dot_free k : "."%char ∉ k -> before_dot k = k.
Proof.
  induction k as [ | c k IH]; simpl; [done | ]. intros Hn.
  unfold Py.eqc. rewrite bool_decide_eq_false_2.
  - rewrite IH; [done | ]. intros H. apply Hn. by right.
  - intros ->. apply Hn. by left.
Qed.

Lemma before_dot_dotted k k2 :
  "."%char ∉ k -> before_dot (k ++ py "." ++ k2) = k.
Proof.
  induction k as [ | c k IH]; cbn [before_dot app]; [done | ]. intros Hn.
  unfold Py.eqc. rewrite bool_decide_eq_false_2.
  - rewrite IH; [done | ]. intros H. apply Hn. by right.
  - intros ->. apply Hn. by left.
Qed.

Lemma field_entries_owner (item e : str * value A) :
  "."%char ∉ fst item -> e ∈ field_entries item ->
  before_dot (fst e) = fst item.
Proof.
  destruct item as [k x], e as [key v]. simpl. intros Hk.
  unfold field_entries. simpl. destruct (negb _); [ | by intros ?%elem_of_nil].
  destruct x as [a | d].
  - intros [= -> ->]%list_elem_of_singleton. by apply before_dot_free.
  - intros (k2 & -> & _)%nested_entries_in. by apply before_dot_dotted.
Qed.

Lemma nested_entries_nodup k d :
  NoDup (map fst d) -> NoDup (map fst (nested_entries k d)).
Proof.
  induction d as [ | [k2 v2] d IH]; simpl; [constructor | ].
  intros [Hn Hd]%NoDup_cons. destruct (negb _); [ | by apply IH].
  simpl. apply NoDup_cons. split; [ | by apply IH].
  intros ([key v] & E & (k2' & -> & Hin & _)%nested_entries_in)%list_elem_of_fmap.
  simpl in E. apply app_inv_head in E. injection E as ->.
  apply Hn. apply list_elem_of_fmap. by exists (k2', v).
Qed.

Lemma entries_nodup r : well_formed r -> NoDup (map fst (entries r)).
Proof.
  intros (Hn & Hd & Hv). induction r as [ | item r IH]; [constructor | ].
  unfold entries. simpl. fold (entries r). rewrite map_app.
  simpl in Hn. apply NoDup_cons in Hn as [Hi Hn].
  apply Forall_cons in Hd as [Hdi Hd].
  apply NoDup_app. repeat split.
  - unfold field_entries. destruct (negb _); [ | constructor].
    destruct item as [k [a | d]]; simpl.
    + apply NoDup_singleton.
    + apply nested_entries_nodup, (Hv k). by left.
  - intros key ([key1 v1] & -> & H1)%list_elem_of_fmap
      ([key2 v2] & E & H2)%list_elem_of_fmap. simpl in E. subst key2.
    apply (field_entries_owner _ _ Hdi) in H1. simpl in H1.
    unfold entries in H2. apply elem_of_concat in H2
      as (l & H2 & [item' [-> Hr]]%list_elem_of_fmap).
    apply field_entries_owner in H2; [ | by eapply Forall_forall in Hd].
    simpl in H2. apply Hi. apply list_elem_of_fmap. exists item'.
    split; [congruence | done].
  - apply IH; [done | done | ]. intros k v H. apply (Hv k). by right.
Qed.

(** In the row made of a well-formed record, a field that is not an
    [OrderedDict] is found under its key, and an item of a nested
    [OrderedDict] under the key of the field, a dot and its own key, unless
    one of these keys is ['attributes']. *)
Theorem flatten_row_lookup r :
  well_formed r ->
  (forall k a, (k, Atom a) ∈ r -> k <> attributes ->
     dict_get k (flatten_record r) = Some (Atom a))
  /\ (forall k d k2 v, (k, ODict d) ∈ r -> (k2, v) ∈ d ->
        k <> attributes -> k2 <> attributes ->
        dict_get (k ++ py "." ++ k2) (flatten_record r) = Some v).
Proof.
  intros Hw. pose proof (entries_nodup r Hw) as Hn.
  unfold flatten_record. rewrite flatten_entries. split.
  - intros k a Hr Hk. apply fold_assign_get_in; [done | ].
    apply entries_in. left. eauto.
  - intros k d k2 v Hr Hd Hk Hk2. apply fold_assign_get_in; [done | ].
    apply entries_in. right. by exists k, d, k2.
Qed.

End Rows.

(** *** Queries *)

Section Queries.
Context {A : Type}.
Implicit Types (s : @service A).

(** The loop sends at most as many queries as it has tries, and one for
    each reconnection at least. *)
Lemma query_loop_bound s soql retries : forall q r,
  let '(_, q', r') := query_loop s soql retries q r in
  q <= q' <= q + retries /\ r <= r' /\ r' - r <= q' - q.
Proof.
  induction retries as [ | n IH]; intros q r; simpl; [lia | ].
  destruct (replies s q soql); [lia | | lia].
  destruct (reconnects s r); [ | lia].
  specialize (IH (S q) (S r)).
  destruct (query_loop s soql n (S q) (S r)) as [[res q'] r']. lia.
Qed.

(** While the connection drops and is set again, the loop goes on. *)
Lemma query_loop_dropped s soql i : forall retries q r,
  (forall j, j < i ->
     replies s (q + j) soql = Dropped /\ reconnects s (r + j) = true) ->
  query_loop s soql (i + retries) q r
  = query_loop s soql retries (q + i) (r + i).
Proof.
  induction i as [ | i IH]; intros retries q r H; simpl.
  - by rewrite !Nat.add_0_r.
  - destruct (H 0) as [H1 H2]; [lia | ]. rewrite Nat.add_0_r in H1, H2.
    rewrite H1, H2. rewrite IH.
    + f_equal; lia.
    + intros j Hj. destruct (H (S j)) as [H3 H4]; [lia | ].
      by rewrite <- !Nat.add_succ_comm in H3, H4.
Qed.

(** The retries of [do_query].  At most three queries are sent.  While the
    connection drops and is set again, the query is sent again: the first
    reply with records gives the rows, one for each record; another
    exception ends the call; and after three drops the call returns no row
    at all. *)
Theorem do_query_retries s connected t2c limit query o :
  sql2soql query t2c true limit = Ok o ->
  (connected = false -> reconnects s 0 = true) ->
  let r0 := if connected then 0 else 1 in
  let run := do_query s connected t2c limit query in
  queries run <= 3 /\ reconnections run <= r0 + queries run
  /\ (forall i recs, i < 3 ->
        (forall j, j < i -> dropped s (statement o) r0 j) ->
        replies s i (statement o) = Records recs ->
        returned run = inr (map flatten_record recs) /\ queries run = S i)
  /\ (forall i, i < 3 ->
        (forall j, j < i -> dropped s (statement o) r0 j) ->
        replies s i (statement o) = Failed ->
        returned run = inl QueryFailed /\ queries run = S i)
  /\ ((forall j, j < 3 -> dropped s (statement o) r0 j) ->
        returned run = inr [] /\ queries run = 3).
Proof.
  intros Ho Hc r0 run. subst run. unfold do_query. rewrite Ho.
  assert (negb connected && negb (reconnects s 0) = false) as ->.
  { destruct connected; [done | ]. by rewrite Hc. }
  fold r0.
  pose proof (query_loop_bound s (statement o) 3 0 r0) as Hb.
  split; [ | split; [ | split; [ | split]]].
  - destruct (query_loop s (statement o) 3 0 r0) as [[res q'] r']. simpl. lia.
  - destruct (query_loop s (statement o) 3 0 r0) as [[res q'] r']. simpl. lia.
  - intros i recs Hi Hd Hr. clear Hb.
    assert (E : query_loop s (statement o) 3 0 r0
                = (inr (Some recs), S i, r0 + i)).
    { replace 3 with (i + S (3 - S i)) at 1 by lia.
      rewrite query_loop_dropped by (intros j Hj; by apply Hd).
      simpl. by rewrite Hr. }
    by rewrite E.
  - intros i Hi Hd Hr. clear Hb.
    assert (E : query_loop s (statement o) 3 0 r0
                = (inl QueryFailed, S i, r0 + i)).
    { replace 3 with (i + S (3 - S i)) at 1 by lia.
      rewrite query_loop_dropped by (intros j Hj; by apply Hd).
      simpl. by rewrite Hr. }
    by rewrite E.
  - intros Hd. clear Hb.
    assert (E : query_loop s (statement o) 3 0 r0 = (inr None, 3, r0 + 3)).
    { change 3 with (3 + 0) at 1.
      by rewrite query_loop_dropped by (intros j Hj; by apply Hd). }
    by rewrite E.
Qed.

(** The schema dictionary after a translation, when every schema lists
    [Id]. *)
Lemma final_dict_with_ids query t2c add_id limit o :
  map_Forall (fun _ cols => py "Id" ∈ cols) t2c ->
  sql2soql query t2c add_id limit = Ok o -> final_dict o = t2c.
Proof.
  intros Hid Ho.
  destruct (parse query) as [c | ] eqn:Hp;
    [ | by unfold sql2soql in Ho; rewrite Hp in Ho].
  destruct (sql2soql_outcome query t2c add_id limit c Hp)
    as (o' & tail & Ho' & _ & _ & Hd).
  assert (o' = o) as -> by congruence. rewrite Hd. clear Ho Ho' Hd.
  destruct (decide (c_fields c = py "*")) as [Hf | Hf].
  - rewrite (fixup_star query c t2c add_id Hp Hf).
    destruct (t2c !! c_table c) as [cols | ] eqn:Ht; [ | done].
    cbn [Sql2soql.table2columns]. unfold star_dict.
    apply Hid in Ht. apply mem_true in Ht. by rewrite Ht, andb_false_r.
  - by destruct (fixup_own (c_aggregate c) add_id (c_table c) (c_fields c)
                   (c_list_fields c) t2c Hf) as (_ & -> & _).
Qed.

(** When every schema of the dictionary lists [Id], as those set by
    [__init__] do, [do_query] leaves the dictionary as it was, whatever the
    query and the replies. *)
Theorem do_query_schema_kept s connected t2c limit query :
  map_Forall (fun _ cols => py "Id" ∈ cols) t2c ->
  schema (do_query s connected t2c limit query) = t2c.
Proof.
  intros Hid. unfold do_query.
  destruct (sql2soql query t2c true limit) as [o | e] eqn:Ho; [ | done].
  destruct (negb connected && _); [by eapply final_dict_with_ids | ].
  destruct (query_loop s (statement o) 3 0 _) as [[res q'] r']. simpl.
  by eapply final_dict_with_ids.
Qed.

End Queries.

End SalesforceFacts.

(** ** The log *)

Module PlogFacts.
Import Salesforce Plog.

Section Print.
Variable wrap : str -> list str.
Variable now : str.

Lemma print_chunks_blank n : forall pieces out,
  fold_left print_chunk pieces (repeat " "%char n, out)
  = (repeat " "%char n,
     out ++ map (fun s => repeat " "%char n ++ s) pieces).
Proof.
  induction pieces as [ | s pieces IH]; intros out; simpl.
  - by rewrite app_nil_r.
  - unfold print_chunk at 2. cbn [fst snd]. rewrite repeat_length.
    rewrite IH. by rewrite <- app_assoc.
Qed.

Lemma print_chunks_first first pieces out :
  pieces <> [] ->
  fold_left print_chunk pieces (first, out)
  = (repeat " "%char (length first), out ++ aligned first pieces).
Proof.
  destruct pieces as [ | s pieces]; [done | ]. intros _. simpl.
  unfold print_chunk at 2. cbn [fst snd].
  rewrite print_chunks_blank. by rewrite <- app_assoc.
Qed.

Lemma print_lines_blank n : forall lines out,
  fold_left (print_line wrap) lines (repeat " "%char n, out)
  = (repeat " "%char n,
     out ++ map (fun s => repeat " "%char n ++ s) (concat (map wrap lines))).
Proof.
  induction lines as [ | l lines IH]; intros out; simpl.
  - by rewrite app_nil_r.
  - unfold print_line at 2. rewrite print_chunks_blank, IH.
    by rewrite map_app, app_assoc.
Qed.

Lemma print_lines_first first : forall lines,
  snd (fold_left (print_line wrap) lines (first, []))
  = aligned first (concat (map wrap lines)).
Proof.
  induction lines as [ | l lines IH]; [done | ]. simpl.
  unfold print_line at 2. destruct (wrap l) as [ | s pieces] eqn:E.
  - simpl. apply IH.
  - rewrite print_chunks_first by done. rewrite print_lines_blank.
    cbn [snd app aligned]. by rewrite map_app.
Qed.

Lemma expand_length name :
  name ∈ LEVELS -> length (expand name wid) = 7.
Proof.
  intros H. unfold LEVELS in H.
  repeat (apply elem_of_cons in H as [-> | H]; [done | ]).
  by apply elem_of_nil in H.
Qed.

Lemma level_name_in level name : level_name level = Some name -> name ∈ LEVELS.
Proof.
  unfold level_name. destruct (_ <=? _)%Z.
  - apply list_elem_of_lookup_2.
  - destruct (_ <=? _)%Z; [apply list_elem_of_lookup_2 | done].
Qed.

(** A text of seventy characters or more, at a level that is printed: the
    pieces of its lines are printed one to a line, in order; the first
    after the level, padded to seven characters, the time if it is shown, a
    colon and a space, and each of the others after as many spaces, so that
    the pieces stand in one column. *)
Theorem print_aligned (debug_level level : Z) (print_time : bool)
    (name text : str) :
  (level <= debug_level)%Z -> level_name level = Some name ->
  70 <= length text ->
  let dt := if print_time then py " (" ++ now ++ py ")" else [] in
  let first := expand name wid ++ dt ++ py ": " in
  print wrap now debug_level print_time level text
  = Some (aligned first (chunks wrap text))
  /\ length first = 9 + length dt.
Proof.
  intros Hl Hn Ht dt first. split.
  - unfold print. rewrite (proj2 (Z.ltb_ge _ _) Hl).
    destruct (length text =? 0) eqn:E0; [apply Nat.eqb_eq in E0; lia | ].
    rewrite Hn. rewrite (proj2 (Nat.ltb_ge _ _) Ht).
    cbn zeta. fold dt. fold first. by rewrite print_lines_first.
  - unfold first. rewrite !length_app.
    rewrite (expand_length name) by (by eapply level_name_in).
    simpl. lia.
Qed.

End Print.

End PlogFacts.

(** ** The scenarios *)

Module ScenarioFacts.
Import Sql2soql Scenario.

(** C1, as stated, fails: the statement returned for the aggregate scenario
    is not the one the specification gives, since the alias [cmax] is pruned
    as an unknown column and the last clause leaves its space. *)
Lemma C1_alias_not_retained :
  on_ok statement (sql2soql max_query tables true 4)
  <> Some (py "SELECT Max(a1) cmax FROM Account WHERE Name='Fred' GROUP BY firstname ORDER BY cmax DESC").
Proof. vm_compute. discriminate. Qed.

(** C1, amended: for the aggregate scenario the query is detected as
    aggregate, the parenthesized expression [Max(a1)] is kept, the alias
    [cmax] is pruned, no LIMIT is added whatever the flags, and the statement
    ends with the space of its last clause. *)
Theorem C1_max_scenario (add_id : bool) (hard_limit : Z) :
  on_ok c_aggregate (parse max_query) = Some true
  /\ on_ok c_list_fields (parse max_query) = Some [py "Max(a1)"; py "cmax"]
  /\ sql2soql max_query tables add_id hard_limit
     = Ok (Outcome
             (py "SELECT Max(a1) FROM Account WHERE Name='Fred' GROUP BY firstname ORDER BY cmax DESC ")
             (py "Account") [py "Max(a1)"] tables).
Proof. destruct add_id; vm_compute; done. Qed.

(** C2, the failing call: [SELECT * FROM T] with forced keys on a schema
    without [Id] leaves [Id] appended to the caller's own column list. *)
Theorem C2_schema_mutated :
  on_ok (fun o => final_dict o !! py "T")
    (sql2soql (py "SELECT * FROM T") no_id_schema true 0)
  = Some (Some [py "a"; py "b"; py "Id"])
  /\ no_id_schema !! py "T" = Some [py "a"; py "b"].
Proof. vm_compute. done. Qed.

(** C3, the failing call: of two unknown columns in a row only the first
    is pruned. *)
Theorem C3_second_unknown_column_kept :
  sql2soql (py "SELECT x, y FROM Account") tables false 0
  = Ok (Outcome (py "SELECT y FROM Account ") (py "Account") [py "y"] tables)
  /\ Py.has_char "(" (py "y") = false
  /\ tables !! py "Account" = Some [py "Id"; py "a1"; py "a2"; py "a3"; py "OwnerId"].
Proof. vm_compute. done. Qed.

(** C4, the failing call: the explicit [LIMIT 10] of the input is not
    kept.  The scan for the end of the WHERE text stops at the letters
    [limit] inside the string literal, so that the scan for the limit finds
    [limit 5000] first: the statement is cut inside the literal and its
    limit is [5000]. *)
Theorem C4_limit_in_string :
  sql2soql string_limit_query tables false 0
  = Ok (Outcome (py "SELECT a1 FROM Account WHERE Name = 'credit LIMIT 5000")
          (py "Account") [py "a1"] tables)
  /\ on_ok c_where (parse string_limit_query) = Some (Some (py "Name = 'credit"))
  /\ on_ok c_rest (parse string_limit_query) = Some (py "limit 5000' LIMIT 10")
  /\ on_ok c_limit (parse string_limit_query) = Some (Some (py "5000")).
Proof. vm_compute. done. Qed.

(** C5, the failing call: on a schema without [Id] the wildcard gives the
    schema's columns and [Id] after them.  [Id] stays because the list it
    was appended to is the caller's own list of columns, where the pruning
    then finds it: with the same schema and flags the forced [Id] of
    [SELECT a FROM T] is pruned again. *)
Theorem C5_id_follows_columns :
  on_ok final_list (sql2soql (py "SELECT * FROM T") no_id_schema true 0)
  = Some [py "a"; py "b"; py "Id"]
  /\ on_ok statement (sql2soql (py "SELECT * FROM T") no_id_schema true 0)
     = Some (py "SELECT a, b, Id FROM T ")
  /\ no_id_schema !! py "T" = Some [py "a"; py "b"]
  /\ on_ok statement (sql2soql (py "SELECT a FROM T") no_id_schema true 0)
     = Some (py "SELECT a FROM T ").
Proof. vm_compute. done. Qed.





(** C8, as stated, fails: a [*] next to other entries stays in the field
    list and in the statement. *)
Lemma C8_star_entry_kept :
  on_ok final_list (sql2soql (py "SELECT *, name FROM t") tables true 0)
  = Some [py "*"; py "name"; py "Id"]
  /\ on_ok statement (sql2soql (py "SELECT *, name FROM t") tables true 0)
     = Some (py "SELECT *, name, Id FROM t ").
Proof. vm_compute. done. Qed.

(** C8 on a wildcard over a table that is not known. *)
Lemma C8_wildcard_replaced_witness :
  exists c,
    parse (py "SELECT * from Task") = Ok c
    /\ exists o f tail,
      sql2soql (py "SELECT * from Task") tables true 4 = Ok o
      /\ statement o
         = py "SELECT " ++ f ++ py " FROM " ++ c_table c ++ py " " ++ tail
      /\ (c_fields c = py "*" ->
            match tables !! c_table c with
            | Some cols =>
                f = Py.join (py ", ") (final_list o)
                /\ (exists more, final_list o = cols ++ more)
                /\ (py "*" ∉ cols -> py "*" ∉ final_list o)
            | None => f = py "FIELDS(ALL)" /\ final_list o = [py "*"; py "Id"]
            end)
      /\ (c_fields c <> py "*" -> py "*" ∈ c_list_fields c ->
          tables !! c_table c = None ->
            py "*" ∈ final_list o /\ exists more, f = c_fields c ++ more).
Proof.
  eexists.
  match goal with
  | |- parse _ = Ok ?c /\ _ =>
      assert (Hp : parse (py "SELECT * from Task") = Ok c)
        by (vm_compute; reflexivity);
      split; [exact Hp | ];
      exact (RuleFacts.C8_wildcard_replaced (py "SELECT * from Task")
               tables true 4 c Hp)
  end.
Defined.

(** C10, as stated, fails: a statement whose last clause has no text ends
    with two spaces. *)
Lemma C10_two_spaces :
  sql2soql open_where_query tables false 0
  = Ok (Outcome (py "SELECT a1 FROM Account WHERE  ") (py "Account")
          [py "a1"] tables)
  /\ on_ok c_where (parse open_where_query) = Some (Some []).
Proof. vm_compute. done. Qed.

(** C10 on the first statement of the source's test. *)
Lemma C10_statement_end_witness :
  exists c,
    parse fields_query = Ok c
    /\ exists o,
      sql2soql fields_query tables true 0 = Ok o
      /\ (forall n, resolve_limit (c_limit c) (c_aggregate c) 0 = Some n ->
            n <> [] /\ Spec.digits n
            /\ exists head, statement o = head ++ py " LIMIT " ++ n)
      /\ (resolve_limit (c_limit c) (c_aggregate c) 0 = None ->
          let t := Shape.last_text (c_table c) (fix_where <$> c_where c)
                     (c_groupby c) (c_orderby c) in
          (exists body, statement o = body ++ py " " ++ t ++ py " ")
          /\ Spec.tidy_end t
          /\ (Shape.last_text (c_table c) (c_where c) (c_groupby c)
                (c_orderby c) <> [] ->
              t <> [] /\ Shape.one_trailing_space (statement o))).
Proof.
  eexists.
  match goal with
  | |- parse _ = Ok ?c /\ _ =>
      assert (Hp : parse fields_query = Ok c) by (vm_compute; reflexivity);
      split; [exact Hp | ];
      exact (RuleFacts.C10_statement_end fields_query tables true 0 c Hp)
  end.
Defined.

(** C9 on a statement whose first keyword is misspelt. *)
Lemma C9_malformed_statement_witness :
  (~ Spec.keyword_boundary (py "select") (py "SELEC * FROM T")
   \/ ~ Spec.keyword_boundary (py "from") (py "SELEC * FROM T")
   \/ (forall m, Re.search re_select (py "SELEC * FROM T") = Some m ->
         ~ Spec.keyword_boundary (py "from")
             (drop (Re.m_end m) (py "SELEC * FROM T"))))
  /\ parse (py "SELEC * FROM T") = Raise AttributeError
  /\ sql2soql (py "SELEC * FROM T") tables true 4 = Raise AttributeError.
Proof.
  assert (H : ~ Spec.keyword_boundary (py "select") (py "SELEC * FROM T")).
  { intros [m Hm]%ParseFacts.search_keyword_complete.
    vm_compute in Hm. discriminate Hm. }
  split; [by left | ].
  apply TranslatorFacts.C9_malformed_statement. by left.
Defined.

End ScenarioFacts.

(** ** More scenarios *)

Module CaseFacts.
Import Re Sql2soql Spec Scenario Shape Salesforce Cases.

(** The literal of the fourth statement of the source's test. *)
Lemma where_no_quoted_date_witness :
  exists c w0,
    parse date_query = Ok c /\ c_where c = Some w0
    /\ exists o head tail w,
      sql2soql date_query tables true 4 = Ok o
      /\ statement o = head ++ py "WHERE " ++ w ++ py " " ++ tail
      /\ ~ quoted_date w
      /\ unquoted (fix_constants w0) w.
Proof.
  eexists _, _.
  match goal with
  | |- parse _ = Ok ?c /\ c_where _ = Some ?w /\ _ =>
      assert (Hp : parse date_query = Ok c) by (vm_compute; reflexivity);
      assert (Hw : c_where c = Some w) by reflexivity;
      split; [exact Hp | ]; split; [exact Hw | ];
      exact (WhereFacts.where_no_quoted_date date_query tables true 4 c w Hp Hw)
  end.
Defined.

Lemma where_literal_unquoted_witness :
  exists c,
    parse date_query = Ok c
    /\ c_where c = Some (py "ModDate > " ++ quote :: py "2023-01-01" ++ quote :: [])
    /\ date_body (py "2023-01-01")
    /\ no_digit_before (py "ModDate > ") /\ no_digit_after []
    /\ exists o head tail p s pre' post',
      sql2soql date_query tables true 4 = Ok o
      /\ statement o
         = head ++ py "WHERE " ++ (p ++ py "2023-01-01" ++ s) ++ py " " ++ tail
      /\ constants_fixed (py "ModDate > ") pre' /\ unquoted pre' p
      /\ constants_fixed [] post' /\ unquoted post' s.
Proof.
  eexists.
  match goal with
  | |- parse _ = Ok ?c /\ _ =>
      assert (Hp : parse date_query = Ok c) by (vm_compute; reflexivity);
      assert (Hw : c_where c
                   = Some (py "ModDate > " ++ quote :: py "2023-01-01"
                           ++ quote :: [])) by reflexivity;
      assert (Hd : date_body (py "2023-01-01"))
        by (exists (py "2023"), (py "01"), (py "01"); vm_compute;
            repeat split; repeat constructor);
      assert (Hb : no_digit_before (py "ModDate > "))
        by (intros x; vm_compute; intros [= <-]; reflexivity);
      assert (Ha : no_digit_after [])
        by (intros x; vm_compute; intros [=]);
      split; [exact Hp | ]; split; [exact Hw | ]; split; [exact Hd | ];
      split; [exact Hb | ]; split; [exact Ha | ];
      exact (WhereFacts.where_literal_unquoted date_query tables true 4 c
               (py "ModDate > ") (py "2023-01-01") [] Hp Hw Hd Hb Ha)
  end.
Defined.

(** A membership in a list that is given. *)
Ltac in_list := apply (bool_decide_unpack _); vm_compute; exact I.

(** The wildcard on a schema without [Id]: the one case where the
    dictionary changes. *)
Lemma schema_frame_witness :
  exists c,
    parse (py "SELECT * FROM T") = Ok c
    /\ exists o,
      sql2soql (py "SELECT * FROM T") no_id_schema true 0 = Ok o
      /\ (c_fields c <> py "*" \/ true = false
          \/ no_id_schema !! c_table c = None
          \/ (exists cols, no_id_schema !! c_table c = Some cols
                           /\ py "Id" ∈ cols) ->
          final_dict o = no_id_schema)
      /\ (forall cols, c_fields c = py "*" -> true = true ->
            no_id_schema !! c_table c = Some cols -> py "Id" ∉ cols ->
            final_dict o !! c_table c = Some (cols ++ [py "Id"])).
Proof.
  eexists.
  match goal with
  | |- parse _ = Ok ?c /\ _ =>
      assert (Hp : parse (py "SELECT * FROM T") = Ok c)
        by (vm_compute; reflexivity);
      split; [exact Hp | ];
      exact (FieldFacts.schema_frame (py "SELECT * FROM T") no_id_schema true 0
               c Hp)
  end.
Defined.

(** The first statement of the source's test: [Id] and [OwnerId] are
    added to its two columns, and nothing else. *)
Lemma field_list_origin_witness :
  exists c,
    parse fields_query = Ok c /\ c_fields c <> py "*"
    /\ exists o,
      sql2soql fields_query tables true 4 = Ok o
      /\ forall x, x ∈ final_list o ->
           x ∈ c_list_fields c
           \/ (c_aggregate c = false /\ true = true
               /\ (x = py "Id"
                   \/ exists cols, tables !! c_table c = Some cols /\ x ∈ cols
                                   /\ is_key x = true)).
Proof.
  eexists.
  match goal with
  | |- parse _ = Ok ?c /\ _ =>
      assert (Hp : parse fields_query = Ok c) by (vm_compute; reflexivity);
      assert (Hf : c_fields c <> py "*") by (vm_compute; discriminate);
      split; [exact Hp | ]; split; [exact Hf | ];
      exact (FieldFacts.field_list_origin fields_query tables true 4 c Hp Hf)
  end.
Defined.

Lemma field_list_kept_witness :
  exists c,
    parse fields_query = Ok c /\ c_fields c <> py "*"
    /\ py "a1" ∈ c_list_fields c
    /\ (Py.has_char "(" (py "a1") = true \/ tables !! c_table c = None
        \/ (exists cols, tables !! c_table c = Some cols /\ py "a1" ∈ cols))
    /\ exists o,
      sql2soql fields_query tables true 4 = Ok o /\ py "a1" ∈ final_list o.
Proof.
  eexists.
  match goal with
  | |- parse _ = Ok ?c /\ _ =>
      assert (Hp : parse fields_query = Ok c) by (vm_compute; reflexivity);
      assert (Hf : c_fields c <> py "*") by (vm_compute; discriminate);
      assert (Hx : py "a1" ∈ c_list_fields c) by in_list;
      assert (Hc : Py.has_char "(" (py "a1") = true
                   \/ tables !! c_table c = None
                   \/ (exists cols, tables !! c_table c = Some cols
                                    /\ py "a1" ∈ cols))
        by (right; right;
            exists [py "Id"; py "a1"; py "a2"; py "a3"; py "OwnerId"];
            split; [vm_compute; reflexivity | in_list]);
      split; [exact Hp | ]; split; [exact Hf | ]; split; [exact Hx | ];
      split; [exact Hc | ];
      exact (FieldFacts.field_list_kept fields_query tables true 4 c (py "a1")
               Hp Hf Hx Hc)
  end.
Defined.

(** The aggregate statement of the source's test: its alias is not in the
    regenerated text. *)
Lemma known_table_field_text_witness :
  exists c,
    parse max_query = Ok c
    /\ tables !! c_table c
       = Some [py "Id"; py "a1"; py "a2"; py "a3"; py "OwnerId"]
    /\ exists o tail,
      sql2soql max_query tables true 4 = Ok o
      /\ statement o
         = py "SELECT " ++ Py.join (py ", ") (final_list o) ++ py " FROM "
           ++ c_table c ++ py " " ++ tail.
Proof.
  eexists.
  match goal with
  | |- parse _ = Ok ?c /\ _ =>
      assert (Hp : parse max_query = Ok c) by (vm_compute; reflexivity);
      assert (Ht : tables !! c_table c
                   = Some [py "Id"; py "a1"; py "a2"; py "a3"; py "OwnerId"])
        by (vm_compute; reflexivity);
      split; [exact Hp | ]; split; [exact Ht | ];
      exact (FieldFacts.known_table_field_text max_query tables true 4 c _
               Hp Ht)
  end.
Defined.

(** A table without schema: the alias stays. *)
Lemma unknown_table_field_text_witness :
  exists c,
    parse task_query = Ok c /\ tables !! c_table c = None
    /\ c_fields c <> py "*" /\ Py.lower (c_fields c) <> py "count(*)"
    /\ exists o tail,
      sql2soql task_query tables true 4 = Ok o
      /\ (py "Id" ∉ c_list_fields c -> c_aggregate c = false -> true = true ->
            statement o
            = py "SELECT " ++ c_fields c ++ py ", Id FROM " ++ c_table c
              ++ py " " ++ tail
            /\ final_list o = c_list_fields c ++ [py "Id"])
      /\ (py "Id" ∈ c_list_fields c \/ c_aggregate c = true \/ true = false ->
            statement o
            = py "SELECT " ++ c_fields c ++ py " FROM " ++ c_table c
              ++ py " " ++ tail
            /\ final_list o = c_list_fields c).
Proof.
  eexists.
  match goal with
  | |- parse _ = Ok ?c /\ _ =>
      assert (Hp : parse task_query = Ok c) by (vm_compute; reflexivity);
      assert (Ht : tables !! c_table c = None) by (vm_compute; reflexivity);
      assert (Hf : c_fields c <> py "*") by (vm_compute; discriminate);
      assert (Hc : Py.lower (c_fields c) <> py "count(*)")
        by (vm_compute; discriminate);
      split; [exact Hp | ]; split; [exact Ht | ]; split; [exact Hf | ];
      split; [exact Hc | ];
      exact (FieldFacts.unknown_table_field_text task_query tables true 4 c
               Hp Ht Hf Hc)
  end.
Defined.

Lemma table_name_after_from_witness :
  exists c,
    parse fields_query = Ok c
    /\ exists o f tail,
      sql2soql fields_query tables true 4 = Ok o
      /\ table_after_from fields_query (table_name o)
      /\ statement o
         = py "SELECT " ++ f ++ py " FROM " ++ table_name o ++ py " " ++ tail.
Proof.
  eexists.
  match goal with
  | |- parse _ = Ok ?c /\ _ =>
      assert (Hp : parse fields_query = Ok c) by (vm_compute; reflexivity);
      split; [exact Hp | ];
      exact (ClauseFacts.table_name_after_from fields_query tables true 4 c Hp)
  end.
Defined.

Lemma clause_texts_from_input_witness :
  exists c,
    parse fields_query = Ok c
    /\ (py "Name='Fred'" = c_fields c \/ c_where c = Some (py "Name='Fred'")
        \/ c_groupby c = Some (py "Name='Fred'")
        \/ c_orderby c = Some (py "Name='Fred'"))
    /\ trimmed (py "Name='Fred'")
    /\ stripped_from fields_query (py "Name='Fred'").
Proof.
  eexists.
  match goal with
  | |- parse _ = Ok ?c /\ _ =>
      assert (Hp : parse fields_query = Ok c) by (vm_compute; reflexivity);
      assert (Hw : py "Name='Fred'" = c_fields c
                   \/ c_where c = Some (py "Name='Fred'")
                   \/ c_groupby c = Some (py "Name='Fred'")
                   \/ c_orderby c = Some (py "Name='Fred'"))
        by (right; left; reflexivity);
      split; [exact Hp | ]; split; [exact Hw | ];
      exact (ClauseFacts.clause_texts_from_input fields_query c _ Hp Hw)
  end.
Defined.

Lemma aggregate_detected_witness :
  exists c,
    parse max_query = Ok c
    /\ (c_aggregate c = true <-> aggregate_call (c_fields c)).
Proof.
  eexists.
  match goal with
  | |- parse _ = Ok ?c /\ _ =>
      assert (Hp : parse max_query = Ok c) by (vm_compute; reflexivity);
      split; [exact Hp | ];
      exact (ClauseFacts.aggregate_detected max_query c Hp)
  end.
Defined.

Lemma statement_ending_witness :
  exists c,
    parse fields_query = Ok c
    /\ exists o,
      sql2soql fields_query tables true 4 = Ok o
      /\ (forall n, resolve_limit (c_limit c) (c_aggregate c) 4 = Some n ->
            n <> [] /\ digits n
            /\ exists head, statement o = head ++ py " LIMIT " ++ n)
      /\ (resolve_limit (c_limit c) (c_aggregate c) 4 = None ->
          let t := last_text (c_table c) (c_where c) (c_groupby c)
                     (c_orderby c) in
          (t <> [] -> one_trailing_space (statement o))
          /\ (t = [] -> exists body, statement o = body ++ py "  ")).
Proof.
  eexists.
  match goal with
  | |- parse _ = Ok ?c /\ _ =>
      assert (Hp : parse fields_query = Ok c) by (vm_compute; reflexivity);
      split; [exact Hp | ];
      exact (ClauseFacts.statement_ending fields_query tables true 4 c Hp)
  end.
Defined.

(** On a table with a schema, [COUNT( * )] stays as written. *)
Lemma count_star_statement_witness :
  exists c,
    parse count_query = Ok c /\ Py.lower (c_fields c) = py "count(*)"
    /\ exists o tail,
      sql2soql count_query tables true 4 = Ok o
      /\ final_list o = [c_fields c]
      /\ (tables !! c_table c = None ->
            statement o
            = py "SELECT count() FROM " ++ c_table c ++ py " " ++ tail)
      /\ (is_Some (tables !! c_table c) ->
            statement o
            = py "SELECT " ++ c_fields c ++ py " FROM " ++ c_table c ++ py " "
              ++ tail).
Proof.
  eexists.
  match goal with
  | |- parse _ = Ok ?c /\ _ =>
      assert (Hp : parse count_query = Ok c) by (vm_compute; reflexivity);
      assert (Hl : Py.lower (c_fields c) = py "count(*)") by reflexivity;
      split; [exact Hp | ]; split; [exact Hl | ];
      exact (ClauseFacts.count_star_statement count_query tables true 4 c
               Hp Hl)
  end.
Defined.

(** The owner's name in the row of the record. *)
Lemma flatten_row_origin_witness :
  (py "Owner.Name", Atom (py "Fred")) ∈ flatten_record account_record
  /\ py "Owner.Name" <> attributes
  /\ ((exists a, Atom (py "Fred") = Atom a
                 /\ (py "Owner.Name", Atom (py "Fred")) ∈ account_record)
      \/ exists k d k2,
           py "Owner.Name" = k ++ py "." ++ k2
           /\ (k, ODict d) ∈ account_record /\ (k2, Atom (py "Fred")) ∈ d
           /\ k <> attributes /\ k2 <> attributes).
Proof.
  assert (H : (py "Owner.Name", Atom (py "Fred")) ∈ flatten_record account_record)
    by (vm_compute; apply elem_of_cons; right; apply elem_of_cons; left;
        reflexivity).
  split; [exact H | ].
  exact (SalesforceFacts.flatten_row_origin account_record _ _ H).
Defined.

Lemma account_record_well_formed : well_formed account_record.
Proof.
  split; [ | split].
  - apply (bool_decide_unpack _). vm_compute. exact I.
  - repeat constructor; simpl; apply (bool_decide_unpack _); vm_compute; exact I.
  - intros k v H. unfold account_record in H.
    apply elem_of_cons in H as [H | H]; [injection H as -> ->; in_list | ].
    apply elem_of_cons in H as [H | H]; [discriminate H | ].
    apply elem_of_cons in H as [H | H]; [injection H as -> ->; in_list | ].
    by apply elem_of_nil in H.
Defined.

Lemma flatten_row_lookup_witness :
  well_formed account_record
  /\ (forall k a, (k, Atom a) ∈ account_record -> k <> attributes ->
        dict_get k (flatten_record account_record) = Some (Atom a))
  /\ (forall k d k2 v, (k, ODict d) ∈ account_record -> (k2, v) ∈ d ->
        k <> attributes -> k2 <> attributes ->
        dict_get (k ++ py "." ++ k2) (flatten_record account_record) = Some v).
Proof.
  split; [exact account_record_well_formed | ].
  exact (SalesforceFacts.flatten_row_lookup account_record
           account_record_well_formed).
Defined.

(** One drop, then a reply: two queries, and the row of the record. *)
Lemma do_query_retries_witness :
  exists o,
    sql2soql name_query table2columns true row_limit = Ok o
    /\ (true = false -> reconnects drops_once 0 = true)
    /\ let r0 := 0 in
       let run := do_query drops_once true table2columns row_limit name_query in
       queries run <= 3 /\ reconnections run <= r0 + queries run
       /\ (forall i recs, i < 3 ->
             (forall j, j < i -> dropped drops_once (statement o) r0 j) ->
             replies drops_once i (statement o) = Records recs ->
             returned run = inr (map flatten_record recs) /\ queries run = S i)
       /\ (forall i, i < 3 ->
             (forall j, j < i -> dropped drops_once (statement o) r0 j) ->
             replies drops_once i (statement o) = Failed ->
             returned run = inl QueryFailed /\ queries run = S i)
       /\ ((forall j, j < 3 -> dropped drops_once (statement o) r0 j) ->
             returned run = inr [] /\ queries run = 3).
Proof.
  eexists.
  match goal with
  | |- sql2soql _ _ _ _ = Ok ?o /\ _ =>
      assert (Ho : sql2soql name_query table2columns true row_limit = Ok o)
        by (vm_compute; reflexivity);
      assert (Hc : true = false -> reconnects drops_once 0 = true)
        by reflexivity;
      split; [exact Ho | ]; split; [exact Hc | ];
      exact (SalesforceFacts.do_query_retries drops_once true table2columns
               row_limit name_query o Ho Hc)
  end.
Defined.

(** Every schema set by [__init__] lists [Id]. *)
Lemma table2columns_ids :
  map_Forall (fun _ cols => py "Id" ∈ cols) table2columns.
Proof.
  unfold table2columns. cbn [list_to_map foldr fst snd uncurry].
  repeat (apply map_Forall_insert_2; [in_list | ]).
  apply map_Forall_empty.
Defined.

Lemma do_query_schema_kept_witness :
  map_Forall (fun _ cols => py "Id" ∈ cols) table2columns
  /\ schema (do_query drops_once true table2columns row_limit name_query)
     = table2columns.
Proof.
  split; [exact table2columns_ids | ].
  exact (SalesforceFacts.do_query_schema_kept drops_once true table2columns
           row_limit name_query table2columns_ids).
Defined.

(** A column that the schema does not list, between two that it lists. *)
Lemma final_field_list_witness :
  exists c,
    parse bogus_query = Ok c /\ c_fields c <> py "*"
    /\ tables !! c_table c
       = Some [py "Id"; py "a1"; py "a2"; py "a3"; py "OwnerId"]
    /\ (c_aggregate c = false -> true = true ->
          NoDup [py "Id"; py "a1"; py "a2"; py "a3"; py "OwnerId"]
          /\ py "Id" ∈ [py "Id"; py "a1"; py "a2"; py "a3"; py "OwnerId"])
    /\ spaced [py "Id"; py "a1"; py "a2"; py "a3"; py "OwnerId"]
         (c_list_fields c)
    /\ exists o,
      sql2soql bogus_query tables true 4 = Ok o
      /\ final_list o
         = filter (fun x => unknown [py "Id"; py "a1"; py "a2"; py "a3";
                                     py "OwnerId"] x = false)
             (c_list_fields c)
           ++ added_columns (c_aggregate c) true (c_list_fields c)
                [py "Id"; py "a1"; py "a2"; py "a3"; py "OwnerId"].
Proof.
  eexists.
  match goal with
  | |- parse _ = Ok ?c /\ _ =>
      assert (Hp : parse bogus_query = Ok c) by (vm_compute; reflexivity);
      assert (Hf : c_fields c <> py "*") by (vm_compute; discriminate);
      assert (Ht : tables !! c_table c
                   = Some [py "Id"; py "a1"; py "a2"; py "a3"; py "OwnerId"])
        by (vm_compute; reflexivity);
      assert (Hk : c_aggregate c = false -> true = true ->
                NoDup [py "Id"; py "a1"; py "a2"; py "a3"; py "OwnerId"]
                /\ py "Id" ∈ [py "Id"; py "a1"; py "a2"; py "a3"; py "OwnerId"])
        by (intros _ _; split; in_list);
      assert (Hs : spaced [py "Id"; py "a1"; py "a2"; py "a3"; py "OwnerId"]
                     (c_list_fields c))
        by (vm_compute; auto);
      split; [exact Hp | ]; split; [exact Hf | ]; split; [exact Ht | ];
      split; [exact Hk | ]; split; [exact Hs | ];
      exact (FieldListFacts.final_field_list bogus_query tables true 4 c _
               Hp Hf Ht Hk Hs)
  end.
Defined.

(** The call of the aggregate statement of the source's test is an entry,
    with its text in parentheses. *)
Lemma field_entries_shape_witness :
  exists c,
    parse max_query = Ok c /\ py "Max(a1)" ∈ c_list_fields c
    /\ field_entry (py "Max(a1)")
    /\ exists pre post, c_fields c = pre ++ py "Max(a1)" ++ post.
Proof.
  eexists.
  match goal with
  | |- parse _ = Ok ?c /\ _ =>
      assert (Hp : parse max_query = Ok c) by (vm_compute; reflexivity);
      assert (Hx : py "Max(a1)" ∈ c_list_fields c) by in_list;
      split; [exact Hp | ]; split; [exact Hx | ];
      exact (FieldListFacts.field_entries_shape max_query c _ Hp Hx)
  end.
Defined.

(** The WHERE clause of the first statement of the source's test. *)
Lemma where_unchanged_witness :
  exists c,
    parse fields_query = Ok c /\ c_where c = Some (py "Name='Fred'")
    /\ in_str (py "TODAY") (py "Name='Fred'") = false
    /\ in_str (py "THIS_MONTH") (py "Name='Fred'") = false
    /\ ~ quoted_date (py "Name='Fred'")
    /\ exists o head tail,
      sql2soql fields_query tables true 4 = Ok o
      /\ statement o = head ++ py "WHERE " ++ py "Name='Fred'" ++ py " " ++ tail.
Proof.
  eexists.
  match goal with
  | |- parse _ = Ok ?c /\ _ =>
      assert (Hp : parse fields_query = Ok c) by (vm_compute; reflexivity);
      assert (Hw : c_where c = Some (py "Name='Fred'")) by reflexivity;
      assert (Ht : in_str (py "TODAY") (py "Name='Fred'") = false)
        by (vm_compute; reflexivity);
      assert (Hm : in_str (py "THIS_MONTH") (py "Name='Fred'") = false)
        by (vm_compute; reflexivity);
      assert (Hq : ~ quoted_date (py "Name='Fred'"))
        by (apply DateFacts.search_date_none; vm_compute; reflexivity);
      split; [exact Hp | ]; split; [exact Hw | ]; split; [exact Ht | ];
      split; [exact Hm | ]; split; [exact Hq | ];
      exact (PlainWhereFacts.where_unchanged fields_query tables true 4 c _
               Hp Hw Ht Hm Hq)
  end.
Defined.

Lemma print_aligned_witness :
  let first := py "Info    (now): " in
  Plog.print (fun line => [line]) (py "now") 4 true 3 long_note
  = Some (Plog.aligned first (Plog.chunks (fun line => [line]) long_note))
  /\ length first = 9 + length (py " (now)").
Proof.
  apply (PlogFacts.print_aligned (fun line => [line]) (py "now") 4 3 true
           (py "Info") long_note).
  - lia.
  - reflexivity.
  - vm_compute. lia.
Defined.

(** The wildcard of the third statement of the source's test. *)
Lemma wildcard_known_table_witness :
  exists c,
    parse limit_query = Ok c /\ c_fields c = py "*"
    /\ contacts !! c_table c = Some contact_columns
    /\ exists o tail,
      sql2soql limit_query contacts true 4 = Ok o
      /\ statement o
         = py "SELECT " ++ Py.join (py ", ") (final_list o) ++ py " FROM "
           ++ c_table c ++ py " " ++ tail
      /\ (true = false \/ py "Id" ∈ contact_columns ->
            final_list o = contact_columns)
      /\ (true = true -> py "Id" ∉ contact_columns ->
            final_list o = contact_columns ++ [py "Id"]).
Proof.
  eexists.
  match goal with
  | |- parse _ = Ok ?c /\ _ =>
      assert (Hp : parse limit_query = Ok c) by (vm_compute; reflexivity);
      assert (Hf : c_fields c = py "*") by reflexivity;
      assert (Ht : contacts !! c_table c = Some contact_columns)
        by (vm_compute; reflexivity);
      split; [exact Hp | ]; split; [exact Hf | ]; split; [exact Ht | ];
      exact (TranslatorFacts.wildcard_known_table limit_query contacts true 4
               c contact_columns Hp Hf Ht)
  end.
Defined.

(** The comparison of a date with the last day of the month. *)
Lemma date_comparison_rewritten_witness :
  exists c,
    parse last_day_query = Ok c
    /\ c_where c = Some (py "CloseDate " ++ py "<=" ++ py " " ++ py "LAST_DAY(TODAY())")
    /\ (py "<=", py "LAST_DAY(TODAY())", py "< NEXT_MONTH") ∈ date_comparisons
    /\ Forall (fun ch => plain_char ch = true) (py "CloseDate ")
    /\ spaces (py " ")
    /\ exists o head tail,
      sql2soql last_day_query tables true 4 = Ok o
      /\ statement o
         = head ++ py "WHERE " ++ (py "CloseDate " ++ py "< NEXT_MONTH")
           ++ py " " ++ tail.
Proof.
  eexists.
  match goal with
  | |- parse _ = Ok ?c /\ _ =>
      assert (Hp : parse last_day_query = Ok c) by (vm_compute; reflexivity);
      assert (Hw : c_where c = Some (py "CloseDate " ++ py "<=" ++ py " "
                                     ++ py "LAST_DAY(TODAY())"))
        by reflexivity;
      assert (Hin : (py "<=", py "LAST_DAY(TODAY())", py "< NEXT_MONTH")
                    ∈ date_comparisons)
        by (apply (bool_decide_unpack _); vm_compute; exact I);
      assert (Hx : Forall (fun ch => plain_char ch = true) (py "CloseDate "))
        by (by repeat constructor);
      assert (Hsp : spaces (py " ")) by (by repeat constructor);
      split; [exact Hp | ]; split; [exact Hw | ]; split; [exact Hin | ];
      split; [exact Hx | ]; split; [exact Hsp | ];
      exact (CompareFacts.date_comparison_rewritten last_day_query tables true 4
               c _ _ _ _ _ Hp Hw Hin Hx Hsp)
  end.
Defined.
Lemma translation_returns_iff_witness :
  (exists o, sql2soql name_query tables true 4 = Ok o)
  <-> exists m1 m2 e1 name,
        search re_select name_query = Some m1
        /\ search re_fields (drop (m_end m1) name_query) = Some m2
        /\ m_gend m2 1 = Some e1
        /\ table_after_from (drop e1 (drop (m_end m1) name_query)) name.
Proof.
  exact (ClauseFacts.translation_returns_iff name_query tables true 4).
Defined.

End CaseFacts.
